(** * ACT expert retrieval tools: corpus parsing, index construction,
    knowledge-graph extraction and hybrid querying.

    A shallow embedding of the four Python tools under
    [agents/act-expert/tools]:

    - [build_embeddings.py]  (module [Corpus])
    - [build_index.py]       (module [Index])
    - [build_tensors.py]     (module [Graph])
    - [query_rag.py]         (module [Query])

    Conventions of the embedding.

    - A Python [str] is a [string]; every character stands for the code
      point of the same number (0..255).  The character classes used by
      [str.strip], [\s] and [\w] are the ones Python gives those code points.
    - A Python [float] score is a rational [Q]; [==] on floats is
      [Qeq_bool].  This is the arithmetic without rounding and overflow;
      module [Doubles] has [normalize] on binary64 numbers.
    - A [dict] read only through lookups is a [gmap]; a [dict] or [list]
      whose order is observed is a [list].
    - A raised exception is [None]. *)

From Stdlib Require Import Ascii QArith.
From Stdlib Require PrimFloat.
From stdpp Require Import gmap strings list sorting.

Local Open Scope Z_scope.
Local Open Scope stdpp_scope.

(** ** Python string primitives *)

Module PyStr.

(** [str.isspace] on the code points below 256: TAB..CR, FS..US, space,
    NEL (0x85) and NBSP (0xA0).  The same class is used by [str.strip]
    and by the regular expression escape [\s]. *)
Definition is_space (c : ascii) : bool :=
  let n := Ascii.N_of_ascii c in
  ((9 <=? n) && (n <=? 13) || (28 <=? n) && (n <=? 32)
   || (n =? 133) || (n =? 160))%N.

(** The regular expression escape [\w] on the code points below 256:
    ASCII letters, digits and underscore, and the Latin-1 letters and
    numeric characters. *)
Definition is_word (c : ascii) : bool :=
  let n := Ascii.N_of_ascii c in
  ((48 <=? n) && (n <=? 57) || (65 <=? n) && (n <=? 90)
   || (n =? 95) || (97 <=? n) && (n <=? 122)
   || (n =? 170) || (n =? 178) || (n =? 179) || (n =? 181)
   || (n =? 185) || (n =? 186) || (188 <=? n) && (n <=? 190)
   || (192 <=? n) && (n <=? 214) || (216 <=? n) && (n <=? 246)
   || (248 <=? n) && (n <=? 255))%N.

Definition newline : ascii := "010"%char.

Definition is_newline (c : ascii) : bool := (Ascii.N_of_ascii c =? 10)%N.

(** The one-character string ["\n"]. *)
Definition newline_string : string := String newline EmptyString.

(** [s.startswith(p)] *)
Definition startswith (p s : string) : bool := String.prefix p s.

(** [sub in s] *)
Fixpoint contains (sub s : string) : bool :=
  match s with
  | EmptyString => String.prefix sub s
  | String _ s' => String.prefix sub s || contains sub s'
  end.

(** [s.split(sep)] for a non-empty [sep]; also [re.split] on a pattern
    that is a literal.  [skip] counts the characters of a separator
    that was recognised and is still being consumed. *)
Fixpoint split_go (sep : string) (skip : nat) (s : string)
  : string * list string :=
  match s with
  | EmptyString => (EmptyString, [])
  | String c s' =>
      match skip with
      | S n => split_go sep n s'
      | O =>
          if String.prefix sep s then
            let '(p, ps) := split_go sep (String.length sep - 1) s' in
            (EmptyString, p :: ps)
          else
            let '(p, ps) := split_go sep 0 s' in
            (String c p, ps)
      end
  end.

Definition split (sep s : string) : list string :=
  let '(p, ps) := split_go sep 0 s in p :: ps.

(** [s.replace(old, "")] for a non-empty [old]: every occurrence, left to
    right, without overlap, is removed. *)
Fixpoint remove_go (old : string) (skip : nat) (s : string) : string :=
  match s with
  | EmptyString => EmptyString
  | String c s' =>
      match skip with
      | S n => remove_go old n s'
      | O =>
          if String.prefix old s
          then remove_go old (String.length old - 1) s'
          else String c (remove_go old 0 s')
      end
  end.

Definition remove (old s : string) : string := remove_go old 0 s.

Fixpoint lstrip (s : string) : string :=
  match s with
  | EmptyString => EmptyString
  | String c s' => if is_space c then lstrip s' else s
  end.

Fixpoint rstrip (s : string) : string :=
  match s with
  | EmptyString => EmptyString
  | String c s' =>
      match rstrip s' with
      | EmptyString => if is_space c then EmptyString else String c EmptyString
      | r => String c r
      end
  end.

(** [s.strip()] *)
Definition strip (s : string) : string := rstrip (lstrip s).

(** [sep.join(l)] *)
Definition join (sep : string) (l : list string) : string :=
  String.concat sep l.

(** Truth value of an optional string: [None] and [""] are false. *)
Definition truthy (o : option string) : bool :=
  match o with
  | Some (String _ _) => true
  | _ => false
  end.

End PyStr.

(** ** build_embeddings.py *)

Module Corpus.
Import PyStr.

Record CorpusDocument := mkDoc {
  doc_id : string;
  title : string;
  tags : list string;
  doc_type : option string;
  content : string;
  source_file : string
}.

(** The local variables of the loop over the lines of one section. *)
Record Scan := mkScan {
  s_doc_id : option string;
  s_tags : list string;
  s_doc_type : option string;
  s_content_lines : list string;
  s_in_content : bool
}.

Definition scan_init : Scan := mkScan None [] None [] false.

Definition ID_marker : string := "**ID:**".
Definition Tags_marker : string := "**Tags:**".
Definition Type_marker : string := "**Type:**".
Definition Related_marker : string := "**Related:**".

(** The payload of a marker line: [line.replace(marker, "").strip()]. *)
Definition payload (marker line : string) : string :=
  strip (remove marker line).

(** [[t.strip() for t in tags_str.split(",")]] *)
Definition split_tags (tags_str : string) : list string :=
  strip <$> split "," tags_str.

(** One iteration of [for line in lines[1:]]. *)
Definition scan_line (st : Scan) (line : string) : Scan :=
  if startswith ID_marker line then
    mkScan (Some (payload ID_marker line)) (s_tags st) (s_doc_type st)
           (s_content_lines st) (s_in_content st)
  else if startswith Tags_marker line then
    mkScan (s_doc_id st) (split_tags (payload Tags_marker line))
           (s_doc_type st) (s_content_lines st) (s_in_content st)
  else if startswith Type_marker line then
    mkScan (s_doc_id st) (s_tags st) (Some (payload Type_marker line))
           (s_content_lines st) (s_in_content st)
  else if startswith Related_marker line then
    st
  else
    let in_content :=
      if truthy (s_doc_id st) && negb (s_in_content st)
      then true else s_in_content st in
    mkScan (s_doc_id st) (s_tags st) (s_doc_type st)
           (if in_content then s_content_lines st ++ [line]
            else s_content_lines st)
           in_content.

Definition scan_lines (lines : list string) : Scan :=
  foldl scan_line scan_init lines.

(** The body of [for section in sections[1:]]: the document appended for
    this section, if any. *)
Definition parse_section (file_name section : string)
  : option CorpusDocument :=
  match split newline_string section with
  | [] => None
  | first :: rest =>
      let st := scan_lines rest in
      if truthy (s_doc_id st) then
        Some (mkDoc (default EmptyString (s_doc_id st))
                    (strip first)
                    (s_tags st)
                    (s_doc_type st)
                    (strip (join newline_string (s_content_lines st)))
                    file_name)
      else None
  end.

(** The separator of [re.split(r"\n## ", content)]. *)
Definition section_sep : string := String newline "## ".

(** The body of [for md_file in corpus_path.glob("*.md")] for one file,
    given its name and its text: the documents it appends. *)
Definition parse_file (file : string * string) : list CorpusDocument :=
  omap (parse_section file.1) (tail (split section_sep file.2)).

(** The line printed for one file. *)
Definition parsing_line (file : string * string) : string :=
  "Parsing " +:+ file.1 +:+ "...".

(** [parse_markdown_corpus], on the files of the corpus directory in the
    order [glob] yields them, each as (name, text).  The result is the
    list of documents together with the lines printed. *)
Definition parse_markdown_corpus (files : list (string * string))
  : list CorpusDocument * list string :=
  (files ≫= parse_file, parsing_line <$> files).

(** [metadata = [doc.to_dict() for doc in documents]].  A metadata entry
    carries the six fields of the document under the keys [id], [title],
    [tags], [type], [content], [source_file] (and a digest of the
    content, which no tool reads back); it is represented by the
    document record itself. *)
Definition to_dict (doc : CorpusDocument) : CorpusDocument := doc.

Definition metadata_of (documents : list CorpusDocument)
  : list CorpusDocument := to_dict <$> documents.

End Corpus.

(** ** build_index.py *)

Module Index.
Import PyStr Corpus.

(** The index objects [build_faiss_index] constructs; [ntotal] is the
    number of vectors added. *)
Inductive FaissKind :=
| IndexFlatL2 (d : Z)
| IndexIVFFlat (d nlist : Z)
| IndexHNSWFlat (d M : Z).

Record FaissIndex := mkIndex { kind : FaissKind; ntotal : Z }.

(** [nlist = min(100, dimension // 10)], where [dimension] is
    [embeddings.shape[0]], the number of vectors. *)
Definition nlist_of (dimension : Z) : Z := Z.min 100 (dimension / 10).

(** [build_faiss_index] on an array of shape [(dimension, embedding_dim)].
    An unknown [index_type] raises [ValueError]. *)
Definition build_faiss_index (shape : Z * Z) (index_type : string)
  : option FaissIndex :=
  let dimension := shape.1 in
  let embedding_dim := shape.2 in
  if decide (index_type = "Flat") then
    Some (mkIndex (IndexFlatL2 embedding_dim) dimension)
  else if decide (index_type = "IVF") then
    Some (mkIndex (IndexIVFFlat embedding_dim (nlist_of dimension)) dimension)
  else if decide (index_type = "HNSW") then
    Some (mkIndex (IndexHNSWFlat embedding_dim 32) dimension)
  else None.

(** [str.lower] on one character. *)
Definition lower_char (c : ascii) : ascii :=
  let n := Ascii.N_of_ascii c in
  if ((65 <=? n) && (n <=? 90)
      || (192 <=? n) && (n <=? 222) && negb (n =? 215))%N
  then Ascii.ascii_of_N (n + 32) else c.

Fixpoint lower (s : string) : string :=
  match s with
  | EmptyString => EmptyString
  | String c s' => String (lower_char c) (lower s')
  end.

(** [s.split()]: the maximal runs of characters that are not white
    space.  [cur] is the run being read, in reverse. *)
Fixpoint words_go (cur : string) (s : string) : list string :=
  match s with
  | EmptyString =>
      match cur with EmptyString => [] | _ => [String.rev cur] end
  | String c s' =>
      if is_space c then
        match cur with
        | EmptyString => words_go EmptyString s'
        | _ => String.rev cur :: words_go EmptyString s'
        end
      else words_go (String c cur) s'
  end.

Definition words (s : string) : list string := words_go EmptyString s.

(** [build_bm25_index].  The index is [BM25Okapi(corpus)]; it is
    represented by [corpus], the token lists, one per metadata entry. *)
Definition build_bm25_index (metadata : list CorpusDocument)
  : list (list string) :=
  (fun doc =>
     words (lower (title doc +:+ " " +:+ join " " (tags doc)
                   +:+ " " +:+ content doc))) <$> metadata.

End Index.

(** ** build_tensors.py *)

Module Graph.
Import PyStr Corpus.

(** [NODE_TYPES]: a lookup of a name that is not a key raises
    [KeyError]. *)
Definition NODE_TYPES (name : string) : option Z :=
  if decide (name = "definition") then Some 0
  else if decide (name = "law") then Some 1
  else if decide (name = "pattern") then Some 2
  else if decide (name = "violation") then Some 3
  else if decide (name = "fix") then Some 4
  else if decide (name = "example") then Some 5
  else if decide (name = "test_template") then Some 6
  else None.

Definition NODE_TYPE_NAMES : list string :=
  ["definition"; "law"; "pattern"; "violation"; "fix"; "example";
   "test_template"].

Inductive EdgeType :=
| defines | requires | verifies | violates
| fixes | implements | relates_to | uses.

Global Instance EdgeType_eq_dec : EqDecision EdgeType.
Proof. solve_decision. Defined.

(** [EDGE_TYPES] *)
Definition EDGE_TYPES (t : EdgeType) : Z :=
  match t with
  | defines => 0 | requires => 1 | verifies => 2 | violates => 3
  | fixes => 4 | implements => 5 | relates_to => 6 | uses => 7
  end.

Definition EDGE_TYPE_NAMES : list EdgeType :=
  [defines; requires; verifies; violates; fixes; implements; relates_to;
   uses].

(** An element of [self.edges]: [(src, dst, edge_type)]. *)
Record Edge := mkEdge { src : string; dst : string; etype : EdgeType }.

Global Instance Edge_eq_dec : EqDecision Edge.
Proof. solve_decision. Defined.

Record Node := mkNode {
  n_id : string;
  n_type : option string;
  n_tags : list string;
  n_embedding : list Q
}.

Record KnowledgeGraphBuilder := mkBuilder {
  nodes : gmap string Node;
  edges : list Edge
}.

(** [KnowledgeGraphBuilder()] *)
Definition builder_init : KnowledgeGraphBuilder := mkBuilder ∅ [].

(** *** Regular expressions of [_extract_relationships] *)

Fixpoint drop_chars (n : nat) (s : string) : string :=
  match n, s with
  | S n', String _ s' => drop_chars n' s'
  | _, _ => s
  end.

Fixpoint take_while (P : ascii -> bool) (s : string) : string :=
  match s with
  | EmptyString => EmptyString
  | String c s' => if P c then String c (take_while P s') else EmptyString
  end.

(** The class [[^\n]]. *)
Definition not_newline (c : ascii) : bool := negb (is_newline c).

(** The class [[\w-]]. *)
Definition is_slug_char (c : ascii) : bool :=
  is_word c || (Ascii.N_of_ascii c =? 45)%N.

(** An attempt to match [\s*([^\n]+)] at the start of [s], giving group
    1.  [\s*] is greedy: it takes a white-space character when the rest
    of the pattern can still match, and gives it back otherwise. *)
Fixpoint related_tail (s : string) : option string :=
  match s with
  | EmptyString => None
  | String c s' =>
      if is_space c then
        match related_tail s' with
        | Some g => Some g
        | None =>
            if not_newline c then Some (take_while not_newline s) else None
        end
      else Some (take_while not_newline s)
  end.

(** [re.search(r"\*\*Related:\*\*\s*([^\n]+)", s)]: group 1 of the
    leftmost match. *)
Fixpoint search_related (s : string) : option string :=
  match s with
  | EmptyString => None
  | String _ s' =>
      if startswith Related_marker s then
        match related_tail (drop_chars (String.length Related_marker) s) with
        | Some g => Some g
        | None => search_related s'
        end
      else search_related s'
  end.

(** [re.findall(prefix + r"[\w-]+", s)] for a literal, non-empty
    [prefix]: the matches, left to right, without overlap.  [skip] counts
    the characters of the last match still to be passed. *)
Fixpoint findall_go (prefix : string) (skip : nat) (s : string)
  : list string :=
  match s with
  | EmptyString => []
  | String _ s' =>
      match skip with
      | S n => findall_go prefix n s'
      | O =>
          if startswith prefix s then
            match take_while is_slug_char
                    (drop_chars (String.length prefix) s) with
            | EmptyString => findall_go prefix 0 s'
            | run =>
                (prefix +:+ run)
                  :: findall_go prefix
                       (String.length prefix + String.length run - 1) s'
            end
          else findall_go prefix 0 s'
      end
  end.

Definition findall (prefix s : string) : list string :=
  findall_go prefix 0 s.

(** [_extract_relationships]: the edges appended to [self.edges]. *)
Definition extract_relationships (node_id content source_file : string)
  : list Edge :=
  let related :=
    match search_related content with
    | Some related_str =>
        (fun r => mkEdge node_id (strip r) relates_to)
          <$> split "," related_str
    | None => []
    end in
  related ++
  (if contains "violation-" node_id then
     ((fun fix_id => mkEdge node_id fix_id fixes)
        <$> findall "fix-" content)
     ++ ((fun law_id => mkEdge node_id law_id violates)
           <$> findall "law-" content)
   else if contains "pattern-" node_id then
     ((fun def_id => mkEdge def_id node_id defines)
        <$> findall "def-" content)
     ++ ((fun example_id => mkEdge node_id example_id implements)
           <$> findall "example-" content)
   else if contains "test-" node_id then
     (fun pattern_id => mkEdge node_id pattern_id verifies)
       <$> findall "pattern-" content
   else []).

(** [embedding_lookup = {doc["id"]: embeddings[i] for i, doc in
    enumerate(metadata)}]; a missing row raises [IndexError]. *)
Fixpoint embedding_lookup (embeddings : list (list Q))
    (metadata : list CorpusDocument) (acc : gmap string (list Q))
  : option (gmap string (list Q)) :=
  match metadata with
  | [] => Some acc
  | doc :: metadata' =>
      match embeddings with
      | [] => None
      | e :: embeddings' =>
          embedding_lookup embeddings' metadata' (<[doc_id doc := e]> acc)
      end
  end.

(** One iteration of [for doc in metadata] in [parse_corpus]. *)
Definition add_document (lookup : gmap string (list Q)) (b : KnowledgeGraphBuilder)
    (doc : CorpusDocument) : KnowledgeGraphBuilder :=
  let embedding := default [] (lookup !! doc_id doc) in
  mkBuilder
    (<[doc_id doc :=
         mkNode (doc_id doc) (doc_type doc) (tags doc) embedding]>
       (nodes b))
    (edges b
       ++ extract_relationships (doc_id doc) (content doc)
            (source_file doc)).

(** [parse_corpus], on the loaded embeddings and metadata. *)
Definition parse_corpus (b : KnowledgeGraphBuilder) (embeddings : list (list Q))
    (metadata : list CorpusDocument) : option KnowledgeGraphBuilder :=
  lookup ← embedding_lookup embeddings metadata ∅;
  Some (foldl (add_document lookup) b metadata).

(** The graph object of [build_graph]: [x], [edge_index] (one pair per
    column), [node_type], [edge_type], and the two attributes added
    last. *)
Record Data := mkData {
  x : list (list Q);
  edge_index : list (nat * nat);
  node_type : list Z;
  edge_type : list Z;
  node_ids : list string;
  node_to_idx : gmap string nat
}.

(** [{node_id: idx for idx, node_id in enumerate(node_ids)}] *)
Definition index_map (ids : list string) : gmap string nat :=
  list_to_map (reverse (imap (fun idx node_id => (node_id, idx)) ids)).

(** One iteration of [for src, dst, edge_type in self.edges]: the pair
    and the type code appended, if both ends are node ids. *)
Definition resolve_edge (idx : gmap string nat) (e : Edge)
  : option (nat * nat * Z) :=
  match idx !! src e, idx !! dst e with
  | Some src_idx, Some dst_idx => Some (src_idx, dst_idx, EDGE_TYPES (etype e))
  | _, _ => None
  end.

(** [np.array(node_features)] on a list of rows: rows of different
    length raise [ValueError]. *)
Definition np_array (rows : list (list Q)) : option (list (list Q)) :=
  match rows with
  | [] => Some []
  | row :: _ =>
      if decide (Forall (fun r => length r = length row) rows)
      then Some rows else None
  end.

(** [build_graph].  A node whose type is not a key of [NODE_TYPES]
    raises [KeyError]; embeddings of different length raise
    [ValueError]. *)
Definition build_graph (b : KnowledgeGraphBuilder) : option Data :=
  let ids := merge_sort String.le (elements (dom (nodes b))) in
  let idx := index_map ids in
  let ns := omap (fun node_id => nodes b !! node_id) ids in
  node_types ← mapM (fun node => n_type node ≫= NODE_TYPES) ns;
  x ← np_array (n_embedding <$> ns);
  let resolved := omap (resolve_edge idx) (edges b) in
  Some (mkData x
               (fst <$> resolved)
               node_types
               (snd <$> resolved)
               ids idx).

(** [graph_stats.json] *)
Record Stats := mkStats {
  num_nodes : nat;
  num_edges : nat;
  node_feature_dim : nat;
  nodes_by_type : list (string * nat);
  edges_by_type : list (EdgeType * nat)
}.

Definition count_Z (v : Z) (l : list Z) : nat :=
  length (filter (fun y => y = v) l).

(** What [save_graph_tensor] writes that depends on the corpus: the
    graph object stored in [category_graph.pt] and the statistics stored
    in [graph_stats.json].  (The two tables are constants, and the model
    file holds the weights of the network, which is built and trained
    from the graph object.)  [graph.x.size(1)] raises [IndexError] when
    there is no node. *)
Record Artifacts := mkArtifacts { a_graph : Data; a_stats : Stats }.

Definition save_graph_tensor (graph : Data) : option Artifacts :=
  row ← head (x graph);
  Some (mkArtifacts graph
          (mkStats (length (x graph))
                   (length (edge_index graph))
                   (length row)
                   ((fun name =>
                       (name,
                        from_option (fun v => count_Z v (node_type graph))
                          0%nat (NODE_TYPES name)))
                      <$> NODE_TYPE_NAMES)
                   ((fun t => (t, count_Z (EDGE_TYPES t) (edge_type graph)))
                      <$> EDGE_TYPE_NAMES))).

(** The part of [main] from the builder to the files written. *)
Definition build_and_save (b : KnowledgeGraphBuilder) : option Artifacts :=
  build_graph b ≫= save_graph_tensor.

End Graph.

(** ** query_rag.py *)

Module Query.
Import PyStr Corpus.

Local Open Scope Q_scope.

Inductive SearchType := semantic | keyword | hybrid.

(** A result: a copy of a metadata entry with the keys [score] and
    [search_type] added and, for a hybrid result, [semantic_score] and
    [keyword_score]. *)
Record Result := mkResult {
  r_doc : CorpusDocument;
  r_score : Q;
  r_search_type : SearchType;
  r_semantic_score : option Q;
  r_keyword_score : option Q
}.

(** [l[i]] for a Python list and an integer: a negative [i] counts from
    the end, and an index out of range raises [IndexError]. *)
Definition py_index {A} (l : list A) (i : Z) : option A :=
  let n := Z.of_nat (length l) in
  if (0 <=? i)%Z then l !! Z.to_nat i
  else if (- n <=? i)%Z then l !! Z.to_nat (n + i)
  else None.

(** [a < b] on scores. *)
Definition Qltb (a b : Q) : bool := negb (Qle_bool b a).

(** [min(values)] and [max(values)]; an empty list raises
    [ValueError]. *)
Definition py_min (values : list Q) : option Q :=
  match values with
  | [] => None
  | v :: rest => Some (foldl (fun m y => if Qltb y m then y else m) v rest)
  end.

Definition py_max (values : list Q) : option Q :=
  match values with
  | [] => None
  | v :: rest => Some (foldl (fun m y => if Qltb m y then y else m) v rest)
  end.

(** The local function [normalize] of [query_hybrid]. *)
Definition normalize (scores : gmap string Q) : option (gmap string Q) :=
  let values := (map_to_list scores).*2 in
  min_val ← py_min values;
  max_val ← py_max values;
  if Qeq_bool max_val min_val then Some ((fun _ => 1 # 2) <$> scores)
  else Some ((fun v => (v - min_val) / (max_val - min_val)) <$> scores).

(** A stable sort: [before b a] says that [b] has to come before [a];
    elements that need not be exchanged keep their order. *)
Fixpoint insert_sorted {A} (before : A -> A -> bool) (a : A) (l : list A)
  : list A :=
  match l with
  | [] => [a]
  | b :: l' =>
      if before b a then b :: insert_sorted before a l' else a :: l
  end.

Definition stable_sort {A} (before : A -> A -> bool) (l : list A) : list A :=
  foldr (insert_sorted before) [] l.

(** [sorted(keys, key=score, reverse=True)]: descending, and keys of
    equal score stay in their original order. *)
Definition sorted_desc (score : string -> Q) (keys : list string)
  : list string :=
  stable_sort (fun b a => Qltb (score a) (score b)) keys.

(** [np.argsort(scores)]: the indices in ascending order of score.  The
    order numpy gives to indices of equal score is not specified; here
    they stay in index order. *)
Definition argsort (scores : list Q) : list nat :=
  stable_sort
    (fun j i => Qltb (default 0 (scores !! j)) (default 0 (scores !! i)))
    (seq 0 (length scores)).

(** [l[-k:]] for [k >= 0]; [l[-0:]] is the whole list. *)
Definition last_k {A} (k : nat) (l : list A) : list A :=
  match k with
  | O => l
  | _ => drop (length l - k) l
  end.

(** [{doc["id"]: doc["score"] for doc in results}] *)
Definition scores_of (results : list Result) : gmap string Q :=
  foldl (fun m r => <[doc_id (r_doc r) := r_score r]> m) ∅ results.

Section KnowledgeBase.

(** The state of an [ACTKnowledgeBase] as far as one query reads it.
    The query text reaches the code only through the two external
    searches, so it is represented by their answers. *)

(** [self.metadata] *)
Variable metadata : list CorpusDocument.

(** [k ↦ (indices[0], distances[0])] of
    [self.faiss_index.search(query_embedding, k)]. *)
Variable faiss_search : nat -> list Z * list Q.

(** [self.bm25_index.get_scores(query_tokens)] *)
Variable bm25_scores : list Q.

(** The order in which a Python [set] of strings is iterated.  It
    depends on the hash values of the strings, which change from one
    process to the next. *)
Variable set_iter : gset string -> list string.

Definition query_semantic (top_k : nat) : option (list Result) :=
  let '(indices, distances) := faiss_search top_k in
  mapM (fun '(idx, dist) =>
          doc ← py_index metadata idx;
          Some (mkResult doc dist semantic None None))
       (zip indices distances).

Definition query_keyword (top_k : nat) : option (list Result) :=
  let top_indices := reverse (last_k top_k (argsort bm25_scores)) in
  mapM (fun idx =>
          doc ← metadata !! idx;
          score ← bm25_scores !! idx;
          Some (mkResult doc score keyword None None))
       top_indices.

(** [combined_scores[doc_id]] *)
Definition combined (alpha : Q) (semantic_norm keyword_norm : gmap string Q)
    (doc_id : string) : Q :=
  alpha * default 0 (semantic_norm !! doc_id)
  + (1 - alpha) * default 0 (keyword_norm !! doc_id).

(** [next((d for d in self.metadata if d["id"] == doc_id), None)] *)
Definition find_doc (id : string) : option CorpusDocument :=
  snd <$> list_find (fun d => doc_id d = id) metadata.

Definition query_hybrid (top_k : nat) (alpha : Q) : option (list Result) :=
  semantic_results ← query_semantic (length metadata);
  let semantic_scores := scores_of semantic_results in
  keyword_results ← query_keyword (length metadata);
  let keyword_scores := scores_of keyword_results in
  semantic_norm ← normalize semantic_scores;
  keyword_norm ← normalize keyword_scores;
  let all_doc_ids := dom semantic_norm ∪ dom keyword_norm in
  let score := combined alpha semantic_norm keyword_norm in
  let top_doc_ids := take top_k (sorted_desc score (set_iter all_doc_ids)) in
  Some (omap (fun id =>
                doc ← find_doc id;
                Some (mkResult doc (score id) hybrid
                        (Some (default 0 (semantic_norm !! id)))
                        (Some (default 0 (keyword_norm !! id)))))
             top_doc_ids).

(** [query]; the hybrid branch uses the default [alpha] of
    [query_hybrid].  An unknown [query_type] raises [ValueError]. *)
Definition query (query_type : string) (top_k : nat)
  : option (list Result) :=
  if decide (query_type = "semantic") then query_semantic top_k
  else if decide (query_type = "keyword") then query_keyword top_k
  else if decide (query_type = "hybrid") then query_hybrid top_k (1 # 2)
  else None.

End KnowledgeBase.

(** The ranking a result list shows: the ids in order. *)
Definition ranking (results : list Result) : list string :=
  (fun r => doc_id (r_doc r)) <$> results.

(** *** The exact vector index (external)

    The answer of the library's exact (flat, squared Euclidean) index to
    [search(query, k)], given for each stored vector its distance to the
    query: the [k] nearest labels in ascending order of distance with
    their distances; when fewer than [k] vectors are stored, the rows
    are filled up to length [k] with the label [-1] and the largest
    single-precision number.  This is the answer for [k >= 1]: the
    library rejects [k = 0] with an assertion error, which the function
    below does not show. *)

Definition FLT_MAX : Q := 340282346638528859811704183484516925440 # 1.

Definition flat_search (dists : list Q) (k : nat) : list Z * list Q :=
  let found := take k (argsort dists) in
  let pad := (k - length found)%nat in
  ((Z.of_nat <$> found) ++ replicate pad (-1)%Z,
   ((fun i => default 0 (dists !! i)) <$> found) ++ replicate pad FLT_MAX).

End Query.

(** ** Vocabulary of the statements and sample inputs *)

Module Samples.
Import PyStr Corpus Index Graph Query.

Inductive Marker := ID | Tags | Type_.

Definition marker_text (m : Marker) : string :=
  match m with
  | ID => ID_marker
  | Tags => Tags_marker
  | Type_ => Type_marker
  end.

(** The field of [m] holds the payload of [line]. *)
Definition field_holds (m : Marker) (st : Scan) (line : string) : Prop :=
  match m with
  | ID => s_doc_id st = Some (payload ID_marker line)
  | Tags => s_tags st = split_tags (payload Tags_marker line)
  | Type_ => s_doc_type st = Some (payload Type_marker line)
  end.

(** The field of [m] of a parsed document holds the payload of [line]. *)
Definition document_field_holds (m : Marker) (doc : CorpusDocument)
    (line : string) : Prop :=
  match m with
  | ID => doc_id doc = payload ID_marker line
  | Tags => tags doc = split_tags (payload Tags_marker line)
  | Type_ => doc_type doc = Some (payload Type_marker line)
  end.

(** A section in which each of the three markers occurs twice. *)
Definition twice_marked_section : string :=
  join newline_string
    ["Functor"; "**ID:** def-first-001"; "**Tags:** one"; "**Type:** law";
     "**ID:** def-second-002"; "**Tags:** two"; "**Type:** fix"; "body"].

(** A corpus of two files, each with one section, both sections under the
    same id. *)
Definition file_a : string * string :=
  ("a.md",
   join newline_string
     ["# File A"; "## First"; "**ID:** def-dup-001"; "**Tags:** one";
      "**Type:** definition"; "first body"]).

Definition file_b : string * string :=
  ("b.md",
   join newline_string
     ["# File B"; "## Second"; "**ID:** def-dup-001"; "**Tags:** two";
      "**Type:** law"; "second body"]).

Definition duplicated_corpus : list (string * string) := [file_a; file_b].

Definition first_seen : CorpusDocument :=
  mkDoc "def-dup-001" "First" ["one"] (Some "definition") "first body" "a.md".

Definition later_seen : CorpusDocument :=
  mkDoc "def-dup-001" "Second" ["two"] (Some "law") "second body" "b.md".

(** The corpus file of the docstring of [parse_markdown_corpus], under a
    file header. *)
Definition annotated_file : string * string :=
  ("corpus.md",
   join newline_string
     ["# Corpus"; "## Section Title"; "";
      "**ID:** def-category-001";
      "**Tags:** fundamental, category, structure";
      "**Type:** definition"; "";
      "Content goes here..."; "";
      "**Related:** def-functor-001, def-morphism-001"]).

Definition annotated_document : CorpusDocument :=
  mkDoc "def-category-001" "Section Title"
        ["fundamental"; "category"; "structure"] (Some "definition")
        "Content goes here..." "corpus.md".

(** All the edges of [es] have a type listed in [ts]. *)
Definition only_types (ts : list EdgeType) (es : list Edge) : Prop :=
  Forall (fun e => etype e ∈ ts) es.

(** [p] starts at none of the first [n] positions of [s]. *)
Fixpoint absent_before (p : string) (n : nat) (s : string) : bool :=
  match n, s with
  | S n', String _ s' => negb (startswith p s) && absent_before p n' s'
  | _, _ => true
  end.

(** An edge is dangling when one of its ends is not a node id. *)
Definition dangling (ns : gmap string Node) (e : Edge) : Prop :=
  ns !! src e = None \/ ns !! dst e = None.

(** A builder with one node and one edge to an id that is no node, and the
    same builder without the edge. *)
Definition law_node : Node := mkNode "law-assoc-001" (Some "law") [] [1%Q].

Definition dangling_edge : Edge :=
  mkEdge "law-assoc-001" "def-missing-001" relates_to.

Definition builder_with_dangling : KnowledgeGraphBuilder :=
  mkBuilder {[ "law-assoc-001" := law_node ]} [dangling_edge].

Definition builder_without_edges : KnowledgeGraphBuilder :=
  mkBuilder {[ "law-assoc-001" := law_node ]} [].

(** [x] stands in [l], and [y] stands in [l] behind it. *)
Definition comes_before {A} (x y : A) (l : list A) : Prop :=
  [x; y] `sublist_of` l.

(** Two ways a set of strings may be iterated: in ascending and in
    descending order of the strings. *)
Definition ascending_iter (s : gset string) : list string :=
  merge_sort String.le (elements s).

Definition descending_iter (s : gset string) : list string :=
  reverse (ascending_iter s).

(** A knowledge base of two documents. *)
Definition doc_a : CorpusDocument :=
  mkDoc "def-a-001" "A" [] (Some "definition") "alpha" "corpus.md".

Definition doc_b : CorpusDocument :=
  mkDoc "def-b-002" "B" [] (Some "definition") "beta" "corpus.md".

(** A hybrid query on it in which both documents are at the same distance
    and have the same keyword score. *)
Definition tie_query (set_iter : gset string -> list string)
  : option (list Result) :=
  query_hybrid [doc_a; doc_b] (flat_search [1; 1]%Q) [2; 2]%Q set_iter 2
    (1 # 2)%Q.

End Samples.

(** ** build_embeddings.py: the statistics of [save_embeddings] *)

Module Statistics.
Import PyStr Corpus.

(** [stats["documents_by_type"]] after the loop over the metadata: for
    every entry the count kept under its type is raised by one, starting
    from 0 for a type not seen before.  The type of an entry may be
    [None]. *)
Definition documents_by_type (metadata : list CorpusDocument)
  : gmap (option string) nat :=
  foldl (fun by_type doc =>
           <[doc_type doc := S (default 0%nat (by_type !! doc_type doc))]>
             by_type)
        ∅ metadata.

(** [stats.json]: the number of documents, the second dimension of the
    array of embeddings, and the counts by type.  (The size in bytes is a
    property of the array object and is left out.) *)
Record EmbeddingStats := mkEmbeddingStats {
  num_documents : nat;
  embedding_dim : Z;
  by_type : gmap (option string) nat
}.

(** The statistics [save_embeddings] writes for an array of shape
    [shape] and the metadata. *)
Definition save_embeddings_stats (shape : Z * Z)
    (metadata : list CorpusDocument) : EmbeddingStats :=
  mkEmbeddingStats (length metadata) shape.2 (documents_by_type metadata).

End Statistics.

(** ** query_rag.py: [query_hybrid] for any integer [top_k]

    [top_k] reaches [query_hybrid] unchecked from the command line
    ([--top-k], [:k]) and is used in the slice [[:top_k]] only; the two
    searches are asked for [len(self.metadata)] results.  With a negative
    [top_k] the slice drops that many ids from the end. *)

Module IntTopK.
Import PyStr Corpus Query.

(** [l[:k]] for an integer [k]. *)
Definition py_prefix {A} (k : Z) (l : list A) : list A :=
  if (0 <=? k)%Z then take (Z.to_nat k) l
  else take (length l - Z.to_nat (- k)) l.

Section KnowledgeBase.

Variable metadata : list CorpusDocument.
Variable faiss_search : nat -> list Z * list Q.
Variable bm25_scores : list Q.
Variable set_iter : gset string -> list string.

Definition query_hybrid (top_k : Z) (alpha : Q) : option (list Result) :=
  semantic_results ← query_semantic metadata faiss_search (length metadata);
  let semantic_scores := scores_of semantic_results in
  keyword_results ← query_keyword metadata bm25_scores (length metadata);
  let keyword_scores := scores_of keyword_results in
  semantic_norm ← normalize semantic_scores;
  keyword_norm ← normalize keyword_scores;
  let all_doc_ids := dom semantic_norm ∪ dom keyword_norm in
  let score := combined alpha semantic_norm keyword_norm in
  let top_doc_ids :=
    py_prefix top_k (sorted_desc score (set_iter all_doc_ids)) in
  Some (omap (fun id =>
                doc ← find_doc metadata id;
                Some (mkResult doc (score id) hybrid
                        (Some (default 0%Q (semantic_norm !! id)))
                        (Some (default 0%Q (keyword_norm !! id)))))
             top_doc_ids).

End KnowledgeBase.

End IntTopK.

(** ** query_rag.py: [normalize] on binary64 numbers

    The scores are Python floats.  Here they are the binary64 numbers of
    the machine, with their rounding, infinities and NaN; the mapping is
    the list of its items in the order of the [dict]. *)

Module Doubles.
Import PrimFloat.
#[local] Set Warnings "-inexact-float".

(** [min(values)]: the first value is kept until a later one is [<] it;
    an empty sequence raises [ValueError]. *)
Definition py_min (values : list float) : option float :=
  match values with
  | [] => None
  | v :: rest =>
      Some (foldl (fun m y => if PrimFloat.ltb y m then y else m) v rest)
  end.

(** [max(values)]: the first value is kept until a later one is [>] it. *)
Definition py_max (values : list float) : option float :=
  match values with
  | [] => None
  | v :: rest =>
      Some (foldl (fun m y => if PrimFloat.ltb m y then y else m) v rest)
  end.

(** [a / b]: a divisor equal to zero raises [ZeroDivisionError]. *)
Definition py_div (a b : float) : option float :=
  if PrimFloat.eqb b 0%float then None else Some (a / b)%float.

(** The local function [normalize] of [query_hybrid]. *)
Definition normalize (scores : list (string * float))
  : option (list (string * float)) :=
  let values := scores.*2 in
  min_val ← py_min values;
  max_val ← py_max values;
  if PrimFloat.eqb max_val min_val
  then Some ((fun kv => (kv.1, 0.5%float)) <$> scores)
  else mapM (fun kv =>
               q ← py_div (kv.2 - min_val)%float (max_val - min_val)%float;
               Some (kv.1, q))
            scores.


End Doubles.

(** ** Vocabulary of the further statements *)

Module Terms.
Import PyStr Corpus Index Graph Query.

(** All the characters of [s] satisfy [P]. *)
Fixpoint all_chars (P : ascii -> bool) (s : string) : bool :=
  match s with
  | EmptyString => true
  | String c s' => P c && all_chars P s'
  end.

(** [s] has no white space at either end. *)
Definition stripped (s : string) : Prop := strip s = s.

(** [line] starts with one of the four markers of the parser. *)
Definition is_marker_line (line : string) : bool :=
  startswith ID_marker line || startswith Tags_marker line
  || startswith Type_marker line || startswith Related_marker line.

(** The sum of the counts of a table of statistics. *)
Definition total {K} (table : list (K * nat)) : nat :=
  foldr (fun entry acc => (entry.2 + acc)%nat) 0%nat table.

(** The sum of the values of a map of counts. *)
Definition map_total `{Countable K} (m : gmap K nat) : nat :=
  map_fold (fun _ v acc => (v + acc)%nat) 0%nat m.

(** Both ends of [e] are node ids. *)
Definition resolvable (ns : gmap string Node) (e : Edge) : Prop :=
  is_Some (ns !! src e) /\ is_Some (ns !! dst e).

Global Instance resolvable_dec ns e : Decision (resolvable ns e).
Proof. unfold resolvable. apply _. Defined.

End Terms.

(** ** Further sample inputs *)

Module MoreSamples.
Import PyStr Corpus Index Graph Query.

(** Three documents: a violation that names a fix, a law and an id that
    is no document; the law; and the fix. *)
Definition violation_doc : CorpusDocument :=
  mkDoc "violation-swap-001" "Swapped composition" ["order"]
        (Some "violation")
        "Breaks law-assoc-001; see fix-swap-001 and fix-other-009."
        "corpus.md".

Definition law_doc : CorpusDocument :=
  mkDoc "law-assoc-001" "Associativity" [] (Some "law")
        "Composition is associative." "corpus.md".

Definition fix_doc : CorpusDocument :=
  mkDoc "fix-swap-001" "Restore the order" [] (Some "fix")
        "Compose in the stated order." "corpus.md".

Definition small_metadata : list CorpusDocument :=
  [violation_doc; law_doc; fix_doc].

Definition small_embeddings : list (list Q) :=
  [[1; 0]%Q; [0; 1]%Q; [1; 1]%Q].

(** The builder after [parse_corpus] on them. *)
Definition small_builder : KnowledgeGraphBuilder :=
  default builder_init
    (parse_corpus builder_init small_embeddings small_metadata).

(** A second corpus, embedded in three dimensions. *)
Definition wide_doc : CorpusDocument :=
  mkDoc "law-wide-002" "Identity" [] (Some "law")
        "Composition has identities." "more.md".

(** The builder after two calls of [parse_corpus], the second with
    embeddings of another dimension. *)
Definition ragged_builder : KnowledgeGraphBuilder :=
  default builder_init
    (b ← parse_corpus builder_init [[0; 1]%Q] [law_doc];
     parse_corpus b [[1; 0; 0]%Q] [wide_doc]).

(** A content in which the Related marker stands inside a line, with a
    trailing comma after the one id. *)
Definition inline_related : string :=
  "See **Related:**  def-functor-001 , " +:+ newline_string +:+ "The end.".

End MoreSamples.

(** * Properties *)

Import PyStr Corpus Index Graph Query Samples.

(** *** Properties of the section scan *)

Lemma startswith_app p r : startswith p (p +:+ r) = true.
Proof.
  unfold startswith. induction p as [|a p IH]; simpl.
  - by destruct r.
  - destruct (ascii_dec a a); [apply IH | congruence].
Qed.

Lemma startswith_inv p s :
  startswith p s = true -> exists r, s = p +:+ r.
Proof.
  unfold startswith. revert s.
  induction p as [|a p IH]; intros s H; simpl in *.
  - by exists s.
  - destruct s as [|b s]; simpl in H; [done|].
    destruct (ascii_dec a b) as [->|]; [|done].
    destruct (IH _ H) as [r ->]. by exists r.
Qed.

Lemma Tags_not_ID line :
  startswith Tags_marker line = true -> startswith ID_marker line = false.
Proof. intros [r ->]%startswith_inv. reflexivity. Qed.

Lemma Type_not_ID line :
  startswith Type_marker line = true -> startswith ID_marker line = false.
Proof. intros [r ->]%startswith_inv. reflexivity. Qed.

Lemma Type_not_Tags line :
  startswith Type_marker line = true -> startswith Tags_marker line = false.
Proof. intros [r ->]%startswith_inv. reflexivity. Qed.

(** A line that does not carry a marker leaves the marker's field as it
    is. *)
Lemma scan_line_keeps_id st line :
  startswith ID_marker line = false ->
  s_doc_id (scan_line st line) = s_doc_id st.
Proof.
  intros H. unfold scan_line. rewrite H.
  by repeat case_match.
Qed.

Lemma scan_line_keeps_tags st line :
  startswith Tags_marker line = false ->
  s_tags (scan_line st line) = s_tags st.
Proof.
  intros H. unfold scan_line. rewrite H.
  by repeat case_match.
Qed.

Lemma scan_line_keeps_type st line :
  startswith Type_marker line = false ->
  s_doc_type (scan_line st line) = s_doc_type st.
Proof.
  intros H. unfold scan_line. rewrite H.
  by repeat case_match.
Qed.

Lemma foldl_keeps {A} (f : Scan -> A) (P : string -> bool) lines :
  (forall st line, P line = false -> f (scan_line st line) = f st) ->
  Forall (fun l => P l = false) lines ->
  forall st, f (foldl scan_line st lines) = f st.
Proof.
  intros Hstep Hall. induction Hall as [|l ls Hl _ IH]; intros st; simpl.
  - done.
  - by rewrite IH, Hstep.
Qed.

(** *** Marker lines: the last occurrence of a marker sets the field *)

Lemma scan_line_sets (m : Marker) st line :
  startswith (marker_text m) line = true ->
  field_holds m (scan_line st line) line.
Proof.
  intros H. destruct m; simpl in *; unfold scan_line.
  - by rewrite H.
  - by rewrite (Tags_not_ID _ H), H.
  - by rewrite (Type_not_ID _ H), (Type_not_Tags _ H), H.
Qed.

Lemma scan_keeps (m : Marker) lines st line :
  Forall (fun l => startswith (marker_text m) l = false) lines ->
  field_holds m st line ->
  field_holds m (foldl scan_line st lines) line.
Proof.
  intros Hall. destruct m; simpl in *; intros <-.
  - apply (foldl_keeps s_doc_id _ _ scan_line_keeps_id Hall).
  - apply (foldl_keeps s_tags _ _ scan_line_keeps_tags Hall).
  - apply (foldl_keeps s_doc_type _ _ scan_line_keeps_type Hall).
Qed.

Lemma scan_last_occurrence
    (m : Marker) (pre post : list string) (line : string) :
  startswith (marker_text m) line = true ->
  Forall (fun l => startswith (marker_text m) l = false) post ->
  field_holds m (scan_lines (pre ++ line :: post)) line.
Proof.
  intros Hline Hpost. unfold scan_lines.
  rewrite foldl_app. simpl.
  apply scan_keeps; [done|]. by apply scan_line_sets.
Qed.

(** C6 (as the code has it).  In every section that yields a document,
    each line that starts with one of the markers ID, Tags, Type assigns
    the corresponding field again: the field of the document holds the
    payload of the LAST line of the section that carries the marker,
    whatever lines came before it; earlier marker lines are overwritten,
    and no marker line is an error. *)
Theorem marker_last_occurrence_wins
    (m : Marker) (file_name section : string) (doc : CorpusDocument)
    (pre post : list string) (line : string) :
  parse_section file_name section = Some doc ->
  tail (split newline_string section) = pre ++ line :: post ->
  startswith (marker_text m) line = true ->
  Forall (fun l => startswith (marker_text m) l = false) post ->
  document_field_holds m doc line.
Proof.
  unfold parse_section.
  destruct (split newline_string section) as [|first rest]; [done|].
  simpl. intros Hdoc -> Hline Hpost.
  pose proof (scan_last_occurrence m pre post line Hline Hpost) as Hscan.
  destruct (truthy _); [|done]. injection Hdoc as <-.
  destruct m; simpl in *; by rewrite ?Hscan.
Qed.

Lemma marker_last_occurrence_wins_witness :
  document_field_holds ID
    (mkDoc "def-second-002" "Functor" ["two"] (Some "fix") "body" "corpus.md")
    "**ID:** def-second-002".
Proof.
  apply (marker_last_occurrence_wins ID "corpus.md" twice_marked_section _
           ["**ID:** def-first-001"; "**Tags:** one"; "**Type:** law"]
           ["**Tags:** two"; "**Type:** fix"; "body"]
           "**ID:** def-second-002").
  - reflexivity.
  - reflexivity.
  - reflexivity.
  - repeat constructor.
Defined.

(** C6 (as the spec states it) fails: with two ID, two Tags and two Type
    lines in one section, the document carries the values of the second
    lines, not of the first ones. *)
Lemma first_occurrence_does_not_win :
  exists doc,
    parse_section "corpus.md" twice_marked_section = Some doc
    /\ doc_id doc = "def-second-002" /\ doc_id doc <> "def-first-001"
    /\ tags doc = ["two"] /\ tags doc <> ["one"]
    /\ doc_type doc = Some "fix" /\ doc_type doc <> Some "law".
Proof. eexists. split; [reflexivity|]. by repeat split. Qed.

(** *** Documents that share an id *)

Lemma parse_corpus_unfold b embeddings metadata b' :
  parse_corpus b embeddings metadata = Some b' ->
  exists lookup, b' = foldl (add_document lookup) b metadata.
Proof.
  unfold parse_corpus. intros H.
  destruct (embedding_lookup embeddings metadata ∅) as [lookup|]; [|done].
  exists lookup. by simplify_eq/=.
Qed.

Lemma add_document_other lookup (b : KnowledgeGraphBuilder) (doc : CorpusDocument) id :
  doc_id doc <> id ->
  nodes (add_document lookup b doc) !! id = nodes b !! id.
Proof. intros Hne. unfold add_document; simpl. by rewrite lookup_insert_ne. Qed.

Lemma add_documents_other lookup docs (b : KnowledgeGraphBuilder) id :
  Forall (fun d => doc_id d <> id) docs ->
  nodes (foldl (add_document lookup) b docs) !! id = nodes b !! id.
Proof.
  intros Hall. revert b.
  induction Hall as [|d ds Hd _ IH]; intros b; simpl; [done|].
  by rewrite IH, add_document_other.
Qed.

(** The node kept for an id is the one of the last document with that
    id. *)
Lemma add_documents_last lookup pre d post (b : KnowledgeGraphBuilder) :
  Forall (fun d' => doc_id d' <> doc_id d) post ->
  exists e,
    nodes (foldl (add_document lookup) b (pre ++ d :: post)) !! doc_id d
    = Some (mkNode (doc_id d) (doc_type d) (tags d) e).
Proof.
  intros Hpost. rewrite foldl_app. simpl.
  rewrite add_documents_other by done.
  unfold add_document at 1; simpl. rewrite lookup_insert_eq. eauto.
Qed.

(** Every document adds its edges to the list; none is taken away. *)
Lemma add_documents_edges lookup docs (b : KnowledgeGraphBuilder) :
  edges (foldl (add_document lookup) b docs)
  = edges b
    ++ (docs ≫= fun d =>
          extract_relationships (doc_id d) (content d) (source_file d)).
Proof.
  revert b. induction docs as [|d ds IH]; intros b; simpl.
  - by rewrite app_nil_r.
  - rewrite IH. simpl. by rewrite <- app_assoc.
Qed.

(** C2 (as the code has it).  When the same doc_id occurs in a section of
    one source file and in a section of a later one, the build gives no
    warning: the parser prints one "Parsing <file>..." line per file and
    nothing else.  Both occurrences are kept, in parse order, in the
    parsed documents, hence the metadata, the keyword corpus and the
    vector index hold one entry per occurrence.  In the knowledge graph
    the node stored under an id is the one of the last document with that
    id. *)
Theorem duplicate_ids_are_all_kept
    (files1 files2 files3 : list (string * string)) (f1 f2 : string * string)
    (d1 d2 : CorpusDocument) :
  d1 ∈ parse_file f1 -> d2 ∈ parse_file f2 -> doc_id d1 = doc_id d2 ->
  let files := files1 ++ f1 :: files2 ++ f2 :: files3 in
  let documents := (parse_markdown_corpus files).1 in
  (parse_markdown_corpus files).2 = parsing_line <$> files
  /\ (exists l1 l2 l3, documents = l1 ++ d1 :: l2 ++ d2 :: l3)
  /\ length (metadata_of documents) = length documents
  /\ length (build_bm25_index (metadata_of documents)) = length documents
  /\ (forall embedding_dim index_type index,
        build_faiss_index (Z.of_nat (length documents), embedding_dim)
          index_type = Some index ->
        ntotal index = Z.of_nat (length documents))
  /\ (forall b embeddings b' pre d post,
        parse_corpus b embeddings (metadata_of documents) = Some b' ->
        documents = pre ++ d :: post ->
        Forall (fun d' => doc_id d' <> doc_id d) post ->
        exists e,
          nodes b' !! doc_id d
          = Some (mkNode (doc_id d) (doc_type d) (tags d) e)).
Proof.
  intros H1 H2 _ files documents.
  split; [done|]. split; [|split; [|split; [|split]]].
  - apply list_elem_of_split in H1 as (a1 & b1 & E1).
    apply list_elem_of_split in H2 as (a2 & b2 & E2).
    exists ((files1 ≫= parse_file) ++ a1),
           (b1 ++ (files2 ≫= parse_file) ++ a2),
           (b2 ++ (files3 ≫= parse_file)).
    subst documents files. unfold parse_markdown_corpus. simpl.
    rewrite bind_app, bind_cons, bind_app, bind_cons, E1, E2.
    by repeat (rewrite <- ?app_assoc; simpl).
  - unfold metadata_of. by rewrite length_fmap.
  - unfold build_bm25_index, metadata_of. by rewrite !length_fmap.
  - intros embedding_dim index_type index. unfold build_faiss_index.
    repeat case_decide; intros; by simplify_eq/=.
  - intros b embeddings b' pre d post Hb Hdocs Hpost.
    apply parse_corpus_unfold in Hb as [lookup ->].
    unfold metadata_of, to_dict. rewrite list_fmap_id, Hdocs.
    by apply add_documents_last.
Qed.

Lemma duplicate_ids_are_all_kept_witness :
  exists l1 l2 l3,
    (parse_markdown_corpus duplicated_corpus).1
    = l1 ++ first_seen :: l2 ++ later_seen :: l3.
Proof.
  assert (H1 : first_seen ∈ parse_file file_a)
    by (vm_compute; apply list_elem_of_here).
  assert (H2 : later_seen ∈ parse_file file_b)
    by (vm_compute; apply list_elem_of_here).
  assert (H3 : doc_id first_seen = doc_id later_seen) by reflexivity.
  exact (proj1 (proj2
    (duplicate_ids_are_all_kept [] [] [] file_a file_b
       first_seen later_seen H1 H2 H3))).
Defined.

(** C2 (as the spec states it) fails: on a corpus of two files that use
    the same id, nothing but the two "Parsing" lines is printed, the parsed
    documents hold both occurrences (not one copy), and the node of the
    knowledge graph is built from the later occurrence, not from the one
    seen first. *)
Lemma duplicate_id_not_flagged :
  parse_markdown_corpus duplicated_corpus
  = ([first_seen; later_seen], ["Parsing a.md..."; "Parsing b.md..."])
  /\ doc_id first_seen = doc_id later_seen
  /\ length (build_bm25_index (metadata_of [first_seen; later_seen])) = 2%nat
  /\ (nodes <$> parse_corpus builder_init [[1%Q]; [2%Q]]
                  (metadata_of [first_seen; later_seen]))
     = Some {[ "def-dup-001" :=
                 mkNode "def-dup-001" (Some "law") ["two"] [2%Q] ]}.
Proof. by vm_compute. Qed.

(** *** The "Related" annotation *)

(** The lines kept as content are scanned lines, and none of them starts
    with the Related marker. *)
Lemma scan_line_content (P : string -> Prop) st line :
  P line ->
  Forall (fun l => P l /\ startswith Related_marker l = false)
         (s_content_lines st) ->
  Forall (fun l => P l /\ startswith Related_marker l = false)
         (s_content_lines (scan_line st line)).
Proof.
  intros Hline H. unfold scan_line.
  destruct (startswith ID_marker line); [done|].
  destruct (startswith Tags_marker line); [done|].
  destruct (startswith Type_marker line); [done|].
  destruct (startswith Related_marker line) eqn:E; [done|]. simpl.
  case_match; [|done].
  apply Forall_app. split; [done|]. by constructor.
Qed.

Lemma scan_content_lines (P : string -> Prop) lines :
  Forall P lines ->
  Forall (fun l => P l /\ startswith Related_marker l = false)
         (s_content_lines (scan_lines lines)).
Proof.
  unfold scan_lines. intros Hlines.
  assert (G : forall st,
             Forall (fun l => P l /\ startswith Related_marker l = false)
                    (s_content_lines st) ->
             Forall (fun l => P l /\ startswith Related_marker l = false)
                    (s_content_lines (foldl scan_line st lines))).
  { induction Hlines as [|l ls Hl _ IH]; intros st H; simpl; [done|].
    apply IH. by apply scan_line_content. }
  apply G. constructor.
Qed.

(** C3 (what the code does at the failing input).  The corpus file of the
    parser's own docstring ends with the annotation line
    "**Related:** def-functor-001, def-morphism-001".  The parser drops
    that line, the content stored in the metadata is "Content goes
    here...", and the graph builder, which searches that content, adds no
    edge at all: neither of the two relates_to edges is built. *)
Theorem related_annotation_yields_no_edge :
  parse_file annotated_file = [annotated_document]
  /\ extract_relationships (doc_id annotated_document)
       (content annotated_document) (source_file annotated_document) = []
  /\ (edges <$> parse_corpus builder_init [[1%Q]]
                  (metadata_of (parse_file annotated_file)))
     = Some [].
Proof. by vm_compute. Qed.

(** *** Substring tests *)

Lemma app_cons a s t : String a s +:+ t = String a (s +:+ t).
Proof. reflexivity. Qed.

Lemma app_empty_l s : "" +:+ s = s.
Proof. reflexivity. Qed.

Lemma contains_prefix sub s :
  startswith sub s = true -> contains sub s = true.
Proof.
  unfold startswith. intros H. destruct s as [|c s]; [exact H|].
  change (String.prefix sub (String c s) || contains sub s = true).
  by rewrite H.
Qed.

(** [sub in s] holds exactly when [sub] occurs somewhere in [s]. *)
Lemma contains_spec sub s :
  contains sub s = true <-> exists pre post, s = pre +:+ sub +:+ post.
Proof.
  split.
  - induction s as [|c s IH]; cbn [contains]; intros H.
    + apply startswith_inv in H as [r Hr]. by exists "", r.
    + apply orb_true_iff in H as [H|H].
      * apply startswith_inv in H as [r Hr]. by exists "", r.
      * destruct (IH H) as (pre & post & ->). by exists (String c pre), post.
  - intros (pre & post & ->).
    induction pre as [|c pre IH].
    + rewrite app_empty_l. apply contains_prefix, startswith_app.
    + rewrite app_cons. cbn [contains]. rewrite IH. apply orb_true_r.
Qed.

(** *** Matches of an id pattern *)

Lemma findall_go_skip p n s :
  findall_go p n s = findall_go p 0 (drop_chars n s).
Proof.
  revert s. induction n as [|n IH]; intros s.
  - by destruct s.
  - destruct s as [|c s]; [done|]. simpl. apply IH.
Qed.

Lemma startswith_nonempty p s :
  p <> "" -> startswith p s = true -> exists c s', s = String c s'.
Proof.
  intros Hp H. destruct s as [|c s']; [|eauto].
  destruct p; [done|]. by simpl in H.
Qed.

(** The leftmost place where the prefix is followed by a character of
    [[\w-]] gives the first match, whatever stands before it: the match is
    the prefix with the longest run of such characters, and the search
    goes on behind it. *)
Lemma findall_leftmost p n s :
  p <> "" ->
  absent_before p n s = true ->
  startswith p (drop_chars n s) = true ->
  take_while is_slug_char (drop_chars (n + String.length p) s) <> "" ->
  findall p s
  = (p +:+ take_while is_slug_char (drop_chars (n + String.length p) s))
      :: findall p
           (drop_chars
              (n + String.length p
               + String.length
                   (take_while is_slug_char
                      (drop_chars (n + String.length p) s))) s).
Proof.
  intros Hp. unfold findall. revert s.
  induction n as [|n IH]; intros s Habs Hstart Hrun.
  - assert (Hs : drop_chars 0 s = s) by (by destruct s).
    rewrite Hs in Hstart.
    destruct (startswith_nonempty _ _ Hp Hstart) as (c & s' & ->).
    cbn [Nat.add] in Hrun |- *. cbn [findall_go]. rewrite Hstart.
    destruct (take_while is_slug_char
                (drop_chars (String.length p) (String c s'))) as [|a r] eqn:E;
      [done|].
    f_equal. rewrite findall_go_skip. f_equal.
    destruct p as [|b p]; [done|].
    cbn [String.length Nat.add drop_chars]. f_equal. lia.
  - destruct s as [|c s'].
    { cbn [drop_chars] in Hstart. destruct p; [done|]. by simpl in Hstart. }
    cbn [absent_before] in Habs. apply andb_true_iff in Habs as [Hno Habs].
    apply negb_true_iff in Hno.
    cbn [Nat.add drop_chars] in Hstart, Hrun |- *.
    cbn [findall_go]. rewrite Hno.
    by apply IH.
Qed.

(** Every match is the prefix followed by a non-empty run of characters of
    [[\w-]]. *)
Lemma findall_go_sound p s : forall n m,
  m ∈ findall_go p n s ->
  exists run, m = p +:+ run /\ run <> ""
              /\ take_while is_slug_char run = run.
Proof.
  assert (Hidem : forall t,
    take_while is_slug_char (take_while is_slug_char t)
    = take_while is_slug_char t).
  { induction t as [|a t IHt]; simpl; [done|].
    destruct (is_slug_char a) eqn:E; simpl; [|done]. by rewrite E, IHt. }
  induction s as [|c s IH]; intros n m; cbn [findall_go].
  - by intros ?%elem_of_nil.
  - destruct n as [|n]; [|apply IH].
    destruct (startswith p (String c s)); [|apply IH].
    destruct (take_while is_slug_char
                (drop_chars (String.length p) (String c s))) as [|a r] eqn:E;
      [apply IH|].
    intros [->|Hm]%elem_of_cons; [|by eapply IH].
    exists (String a r). split; [done|]. split; [done|].
    rewrite <- E. apply Hidem.
Qed.

(** *** The role of a document *)

Lemma filter_etype_same (t : EdgeType) {A} (mk : A -> Edge) (l : list A) :
  (forall a, etype (mk a) = t) ->
  filter (fun e => etype e = t) (mk <$> l) = mk <$> l.
Proof.
  intros H. induction l as [|a l IH]; [done|].
  rewrite fmap_cons, filter_cons_True by apply H. by rewrite IH.
Qed.

Lemma filter_etype_other (t t' : EdgeType) {A} (mk : A -> Edge) (l : list A) :
  t' <> t ->
  (forall a, etype (mk a) = t') ->
  filter (fun e => etype e = t) (mk <$> l) = [].
Proof.
  intros Hne H. induction l as [|a l IH]; [done|].
  rewrite fmap_cons, filter_cons_False; [done|]. rewrite H. done.
Qed.

Lemma only_types_fmap (ts : list EdgeType) t {A} (mk : A -> Edge) (l : list A) :
  t ∈ ts -> (forall a, etype (mk a) = t) -> only_types ts (mk <$> l).
Proof.
  intros Ht H. apply Forall_fmap, Forall_forall. intros a _. simpl.
  by rewrite H.
Qed.

Lemma only_types_app ts es1 es2 :
  only_types ts es1 -> only_types ts es2 -> only_types ts (es1 ++ es2).
Proof. intros. by apply Forall_app. Qed.

(** Membership in an explicit list. *)
Ltac in_list :=
  repeat first [apply list_elem_of_here | apply list_elem_of_further].

(** The edges of a document are the edges of its "Related" match, all of
    type relates_to, followed by the edges of one role branch. *)
Lemma extract_relationships_shape node_id content source_file :
  exists related,
    only_types [relates_to] related
    /\ extract_relationships node_id content source_file
       = related ++
         (if contains "violation-" node_id then
            ((fun fix_id => mkEdge node_id fix_id fixes)
               <$> findall "fix-" content)
            ++ ((fun law_id => mkEdge node_id law_id violates)
                  <$> findall "law-" content)
          else if contains "pattern-" node_id then
            ((fun def_id => mkEdge def_id node_id defines)
               <$> findall "def-" content)
            ++ ((fun example_id => mkEdge node_id example_id implements)
                  <$> findall "example-" content)
          else if contains "test-" node_id then
            (fun pattern_id => mkEdge node_id pattern_id verifies)
              <$> findall "pattern-" content
          else []).
Proof.
  unfold extract_relationships.
  eexists. split; [|reflexivity].
  destruct (search_related content) as [related_str|]; [|constructor].
  apply (only_types_fmap _ relates_to); [in_list|done].
Qed.

Lemma only_types_weaken ts ts' es :
  ts ⊆ ts' -> only_types ts es -> only_types ts' es.
Proof.
  intros Hsub H. eapply Forall_impl; [exact H|]. intros e He. by apply Hsub.
Qed.

Lemma filter_related_nil t related :
  t <> relates_to -> only_types [relates_to] related ->
  filter (fun e => etype e = t) related = [].
Proof.
  intros Hne H. induction H as [|e es He _ IH]; [done|].
  rewrite filter_cons_False; [done|].
  apply list_elem_of_singleton in He. congruence.
Qed.

(** C10.  [_extract_relationships] picks the role of a document by
    substring tests on its id ("violation-", then "pattern-", then
    "test-"), and only the first test that succeeds selects a branch:
    - the test [sub in s] holds exactly when [sub] occurs somewhere in
      [s], not only at its start;
    - an id containing "violation-" gives, besides relates_to edges, only
      fixes and violates edges: one fixes edge per match of fix-[\w-]+ and
      one violates edge per match of law-[\w-]+, from the document;
    - otherwise an id containing "pattern-" gives only defines edges (from
      each match of def-[\w-]+ to the document) and implements edges (to
      each match of example-[\w-]+);
    - otherwise an id containing "test-" gives only verifies edges, to
      each match of pattern-[\w-]+;
    - an id containing none of the three gives relates_to edges only;
    - a pattern is matched wherever it first occurs in the content,
      whatever precedes it (so also inside a longer hyphenated token), and
      the match runs over the longest stretch of [\w-] characters;
    - every match is the prefix followed by at least one such character. *)
Theorem role_by_substring_in_priority_order
    (node_id content source_file : string) :
  let es := extract_relationships node_id content source_file in
  let of_type t := filter (fun e => etype e = t) es in
  (forall sub s,
     contains sub s = true <-> exists pre post, s = pre +:+ sub +:+ post)
  /\ (contains "violation-" node_id = true ->
      only_types [relates_to; fixes; violates] es
      /\ of_type fixes
         = (fun id => mkEdge node_id id fixes) <$> findall "fix-" content
      /\ of_type violates
         = (fun id => mkEdge node_id id violates) <$> findall "law-" content)
  /\ (contains "violation-" node_id = false ->
      contains "pattern-" node_id = true ->
      only_types [relates_to; defines; implements] es
      /\ of_type defines
         = (fun id => mkEdge id node_id defines) <$> findall "def-" content
      /\ of_type implements
         = (fun id => mkEdge node_id id implements)
             <$> findall "example-" content)
  /\ (contains "violation-" node_id = false ->
      contains "pattern-" node_id = false ->
      contains "test-" node_id = true ->
      only_types [relates_to; verifies] es
      /\ of_type verifies
         = (fun id => mkEdge node_id id verifies)
             <$> findall "pattern-" content)
  /\ (contains "violation-" node_id = false ->
      contains "pattern-" node_id = false ->
      contains "test-" node_id = false ->
      only_types [relates_to] es)
  /\ (forall p n,
        p <> "" ->
        absent_before p n content = true ->
        startswith p (drop_chars n content) = true ->
        take_while is_slug_char (drop_chars (n + String.length p) content)
          <> "" ->
        findall p content
        = (p +:+ take_while is_slug_char
                   (drop_chars (n + String.length p) content))
            :: findall p
                 (drop_chars
                    (n + String.length p
                     + String.length
                         (take_while is_slug_char
                            (drop_chars (n + String.length p) content)))
                    content))
  /\ (forall p m,
        m ∈ findall p content ->
        exists run, m = p +:+ run /\ run <> ""
                    /\ take_while is_slug_char run = run).
Proof.
  intros es of_type.
  destruct (extract_relationships_shape node_id content source_file)
    as (related & Hrel & Hes).
  fold es in Hes.
  split; [apply contains_spec|].
  split; [|split; [|split; [|split; [|split]]]].
  - intros Hv. rewrite Hv in Hes. subst of_type. rewrite Hes.
    split; [|split].
    + apply only_types_app; [|apply only_types_app].
      * eapply only_types_weaken; [|exact Hrel].
        intros t ->%list_elem_of_singleton. in_list.
      * apply (only_types_fmap _ fixes); [in_list|done].
      * apply (only_types_fmap _ violates); [in_list|done].
    + rewrite !filter_app, (filter_related_nil fixes) by done.
      rewrite (filter_etype_same fixes) by done.
      rewrite (filter_etype_other fixes violates) by done.
      by rewrite app_nil_r.
    + rewrite !filter_app, (filter_related_nil violates) by done.
      rewrite (filter_etype_other violates fixes) by done.
      by rewrite (filter_etype_same violates) by done.
  - intros Hv Hp. rewrite Hv, Hp in Hes. subst of_type. rewrite Hes.
    split; [|split].
    + apply only_types_app; [|apply only_types_app].
      * eapply only_types_weaken; [|exact Hrel].
        intros t ->%list_elem_of_singleton. in_list.
      * apply (only_types_fmap _ defines); [in_list|done].
      * apply (only_types_fmap _ implements); [in_list|done].
    + rewrite !filter_app, (filter_related_nil defines) by done.
      rewrite (filter_etype_same defines) by done.
      rewrite (filter_etype_other defines implements) by done.
      by rewrite app_nil_r.
    + rewrite !filter_app, (filter_related_nil implements) by done.
      rewrite (filter_etype_other implements defines) by done.
      by rewrite (filter_etype_same implements) by done.
  - intros Hv Hp Ht. rewrite Hv, Hp, Ht in Hes. subst of_type. rewrite Hes.
    split.
    + apply only_types_app.
      * eapply only_types_weaken; [|exact Hrel].
        intros t ->%list_elem_of_singleton. in_list.
      * apply (only_types_fmap _ verifies); [in_list|done].
    + rewrite filter_app, (filter_related_nil verifies) by done.
      by rewrite (filter_etype_same verifies) by done.
  - intros Hv Hp Ht. rewrite Hv, Hp, Ht, app_nil_r in Hes. by rewrite Hes.
  - intros p n. apply findall_leftmost.
  - intros p m. apply findall_go_sound.
Qed.

Lemma role_by_substring_in_priority_order_witness :
  only_types [relates_to; fixes; violates]
    (extract_relationships "anti-violation-001"
       "see my-fix-swap-001 and law-assoc-001" "c.md")
  /\ only_types [relates_to]
       (extract_relationships "def-functor-001" "see pattern-compose-001"
          "c.md")
  /\ findall "pattern-" "see anti-pattern-compose-001 now"
     = "pattern-compose-001" :: findall "pattern-" " now".
Proof.
  split; [|split].
  - apply (role_by_substring_in_priority_order "anti-violation-001"
             "see my-fix-swap-001 and law-assoc-001" "c.md").
    reflexivity.
  - apply (role_by_substring_in_priority_order "def-functor-001"
             "see pattern-compose-001" "c.md"); reflexivity.
  - apply (proj1 (proj2 (proj2 (proj2 (proj2 (proj2
             (role_by_substring_in_priority_order ""
                "see anti-pattern-compose-001 now" ""))))))
             "pattern-" 9%nat).
    + discriminate.
    + reflexivity.
    + reflexivity.
    + vm_compute. discriminate.
Defined.

(** *** The "Related" annotation, for every section *)

Lemma string_app_assoc (a b c : string) : (a +:+ b) +:+ c = a +:+ b +:+ c.
Proof. induction a as [|x a IH]; [done|]. by rewrite !app_cons, IH. Qed.

Lemma startswith_empty s : startswith "" s = true.
Proof. by destruct s. Qed.

(** A string in which [c] does not occur and that starts [x], [c], [y],
    starts [x]. *)
Lemma startswith_app_sep m x c y :
  contains (String c "") m = false ->
  startswith m (x +:+ String c y) = true -> startswith m x = true.
Proof.
  unfold startswith. revert x. induction m as [|a m IH]; intros x Hc H.
  - apply startswith_empty.
  - cbn [contains] in Hc. apply orb_false_iff in Hc as [Ha Hm].
    assert (Hne : c <> a).
    { intros ->. simpl in Ha. destruct (ascii_dec a a); [|done].
      by destruct m. }
    destruct x as [|b x].
    + rewrite app_empty_l in H. simpl in H.
      destruct (ascii_dec a c); [by subst|done].
    + rewrite app_cons in H. simpl in H |- *.
      destruct (ascii_dec a b); [|done]. by apply IH.
Qed.

Lemma contains_cons m c s : contains m s = true -> contains m (String c s) = true.
Proof. intros H. cbn [contains]. rewrite H. apply orb_true_r. Qed.

Lemma contains_app_sep m x c y :
  contains (String c "") m = false ->
  contains m (x +:+ String c y) = true ->
  contains m x = true \/ contains m y = true.
Proof.
  intros Hc. induction x as [|b x IH]; intros H.
  - rewrite app_empty_l in H. cbn [contains] in H.
    apply orb_true_iff in H as [H|H]; [|by right].
    left. apply contains_prefix.
    by apply (startswith_app_sep m "" c y).
  - rewrite app_cons in H. cbn [contains] in H.
    apply orb_true_iff in H as [H|H].
    + left. apply contains_prefix.
      apply (startswith_app_sep m (String b x) c y); [done|].
      by rewrite app_cons.
    + destruct (IH H) as [Hx|Hy]; [left; by apply contains_cons|by right].
Qed.

(** A non-empty string without a newline that occurs in the joined lines
    occurs in one of the lines. *)
Lemma contains_join m lines :
  m <> "" -> contains newline_string m = false ->
  contains m (join newline_string lines) = true ->
  exists l, l ∈ lines /\ contains m l = true.
Proof.
  intros Hm Hnl. unfold join.
  induction lines as [|l lines IH]; intros H.
  - simpl in H. destruct m; [done|]. by simpl in H.
  - destruct lines as [|l2 lines].
    + exists l. split; [apply list_elem_of_here|done].
    + change (String.concat newline_string (l :: l2 :: lines))
        with (l +:+ String newline (String.concat newline_string (l2 :: lines)))
        in H.
      apply contains_app_sep in H as [H|H]; [| |done].
      * exists l. split; [apply list_elem_of_here|done].
      * destruct (IH H) as (l' & Hin & Hl').
        exists l'. split; [by apply list_elem_of_further|done].
Qed.

Lemma lstrip_suffix s : exists a, s = a +:+ lstrip s.
Proof.
  induction s as [|c s [a IH]]; [by exists ""|]. simpl.
  destruct (is_space c); [|by exists ""].
  exists (String c a). by rewrite app_cons, <- IH.
Qed.

Lemma rstrip_prefix s : exists b, s = rstrip s +:+ b.
Proof.
  induction s as [|c s [b IH]]; [by exists ""|]. simpl.
  destruct (rstrip s) as [|d r].
  - rewrite app_empty_l in IH. subst b.
    destruct (is_space c); [by exists (String c s)|by exists s].
  - exists b. by rewrite app_cons, <- IH.
Qed.

Lemma contains_strip m s : contains m (strip s) = true -> contains m s = true.
Proof.
  intros (pre & post & H)%contains_spec. apply contains_spec.
  destruct (lstrip_suffix s) as [a Ha].
  destruct (rstrip_prefix (lstrip s)) as [b Hb].
  unfold strip in H. rewrite H in Hb. rewrite Hb in Ha.
  exists (a +:+ pre), (post +:+ b).
  by rewrite Ha, !string_app_assoc.
Qed.

Lemma search_related_contains s g :
  search_related s = Some g -> contains Related_marker s = true.
Proof.
  induction s as [|c s IH]; [done|]. cbn [search_related].
  destruct (startswith Related_marker (String c s)) eqn:E.
  - intros _. by apply contains_prefix.
  - intros H. by apply contains_cons, IH.
Qed.

(** In a section in which the Related marker occurs at the start of lines
    only, as in the documented format, the parsed content holds no
    marker, and the document gets no relates_to edge, whichever ids its
    annotation lists. *)
Lemma related_lines_give_no_edges file_name section doc :
  parse_section file_name section = Some doc ->
  Forall (fun l => contains Related_marker l = true ->
                   startswith Related_marker l = true)
         (tail (split newline_string section)) ->
  search_related (content doc) = None
  /\ filter (fun e => etype e = relates_to)
        (extract_relationships (doc_id doc) (content doc) (source_file doc))
     = [].
Proof.
  unfold parse_section.
  destruct (split newline_string section) as [|first rest]; [done|].
  simpl. intros Hdoc Hlines.
  destruct (truthy _); [|done]. injection Hdoc as <-. simpl.
  assert (Hnone :
    search_related
      (strip (join newline_string (s_content_lines (scan_lines rest))))
    = None).
  { destruct (search_related _) as [g|] eqn:E; [|done]. exfalso.
    apply search_related_contains, contains_strip in E.
    apply contains_join in E as (l & Hin & Hl); [|done..].
    pose proof (scan_content_lines _ _ Hlines) as Hcontent.
    eapply Forall_forall in Hcontent as [Hstart Hnot]; [|exact Hin].
    rewrite (Hstart Hl) in Hnot. done. }
  split; [done|].
  unfold extract_relationships. rewrite Hnone, app_nil_l.
  destruct (contains "violation-" _);
    [|destruct (contains "pattern-" _); [|destruct (contains "test-" _)]].
  - by rewrite filter_app, (filter_etype_other relates_to fixes),
      (filter_etype_other relates_to violates).
  - by rewrite filter_app, (filter_etype_other relates_to defines),
      (filter_etype_other relates_to implements).
  - by rewrite (filter_etype_other relates_to verifies).
  - done.
Qed.

Lemma related_lines_give_no_edges_example :
  search_related (content annotated_document) = None
  /\ filter (fun e => etype e = relates_to)
       (extract_relationships (doc_id annotated_document)
          (content annotated_document) (source_file annotated_document))
     = [].
Proof.
  apply (related_lines_give_no_edges "corpus.md"
           (default "" (split section_sep annotated_file.2 !! 1%nat))).
  - reflexivity.
  - vm_compute. repeat constructor; discriminate.
Defined.

(** *** Cluster count of the IVF index *)

Lemma nlist_of_at_least_one (dimension : Z) :
  (1 <= nlist_of dimension <-> 10 <= dimension)%Z.
Proof.
  unfold nlist_of. split; intros H.
  - destruct (Z.lt_ge_cases dimension 10) as [Hlt|]; [|done].
    assert (dimension / 10 <= 0)%Z.
    { destruct (Z.lt_ge_cases dimension 0).
      - assert (dimension / 10 < 0)%Z by (apply Z.div_lt_upper_bound; lia).
        lia.
      - rewrite Z.div_small by lia. lia. }
    lia.
  - assert (1 <= dimension / 10)%Z by (apply Z.div_le_lower_bound; lia).
    lia.
Qed.

Lemma nlist_of_small (dimension : Z) :
  (0 <= dimension < 10)%Z -> nlist_of dimension = 0%Z.
Proof. intros H. unfold nlist_of. rewrite Z.div_small by lia. lia. Qed.

(** C8 (what the code does at the failing input).  For five vectors of
    dimension 384 the IVF branch of [build_faiss_index] sets up the index
    with [min(100, 5 // 10) = 0] clusters: the count is the stated minimum
    of 100 and a tenth of the vector count, but it is not at least 1. *)
Theorem ivf_cluster_count_is_zero_for_five_vectors :
  build_faiss_index (5, 384)%Z "IVF"
  = Some (mkIndex (IndexIVFFlat 384 0) 5)
  /\ nlist_of 5 = Z.min 100 (5 / 10)
  /\ ~ (1 <= nlist_of 5)%Z.
Proof. split; [reflexivity|]. split; [reflexivity|]. by vm_compute. Qed.

(** *** Edges whose ends are not nodes *)

Lemma index_map_None (ids : list string) (k : string) :
  k ∉ ids -> index_map ids !! k = None.
Proof.
  intros Hk. unfold index_map. apply not_elem_of_list_to_map.
  rewrite fmap_reverse, fmap_imap, elem_of_reverse.
  rewrite (imap_ext _ (const id)) by done.
  by rewrite imap_const, list_fmap_id.
Qed.

Lemma node_ids_None (ns : gmap string Node) (k : string) :
  ns !! k = None ->
  index_map (merge_sort String.le (elements (dom ns))) !! k = None.
Proof.
  intros Hk. apply index_map_None.
  rewrite merge_sort_Permutation, elem_of_elements, elem_of_dom, Hk.
  by intros [? ?].
Qed.

Lemma resolve_dangling (ns : gmap string Node) (e : Edge) :
  dangling ns e ->
  resolve_edge (index_map (merge_sort String.le (elements (dom ns)))) e
  = None.
Proof.
  intros [H|H]; unfold resolve_edge; rewrite (node_ids_None _ _ H);
    [done|by case_match].
Qed.

(** C9 (as the code has it).  An edge with an end that is no node id stays
    in the builder's own list of edges ([parse_corpus] appends every
    extracted edge and removes none), and [build_graph] leaves it out of
    the graph.  What is saved is computed from the graph alone, so the
    graph and the saved graph object and statistics are the same as if the
    edge had never been extracted: the saved files keep no record of
    it. *)
Theorem dangling_edge_kept_in_builder_only
    (ns : gmap string Node) (es1 es2 : list Edge) (e : Edge) :
  dangling ns e ->
  (forall b embeddings metadata b',
     parse_corpus b embeddings metadata = Some b' ->
     edges b'
     = edges b
       ++ (metadata ≫= fun d =>
             extract_relationships (doc_id d) (content d) (source_file d)))
  /\ build_graph (mkBuilder ns (es1 ++ e :: es2))
     = build_graph (mkBuilder ns (es1 ++ es2))
  /\ build_and_save (mkBuilder ns (es1 ++ e :: es2))
     = build_and_save (mkBuilder ns (es1 ++ es2)).
Proof.
  intros Hd.
  assert (G : build_graph (mkBuilder ns (es1 ++ e :: es2))
              = build_graph (mkBuilder ns (es1 ++ es2))).
  { unfold build_graph. simpl.
    rewrite !omap_app. simpl. by rewrite (resolve_dangling _ _ Hd). }
  split; [|split; [done|]].
  - intros b embeddings metadata b' [lookup ->]%parse_corpus_unfold.
    apply add_documents_edges.
  - unfold build_and_save. by rewrite G.
Qed.

Lemma dangling_edge_kept_in_builder_only_witness :
  build_and_save builder_with_dangling = build_and_save builder_without_edges.
Proof.
  apply (dangling_edge_kept_in_builder_only
           {[ "law-assoc-001" := law_node ]} [] [] dangling_edge).
  right. reflexivity.
Defined.

(** C9 (as the spec states it) fails: a builder holding a dangling edge
    saves exactly what the builder without any edge saves, a graph with no
    edge and statistics that count no edge; nothing saved tells that the
    edge was there. *)
Lemma dangling_edge_not_in_artifacts :
  dangling (nodes builder_with_dangling) dangling_edge
  /\ dangling_edge ∈ edges builder_with_dangling
  /\ build_and_save builder_with_dangling
     = build_and_save builder_without_edges
  /\ (edge_index ∘ a_graph <$> build_and_save builder_with_dangling)
     = Some []
  /\ (num_edges ∘ a_stats <$> build_and_save builder_with_dangling)
     = Some 0%nat
  /\ (edges_by_type ∘ a_stats <$> build_and_save builder_with_dangling)
     = Some ((fun t => (t, 0%nat)) <$> EDGE_TYPE_NAMES).
Proof.
  split; [by right|]. split; [apply list_elem_of_here|].
  by vm_compute.
Qed.

(** *** Minimum and maximum of a list of scores *)

Lemma Qltb_true a b : Qltb a b = true -> (a < b)%Q.
Proof.
  unfold Qltb. intros H%negb_true_iff.
  apply Qnot_le_lt. intros Hle%Qle_bool_iff. congruence.
Qed.

Lemma Qltb_false a b : Qltb a b = false -> (b <= a)%Q.
Proof. unfold Qltb. intros H%negb_false_iff. by apply Qle_bool_iff. Qed.

Lemma foldl_min_spec rest : forall v,
  let m := foldl (fun m y => if Qltb y m then y else m) v rest in
  (m <= v)%Q /\ Forall (fun y => (m <= y)%Q) rest /\ m ∈ v :: rest.
Proof.
  induction rest as [|y rest IH]; intros v; simpl.
  - split; [apply Qle_refl|]. split; [constructor|apply list_elem_of_here].
  - destruct (Qltb y v) eqn:E.
    + destruct (IH y) as (H1 & H2 & H3). apply Qltb_true in E.
      split; [eapply Qle_trans; [exact H1|by apply Qlt_le_weak]|].
      split; [by constructor|]. by apply list_elem_of_further.
    + destruct (IH v) as (H1 & H2 & H3). apply Qltb_false in E.
      split; [done|]. split.
      * constructor; [by eapply Qle_trans|done].
      * apply elem_of_cons in H3 as [->|H3];
          [apply list_elem_of_here|by do 2 apply list_elem_of_further].
Qed.

Lemma foldl_max_spec rest : forall v,
  let m := foldl (fun m y => if Qltb m y then y else m) v rest in
  (v <= m)%Q /\ Forall (fun y => (y <= m)%Q) rest /\ m ∈ v :: rest.
Proof.
  induction rest as [|y rest IH]; intros v; simpl.
  - split; [apply Qle_refl|]. split; [constructor|apply list_elem_of_here].
  - destruct (Qltb v y) eqn:E.
    + destruct (IH y) as (H1 & H2 & H3). apply Qltb_true in E.
      split; [eapply Qle_trans; [by apply Qlt_le_weak|exact H1]|].
      split; [by constructor|]. by apply list_elem_of_further.
    + destruct (IH v) as (H1 & H2 & H3). apply Qltb_false in E.
      split; [done|]. split.
      * constructor; [by eapply Qle_trans|done].
      * apply elem_of_cons in H3 as [->|H3];
          [apply list_elem_of_here|by do 2 apply list_elem_of_further].
Qed.

Lemma py_min_spec values m :
  py_min values = Some m ->
  m ∈ values /\ forall v, v ∈ values -> (m <= v)%Q.
Proof.
  destruct values as [|v rest]; [done|]. simpl. intros [= <-].
  destruct (foldl_min_spec rest v) as (H1 & H2 & H3).
  split; [done|]. intros y [->|Hy]%elem_of_cons; [done|].
  by eapply Forall_forall in H2.
Qed.

Lemma py_max_spec values m :
  py_max values = Some m ->
  m ∈ values /\ forall v, v ∈ values -> (v <= m)%Q.
Proof.
  destruct values as [|v rest]; [done|]. simpl. intros [= <-].
  destruct (foldl_max_spec rest v) as (H1 & H2 & H3).
  split; [done|]. intros y [->|Hy]%elem_of_cons; [done|].
  by eapply Forall_forall in H2.
Qed.



(** *** Min-max scaling *)

Lemma scaled_in_unit_interval (v lo hi : Q) :
  (lo <= v)%Q -> (v <= hi)%Q -> ~ (hi == lo)%Q ->
  (0 <= (v - lo) / (hi - lo))%Q /\ ((v - lo) / (hi - lo) <= 1)%Q.
Proof.
  intros H1 H2 Hne.
  assert (Hlt : (0 < hi - lo)%Q).
  { assert (lo <= hi)%Q by (by eapply Qle_trans).
    assert (lo < hi)%Q.
    { apply Qle_lteq in H as [H|H]; [done|]. destruct Hne. by symmetry. }
    unfold Qminus. rewrite <- (Qplus_opp_r lo).
    by apply Qplus_lt_l. }
  split.
  - apply Qle_shift_div_l; [done|]. rewrite Qmult_0_l.
    unfold Qminus. rewrite <- (Qplus_opp_r lo). by apply Qplus_le_l.
  - apply Qle_shift_div_r; [done|]. rewrite Qmult_1_l.
    unfold Qminus. by apply Qplus_le_l.
Qed.

Lemma values_elem (scores : gmap string Q) k v :
  scores !! k = Some v -> v ∈ (map_to_list scores).*2.
Proof.
  intros H. apply list_elem_of_fmap. exists (k, v). split; [done|].
  by apply elem_of_map_to_list.
Qed.




(** *** Min-max scaling on binary64 numbers *)

Section OnDoubles.
Import PrimFloat.







End OnDoubles.

(** *** The stable sort *)

Section Stable.
Context {A : Type} (before : A -> A -> bool).
Context (P : A -> Prop) `{!forall a, Decision (P a)}.

(** Elements of the class [P] are never exchanged with one another. *)
Hypothesis class_not_exchanged : forall a b, P a -> P b -> before b a = false.

Lemma insert_sorted_filter a l :
  filter P (insert_sorted before a l) = filter P (a :: l).
Proof.
  induction l as [|b l IH]; [done|]. simpl.
  destruct (before b a) eqn:E; [|done].
  rewrite filter_cons, IH, !filter_cons.
  destruct (decide (P b)) as [Hb|Hb], (decide (P a)) as [Ha|Ha]; try done.
  by rewrite class_not_exchanged in E.
Qed.

(** The sort keeps the elements of the class in the order they had. *)
Lemma stable_sort_filter l :
  filter P (stable_sort before l) = filter P l.
Proof.
  induction l as [|a l IH]; [done|].
  unfold stable_sort in *. simpl.
  by rewrite insert_sorted_filter, !filter_cons, IH.
Qed.

End Stable.

Lemma sublist_filter_mono {A} (P : A -> Prop) `{!forall a, Decision (P a)}
    (l1 l2 : list A) :
  l1 `sublist_of` l2 -> filter P l1 `sublist_of` filter P l2.
Proof.
  intros Hsub.
  induction Hsub as [|x l1 l2 _ IH|x l1 l2 _ IH]; [done|..];
    rewrite ?filter_cons; case_decide; try done.
  - by constructor.
  - by constructor.
Qed.

Lemma comes_before_filter {A} (P : A -> Prop) `{!forall a, Decision (P a)}
    (x y : A) (l : list A) :
  P x -> P y -> comes_before x y l -> comes_before x y (filter P l).
Proof.
  intros Hx Hy Hxy. unfold comes_before in *.
  apply (sublist_filter_mono P) in Hxy.
  by rewrite !filter_cons_True, filter_nil in Hxy.
Qed.

(** *** Results of a hybrid query *)

Lemma find_doc_id metadata id doc :
  find_doc metadata id = Some doc -> doc_id doc = id.
Proof.
  unfold find_doc. intros ([i d] & H & ->)%fmap_Some.
  by apply list_find_Some in H as (_ & H & _).
Qed.

(** The ids of the results built from a list of ids stand in that list, in
    the same order. *)
Lemma results_ranking_sublist {B} (g : B -> string) (f : string -> option B)
    (ids : list string) :
  (forall id r, f id = Some r -> g r = id) ->
  g <$> omap f ids `sublist_of` ids.
Proof.
  intros Hf. induction ids as [|id ids IH]; [done|]. simpl.
  destruct (f id) as [r|] eqn:E.
  - rewrite fmap_cons, (Hf _ _ E). by constructor.
  - by constructor.
Qed.

Lemma normalize_dom scores normalized :
  normalize scores = Some normalized -> dom normalized = dom scores.
Proof.
  unfold normalize. intros H.
  destruct (py_min _); [|done]. destruct (py_max _); [|done].
  simpl in H. destruct (Qeq_bool _ _); simplify_eq; apply dom_fmap_L.
Qed.

(** C4 (as the code has it).  In the result of a hybrid query, two
    documents of equal combined score stand in the order in which the
    iteration over the set of all document ids yields their ids: the sort
    is stable and compares scores only, and no ordering by doc_id takes
    part. *)
Theorem hybrid_ties_follow_set_iteration
    (metadata : list CorpusDocument) (faiss_search : nat -> list Z * list Q)
    (bm25_scores : list Q) (set_iter : gset string -> list string)
    (top_k : nat) (alpha : Q) (results : list Result) :
  query_hybrid metadata faiss_search bm25_scores set_iter top_k alpha
  = Some results ->
  exists semantic_results keyword_results,
    query_semantic metadata faiss_search (length metadata)
    = Some semantic_results
    /\ query_keyword metadata bm25_scores (length metadata)
       = Some keyword_results
    /\ forall r1 r2,
         comes_before r1 r2 results ->
         (r_score r1 == r_score r2)%Q ->
         comes_before (doc_id (r_doc r1)) (doc_id (r_doc r2))
           (set_iter (dom (scores_of semantic_results)
                      ∪ dom (scores_of keyword_results))).
Proof.
  unfold query_hybrid. intros H.
  destruct (query_semantic _ _ _) as [semantic_results|]; [|done].
  destruct (query_keyword _ _ _) as [keyword_results|]; [|done].
  simpl in H.
  destruct (normalize (scores_of semantic_results))
    as [semantic_norm|] eqn:Es; [|done].
  destruct (normalize (scores_of keyword_results))
    as [keyword_norm|] eqn:Ek; [|done].
  simpl in H. injection H as <-.
  exists semantic_results, keyword_results. split; [done|]. split; [done|].
  rewrite <- (normalize_dom _ _ Es), <- (normalize_dom _ _ Ek).
  set (score := combined alpha semantic_norm keyword_norm).
  set (keys := set_iter (dom semantic_norm ∪ dom keyword_norm)).
  set (f := fun id => _ : option Result).
  assert (Hf : forall id r, f id = Some r ->
                 doc_id (r_doc r) = id /\ r_score r = score id).
  { intros id r. unfold f. intros (doc & Hdoc & [= <-])%bind_Some. simpl.
    split; [by eapply find_doc_id|done]. }
  intros r1 r2 Hbefore Heq.
  assert (H1 : r1 ∈ omap f (take top_k (sorted_desc score keys)))
    by (eapply elem_of_sublist; [|exact Hbefore]; apply list_elem_of_here).
  assert (H2 : r2 ∈ omap f (take top_k (sorted_desc score keys)))
    by (eapply elem_of_sublist; [|exact Hbefore];
        apply list_elem_of_further, list_elem_of_here).
  apply list_elem_of_omap in H1 as (id1 & _ & [Hid1 Hs1]%Hf).
  apply list_elem_of_omap in H2 as (id2 & _ & [Hid2 Hs2]%Hf).
  set (P := fun id => Qeq_bool (score id) (score id1) = true).
  assert (Hsorted :
    comes_before (doc_id (r_doc r1)) (doc_id (r_doc r2))
      (sorted_desc score keys)).
  { unfold comes_before in *.
    etrans; [|apply (sublist_take _ top_k)].
    etrans; [|apply (results_ranking_sublist (fun r => doc_id (r_doc r)) f);
              intros id r Hr; by apply Hf in Hr as [? _]].
    by apply (fmap_sublist (fun r => doc_id (r_doc r))) in Hbefore. }
  apply (comes_before_filter P) in Hsorted.
  - unfold sorted_desc in Hsorted.
    rewrite (stable_sort_filter _ P) in Hsorted.
    + unfold comes_before in *. etrans; [exact Hsorted|apply sublist_filter].
    + intros a b Ha Hb. unfold P in Ha, Hb.
      apply Qeq_bool_iff in Ha, Hb.
      unfold Qltb. apply negb_false_iff, Qle_bool_iff.
      rewrite Ha, Hb. apply Qle_refl.
  - unfold P. rewrite Hid1. apply Qeq_bool_iff. reflexivity.
  - unfold P. rewrite Hid2. apply Qeq_bool_iff.
    rewrite <- Hs2, <- Hs1. by symmetry.
Qed.

Lemma hybrid_ties_follow_set_iteration_witness :
  exists results,
    tie_query descending_iter = Some results
    /\ forall r1 r2,
         comes_before r1 r2 results ->
         (r_score r1 == r_score r2)%Q ->
         comes_before (doc_id (r_doc r1)) (doc_id (r_doc r2))
           ["def-b-002"; "def-a-001"].
Proof.
  eexists. split; [vm_compute; reflexivity|].
  destruct (hybrid_ties_follow_set_iteration
              [doc_a; doc_b] (flat_search [1%Q; 1%Q]) [2%Q; 2%Q]
              descending_iter 2 (1 # 2)%Q _ eq_refl)
    as (semantic_results & keyword_results & Hs & Hk & H).
  vm_compute in Hs, Hk. injection Hs as <-. injection Hk as <-.
  exact H.
Defined.

Lemma descending_iter_enumerates (s : gset string) :
  descending_iter s ≡ₚ elements s.
Proof.
  unfold descending_iter, ascending_iter.
  by rewrite reverse_Permutation, merge_sort_Permutation.
Qed.

(** C4 (as the spec states it) fails: two documents of equal combined
    score come out with the greater id first when the set of ids is
    iterated in that order, and with the smaller id first when it is
    iterated in the other order; the order of ties is that of the
    iteration, not the ascending order of the ids. *)
Lemma hybrid_tie_not_in_id_order :
  (ranking <$> tie_query descending_iter) = Some ["def-b-002"; "def-a-001"]
  /\ (ranking <$> tie_query ascending_iter)
     = Some ["def-a-001"; "def-b-002"]
  /\ (fmap (M := list) (fun r => Qeq_bool (r_score r) (1 # 2))
        <$> tie_query descending_iter) = Some [true; true]
  /\ String.ltb "def-a-001" "def-b-002" = true
  /\ descending_iter {[ "def-a-001"; "def-b-002" ]}
     ≡ₚ elements ({[ "def-a-001"; "def-b-002" ]} : gset string).
Proof.
  split; [by vm_compute|]. split; [by vm_compute|]. split; [by vm_compute|].
  split; [by vm_compute|]. apply descending_iter_enumerates.
Qed.

(** *** Semantic search *)

Lemma query_semantic_length metadata faiss_search top_k results :
  query_semantic metadata faiss_search top_k = Some results ->
  length results
  = Nat.min (length (faiss_search top_k).1) (length (faiss_search top_k).2).
Proof.
  unfold query_semantic. destruct (faiss_search top_k) as [indices distances].
  intros H%length_mapM. rewrite <- H. apply length_zip_with.
Qed.

Lemma insert_sorted_Permutation {A} (before : A -> A -> bool) a l :
  insert_sorted before a l ≡ₚ a :: l.
Proof.
  induction l as [|b l IH]; [done|]. simpl.
  destruct (before b a); [|done]. rewrite IH. apply Permutation_swap.
Qed.

Lemma stable_sort_Permutation {A} (before : A -> A -> bool) l :
  stable_sort before l ≡ₚ l.
Proof.
  induction l as [|a l IH]; [done|]. unfold stable_sort in *. simpl.
  by rewrite insert_sorted_Permutation, IH.
Qed.

Lemma argsort_Permutation scores : argsort scores ≡ₚ seq 0 (length scores).
Proof. apply stable_sort_Permutation. Qed.

(** The rows the exact index returns have [k] entries each. *)
Lemma flat_search_length dists k :
  length (flat_search dists k).1 = k /\ length (flat_search dists k).2 = k.
Proof.
  unfold flat_search. simpl.
  rewrite !length_app, !length_fmap, !length_replicate.
  rewrite length_take. lia.
Qed.

(** Every label it returns is the position of a stored vector, or -1. *)
Lemma flat_search_labels dists k :
  Forall (fun i => (0 <= i < Z.of_nat (length dists))%Z \/ i = (-1)%Z)
         (flat_search dists k).1.
Proof.
  unfold flat_search. simpl. apply Forall_app. split.
  - apply Forall_fmap, Forall_forall. intros i Hi. left. simpl.
    assert (Hi' : i ∈ argsort dists)
      by (eapply elem_of_sublist; [exact Hi|apply sublist_take]).
    rewrite argsort_Permutation in Hi'. apply elem_of_seq in Hi'. lia.
  - apply Forall_forall. intros i ->%elem_of_replicate_inv. by right.
Qed.

Lemma py_index_is_Some {A} (l : list A) (i : Z) :
  l <> [] ->
  (0 <= i < Z.of_nat (length l))%Z \/ i = (-1)%Z ->
  is_Some (py_index l i).
Proof.
  intros Hne Hi. unfold py_index.
  assert (0 < length l)%nat by (destruct l; [done|simpl; lia]).
  destruct Hi as [Hi| ->].
  - rewrite (proj2 (Z.leb_le 0 i)) by lia.
    apply lookup_lt_is_Some. lia.
  - simpl. rewrite (proj2 (Z.leb_le _ _)) by lia.
    apply lookup_lt_is_Some. lia.
Qed.

(** For every request the semantic search over the exact index gives as
    many results as were asked for, also when fewer vectors are stored. *)
Lemma query_semantic_gives_top_k_results metadata dists top_k :
  metadata <> [] -> length dists = length metadata ->
  exists results,
    query_semantic metadata (flat_search dists) top_k = Some results
    /\ length results = top_k.
Proof.
  intros Hne Hlen.
  assert (Hsome : is_Some (query_semantic metadata (flat_search dists) top_k)).
  { unfold query_semantic.
    pose proof (flat_search_labels dists top_k) as Hlab.
    destruct (flat_search dists top_k) as [indices distances]. simpl in Hlab.
    apply mapM_is_Some, Forall_forall. intros [idx dist] Hin. simpl.
    apply elem_of_zip_l in Hin. eapply Forall_forall in Hlab; [|done].
    rewrite Hlen in Hlab.
    destruct (py_index_is_Some metadata idx Hne Hlab) as [doc ->]. by eexists. }
  destruct Hsome as [results Hres]. exists results. split; [done|].
  rewrite (query_semantic_length _ _ _ _ Hres).
  destruct (flat_search_length dists top_k) as [-> ->]. lia.
Qed.

(** C5 (what the code does at the failing input).  With two vectors in
    the index and three results requested, the index fills the third slot
    with the label -1 and the largest single-precision number, and
    [query_semantic] reads [metadata[-1]]: it returns three results, not
    two, and the third is the last document once more. *)
Theorem semantic_search_beyond_index_size :
  query_semantic [doc_a; doc_b] (flat_search [0; 1]%Q) 3
  = Some [mkResult doc_a 0 semantic None None;
          mkResult doc_b 1 semantic None None;
          mkResult doc_b FLT_MAX semantic None None].
Proof. reflexivity. Qed.

(** *** The weight of the semantic score *)

(** C1 (what the code does at the failing input).  Document A is at
    distance 0 from the query and document B at distance 1, and A has the
    higher keyword score as well.  The semantic search ranks A before B.
    The hybrid search with alpha = 1 ranks B before A, whichever way the
    set of ids is iterated, and its first result alone is B: the distance
    enters the combined score as it is, and the sort puts the greatest
    score first. *)
Theorem hybrid_alpha_one_ranks_farthest_first :
  (ranking <$> query_semantic [doc_a; doc_b] (flat_search [0; 1]%Q) 2)
  = Some ["def-a-001"; "def-b-002"]
  /\ (ranking <$> query_keyword [doc_a; doc_b] [3; 1]%Q 2)
     = Some ["def-a-001"; "def-b-002"]
  /\ (ranking <$> query_hybrid [doc_a; doc_b] (flat_search [0; 1]%Q)
                    [3; 1]%Q ascending_iter 2 1%Q)
     = Some ["def-b-002"; "def-a-001"]
  /\ (ranking <$> query_hybrid [doc_a; doc_b] (flat_search [0; 1]%Q)
                    [3; 1]%Q descending_iter 2 1%Q)
     = Some ["def-b-002"; "def-a-001"]
  /\ (ranking <$> query_semantic [doc_a; doc_b] (flat_search [0; 1]%Q) 1)
     = Some ["def-a-001"]
  /\ (ranking <$> query_hybrid [doc_a; doc_b] (flat_search [0; 1]%Q)
                    [3; 1]%Q ascending_iter 1 1%Q)
     = Some ["def-b-002"].
Proof. by vm_compute. Qed.

(** The sort puts the greatest score first. *)
Lemma insert_sorted_desc (score : string -> Q) a l :
  StronglySorted (fun x y => (score y <= score x)%Q) l ->
  StronglySorted (fun x y => (score y <= score x)%Q)
    (insert_sorted (fun b a => Qltb (score a) (score b)) a l).
Proof.
  intros Hl. induction Hl as [|b l Hl IH Hb]; simpl.
  - repeat constructor.
  - destruct (Qltb (score a) (score b)) eqn:E.
    + constructor; [done|].
      rewrite insert_sorted_Permutation. constructor; [|done].
      by apply Qlt_le_weak, Qltb_true.
    + apply Qltb_false in E. constructor; [by constructor|].
      constructor; [done|].
      eapply Forall_impl; [exact Hb|]. intros x Hx. simpl in Hx.
      by eapply Qle_trans.
Qed.

Lemma sorted_desc_sorted (score : string -> Q) keys :
  StronglySorted (fun x y => (score y <= score x)%Q) (sorted_desc score keys).
Proof.
  unfold sorted_desc, stable_sort.
  induction keys as [|a keys IH]; simpl; [constructor|].
  by apply insert_sorted_desc.
Qed.

Lemma comes_before_sorted {A} (R : A -> A -> Prop) (x y : A) (l : list A) :
  StronglySorted R l -> comes_before x y l -> R x y.
Proof.
  unfold comes_before. intros Hl. induction Hl as [|a l Hl IH Ha]; intros H.
  - by apply sublist_nil_r in H.
  - apply sublist_cons_r in H as [H|(l' & [= <- <-] & H)]; [by apply IH|].
    eapply Forall_forall; [exact Ha|].
    eapply elem_of_sublist; [|exact H]. apply list_elem_of_here.
Qed.

(** Min-max scaling keeps the order of the scores: a score whose scaled
    value is not greater was not greater before. *)
Lemma normalize_reflects_order (scores normalized : gmap string Q)
    (i j : string) (di dj : Q) :
  normalize scores = Some normalized ->
  scores !! i = Some di -> scores !! j = Some dj ->
  (default 0 (normalized !! j) <= default 0 (normalized !! i))%Q ->
  (dj <= di)%Q.
Proof.
  unfold normalize. intros Hn Hi Hj Hle.
  destruct (py_min _) as [lo|] eqn:Hlo; [|done].
  destruct (py_max _) as [hi|] eqn:Hhi; [|done]. simpl in Hn.
  apply py_min_spec in Hlo as [_ Hlo]. apply py_max_spec in Hhi as [_ Hhi].
  pose proof (values_elem _ _ _ Hi) as Vi.
  pose proof (values_elem _ _ _ Hj) as Vj.
  destruct (Qeq_bool hi lo) eqn:E; injection Hn as <-.
  - apply Qeq_bool_iff in E.
    eapply Qle_trans; [apply Hhi, Vj|]. rewrite E. by apply Hlo.
  - apply Qeq_bool_neq in E.
    rewrite !lookup_fmap, Hi, Hj in Hle. simpl in Hle.
    assert (Hlt : (0 < hi - lo)%Q).
    { assert (H : (lo <= hi)%Q)
        by (eapply Qle_trans; [apply Hlo, Vi|apply Hhi, Vi]).
      apply Qle_lteq in H as [H|H]; [|destruct E; by symmetry].
      unfold Qminus. rewrite <- (Qplus_opp_r lo). by apply Qplus_lt_l. }
    unfold Qdiv in Hle.
    apply Qmult_le_r in Hle; [|by apply Qinv_lt_0_compat].
    unfold Qminus in Hle. by apply Qplus_le_l in Hle.
Qed.

(** The results of a hybrid query stand in descending order of their
    combined scores. *)
Lemma hybrid_sorted_by_combined_score
    (metadata : list CorpusDocument) (faiss_search : nat -> list Z * list Q)
    (bm25_scores : list Q) (set_iter : gset string -> list string)
    (top_k : nat) (alpha : Q) (results : list Result) :
  query_hybrid metadata faiss_search bm25_scores set_iter top_k alpha
  = Some results ->
  exists semantic_results keyword_results semantic_norm keyword_norm,
    query_semantic metadata faiss_search (length metadata)
    = Some semantic_results
    /\ query_keyword metadata bm25_scores (length metadata)
       = Some keyword_results
    /\ normalize (scores_of semantic_results) = Some semantic_norm
    /\ normalize (scores_of keyword_results) = Some keyword_norm
    /\ forall r1 r2,
         comes_before r1 r2 results ->
         (combined alpha semantic_norm keyword_norm (doc_id (r_doc r2))
          <= combined alpha semantic_norm keyword_norm (doc_id (r_doc r1)))%Q.
Proof.
  unfold query_hybrid. intros H.
  destruct (query_semantic _ _ _) as [semantic_results|]; [|done].
  destruct (query_keyword _ _ _) as [keyword_results|]; [|done].
  simpl in H.
  destruct (normalize (scores_of semantic_results))
    as [semantic_norm|] eqn:Es; [|done].
  destruct (normalize (scores_of keyword_results))
    as [keyword_norm|] eqn:Ek; [|done].
  simpl in H. injection H as <-.
  exists semantic_results, keyword_results, semantic_norm, keyword_norm.
  do 4 (split; [done|]).
  set (score := combined alpha semantic_norm keyword_norm).
  set (keys := set_iter (dom semantic_norm ∪ dom keyword_norm)).
  set (f := fun id => _ : option Result).
  assert (Hf : forall id r, f id = Some r -> doc_id (r_doc r) = id).
  { intros id r. unfold f. intros (doc & Hdoc & [= <-])%bind_Some. simpl.
    by eapply find_doc_id. }
  intros r1 r2 Hbefore.
  apply (comes_before_sorted _ _ _ _ (sorted_desc_sorted score keys)).
  unfold comes_before in *.
  etrans; [|apply (sublist_take _ top_k)].
  etrans; [|by apply (results_ranking_sublist
                        (fun r => doc_id (r_doc r)) f)].
  by apply (fmap_sublist (fun r => doc_id (r_doc r))) in Hbefore.
Qed.

(** With alpha = 1 the hybrid search orders its results by distance, the
    greatest first: a result never stands before one that is farther from
    the query. *)
Lemma hybrid_alpha_one_descending_distance
    (metadata : list CorpusDocument) (faiss_search : nat -> list Z * list Q)
    (bm25_scores : list Q) (set_iter : gset string -> list string)
    (top_k : nat) (results : list Result) :
  query_hybrid metadata faiss_search bm25_scores set_iter top_k 1
  = Some results ->
  exists semantic_results,
    query_semantic metadata faiss_search (length metadata)
    = Some semantic_results
    /\ forall r1 r2 d1 d2,
         comes_before r1 r2 results ->
         scores_of semantic_results !! doc_id (r_doc r1) = Some d1 ->
         scores_of semantic_results !! doc_id (r_doc r2) = Some d2 ->
         (d2 <= d1)%Q.
Proof.
  intros (semantic_results & keyword_results & semantic_norm & keyword_norm
          & Hs & _ & Hn & _ & Hsorted)%hybrid_sorted_by_combined_score.
  exists semantic_results. split; [done|].
  intros r1 r2 d1 d2 Hbefore H1 H2.
  apply (normalize_reflects_order _ _ _ _ _ _ Hn H1 H2).
  specialize (Hsorted r1 r2 Hbefore).
  assert (Hscore : forall id,
            (combined 1 semantic_norm keyword_norm id
             == default 0 (semantic_norm !! id))%Q)
    by (intros id; unfold combined; ring).
  by rewrite !Hscore in Hsorted.
Qed.

(** With alpha = 0 it orders them by keyword score, the greatest first, as
    the keyword search does. *)
Lemma hybrid_alpha_zero_descending_keyword_score
    (metadata : list CorpusDocument) (faiss_search : nat -> list Z * list Q)
    (bm25_scores : list Q) (set_iter : gset string -> list string)
    (top_k : nat) (results : list Result) :
  query_hybrid metadata faiss_search bm25_scores set_iter top_k 0
  = Some results ->
  exists keyword_results,
    query_keyword metadata bm25_scores (length metadata)
    = Some keyword_results
    /\ forall r1 r2 s1 s2,
         comes_before r1 r2 results ->
         scores_of keyword_results !! doc_id (r_doc r1) = Some s1 ->
         scores_of keyword_results !! doc_id (r_doc r2) = Some s2 ->
         (s2 <= s1)%Q.
Proof.
  intros (semantic_results & keyword_results & semantic_norm & keyword_norm
          & _ & Hk & _ & Hn & Hsorted)%hybrid_sorted_by_combined_score.
  exists keyword_results. split; [done|].
  intros r1 r2 s1 s2 Hbefore H1 H2.
  apply (normalize_reflects_order _ _ _ _ _ _ Hn H1 H2).
  specialize (Hsorted r1 r2 Hbefore).
  assert (Hscore : forall id,
            (combined 0 semantic_norm keyword_norm id
             == default 0 (keyword_norm !! id))%Q)
    by (intros id; unfold combined; ring).
  by rewrite !Hscore in Hsorted.
Qed.


(** * Further properties *)

Import Statistics Terms MoreSamples.

(** *** Stripping *)

Lemma lstrip_head s c r : lstrip s = String c r -> is_space c = false.
Proof.
  induction s as [|a s IH]; simpl; [done|].
  destruct (is_space a) eqn:E; [done|]. by intros [= <- _].
Qed.

Lemma rstrip_idemp s : rstrip (rstrip s) = rstrip s.
Proof.
  induction s as [|c s IH]; [done|]. simpl.
  destruct (rstrip s) as [|d r] eqn:E.
  - destruct (is_space c) eqn:Ec; [done|]. simpl. by rewrite Ec.
  - change (rstrip (String c (String d r))) with
      (match rstrip (String d r) with
       | EmptyString =>
           if is_space c then EmptyString else String c EmptyString
       | r' => String c r'
       end).
    by rewrite IH.
Qed.

Lemma rstrip_head c r :
  is_space c = false -> exists r', rstrip (String c r) = String c r'.
Proof.
  intros Hc. simpl. destruct (rstrip r); [|by eexists].
  rewrite Hc. by eexists.
Qed.

Lemma strip_stripped s : stripped (strip s).
Proof.
  unfold stripped, strip.
  destruct (lstrip s) as [|c r] eqn:E; [done|].
  apply lstrip_head in E.
  destruct (rstrip_head c r E) as [r' Hr]. rewrite Hr.
  simpl lstrip. rewrite E. rewrite <- Hr. apply rstrip_idemp.
Qed.

(** *** What a parsed document looks like *)

Lemma scan_invariant (I : Scan -> Prop) :
  I scan_init ->
  (forall st line, I st -> I (scan_line st line)) ->
  forall lines, I (scan_lines lines).
Proof.
  intros Hinit Hstep lines. unfold scan_lines.
  generalize scan_init Hinit.
  induction lines as [|l ls IH]; intros st Hst; simpl; [done|].
  by apply IH, Hstep.
Qed.

Lemma scan_id_stripped lines p :
  s_doc_id (scan_lines lines) = Some p -> stripped p.
Proof.
  revert p.
  apply (scan_invariant (fun st => forall p, s_doc_id st = Some p -> stripped p));
    [done|].
  intros st line IH p. unfold scan_line.
  repeat case_match; simpl; try apply IH.
  intros [= <-]. apply strip_stripped.
Qed.

Lemma parse_section_fields file_name section doc :
  parse_section file_name section = Some doc ->
  exists first rest,
    split newline_string section = first :: rest
    /\ s_doc_id (scan_lines rest) = Some (doc_id doc)
    /\ doc_id doc <> ""
    /\ title doc = strip first
    /\ tags doc = s_tags (scan_lines rest)
    /\ doc_type doc = s_doc_type (scan_lines rest)
    /\ content doc
       = strip (join newline_string (s_content_lines (scan_lines rest)))
    /\ source_file doc = file_name.
Proof.
  unfold parse_section.
  destruct (split newline_string section) as [|first rest]; [done|].
  simpl. destruct (s_doc_id (scan_lines rest)) as [[|c p]|] eqn:E; [done| |done].
  simpl. intros [= <-]. exists first, rest. by repeat split.
Qed.

(** X1.  Every document the parser returns has an id that is not empty;
    its id, its title and its content have no white space at either end;
    and it comes from one of the files of the corpus, whose name it
    carries as source file. *)
Theorem parsed_documents_are_well_formed
    (files : list (string * string)) (doc : CorpusDocument) :
  doc ∈ (parse_markdown_corpus files).1 ->
  doc_id doc <> ""
  /\ stripped (doc_id doc) /\ stripped (title doc) /\ stripped (content doc)
  /\ exists file,
       file ∈ files /\ source_file doc = file.1 /\ doc ∈ parse_file file.
Proof.
  unfold parse_markdown_corpus. simpl.
  intros (file & Hdoc & Hfile)%list_elem_of_bind.
  pose proof Hdoc as Hdoc'.
  unfold parse_file in Hdoc.
  apply list_elem_of_omap in Hdoc as (section & _ & Hsec).
  apply parse_section_fields in Hsec
    as (first & rest & _ & Hid & Hne & Htitle & _ & _ & Hcontent & Hsrc).
  split; [done|]. split; [by eapply scan_id_stripped|].
  split; [rewrite Htitle; apply strip_stripped|].
  split; [rewrite Hcontent; apply strip_stripped|].
  by exists file.
Qed.

Lemma parsed_documents_are_well_formed_witness :
  doc_id first_seen <> "" /\ stripped (doc_id first_seen).
Proof.
  assert (H : first_seen ∈ (parse_markdown_corpus duplicated_corpus).1)
    by (vm_compute; apply list_elem_of_here).
  destruct (parsed_documents_are_well_formed duplicated_corpus first_seen H)
    as (H1 & H2 & _).
  by split.
Defined.

(** *** Files without a section header *)

Lemma split_without_separator sep s :
  contains sep s = false -> split sep s = [s].
Proof.
  unfold split. intros H.
  assert (G : split_go sep 0 s = (s, [])).
  { induction s as [|c s IH]; [done|].
    cbn [contains] in H. apply orb_false_iff in H as [Hp Hs].
    cbn [split_go]. by rewrite Hp, (IH Hs). }
  by rewrite G.
Qed.

Lemma length_omap_le {A B} (f : A -> option B) (l : list A) :
  (length (omap f l) <= length l)%nat.
Proof.
  induction l as [|a l IH]; csimpl; [done|]. destruct (f a); csimpl; lia.
Qed.

(** X2.  A file yields at most one document per section header, a
    section header being the text "## " right after a newline.  A file in
    which no newline is followed by "## " yields no document at all, even
    if its first line is such a header. *)
Theorem documents_need_section_headers (file : string * string) :
  (length (parse_file file)
   <= length (split section_sep file.2) - 1)%nat
  /\ (contains section_sep file.2 = false -> parse_file file = []).
Proof.
  unfold parse_file. split.
  - etrans; [apply length_omap_le|].
    destruct (split section_sep file.2); simpl; lia.
  - intros H. by rewrite (split_without_separator _ _ H).
Qed.

Lemma documents_need_section_headers_witness :
  parse_file ("corpus.md",
              join newline_string
                ["## Functor"; "**ID:** def-functor-001"; "A functor."])
  = [].
Proof.
  apply (documents_need_section_headers
           ("corpus.md",
            join newline_string
              ["## Functor"; "**ID:** def-functor-001"; "A functor."])).
  reflexivity.
Defined.

(** *** The content of a document *)

Lemma scan_before_first_id pre :
  Forall (fun l => startswith ID_marker l = false) pre ->
  s_doc_id (scan_lines pre) = None
  /\ s_content_lines (scan_lines pre) = []
  /\ s_in_content (scan_lines pre) = false.
Proof.
  intros Hpre. unfold scan_lines.
  assert (G : forall st,
    s_doc_id st = None /\ s_content_lines st = [] /\ s_in_content st = false ->
    s_doc_id (foldl scan_line st pre) = None
    /\ s_content_lines (foldl scan_line st pre) = []
    /\ s_in_content (foldl scan_line st pre) = false).
  { induction Hpre as [|l ls Hl _ IH]; intros st Hst; simpl; [done|].
    apply IH. destruct Hst as (H1 & H2 & H3).
    unfold scan_line. rewrite Hl, H1, H2, H3. by repeat case_match. }
  by apply G.
Qed.

Lemma scan_after_id post : forall st,
  truthy (s_doc_id st) = true ->
  Forall (fun l => startswith ID_marker l = false) post ->
  s_content_lines (foldl scan_line st post)
  = s_content_lines st ++ filter (fun l => is_marker_line l = false) post.
Proof.
  induction post as [|l ls IH]; intros st Hid Hpost; simpl.
  - by rewrite app_nil_r.
  - apply Forall_cons in Hpost as [Hl Hls].
    assert (Hkeep : s_doc_id (scan_line st l) = s_doc_id st)
      by (by apply scan_line_keeps_id).
    rewrite IH by (by rewrite ?Hkeep). clear IH.
    unfold scan_line. rewrite Hl, Hid. simpl.
    destruct (startswith Tags_marker l) eqn:E1;
      [rewrite filter_cons_False;
         [done|unfold is_marker_line; by rewrite Hl, E1]|].
    destruct (startswith Type_marker l) eqn:E2;
      [rewrite filter_cons_False;
         [done|unfold is_marker_line; by rewrite Hl, E1, E2]|].
    destruct (startswith Related_marker l) eqn:E3;
      [rewrite filter_cons_False;
         [done|unfold is_marker_line; by rewrite Hl, E1, E2, E3]|].
    simpl. rewrite filter_cons_True
      by (unfold is_marker_line; by rewrite Hl, E1, E2, E3).
    destruct (s_in_content st); simpl; by rewrite <- app_assoc.
Qed.

(** X3.  In a section with one ID line, the lines before the ID line are
    never part of the content, and the content is made of all the lines
    after it that do not start with a marker (ID, Tags, Type, Related),
    in their order, joined by newlines and stripped. *)
Theorem content_is_the_plain_lines_after_the_id
    (file_name section : string) (doc : CorpusDocument)
    (pre post : list string) (id_line : string) :
  parse_section file_name section = Some doc ->
  tail (split newline_string section) = pre ++ id_line :: post ->
  startswith ID_marker id_line = true ->
  Forall (fun l => startswith ID_marker l = false) pre ->
  Forall (fun l => startswith ID_marker l = false) post ->
  content doc
  = strip (join newline_string
             (filter (fun l => is_marker_line l = false) post)).
Proof.
  intros (first & rest & Hsplit & Hid & Hne & _ & _ & _ & -> & _)
         %parse_section_fields Htail Hline Hpre Hpost.
  rewrite Hsplit in Htail. simpl in Htail. subst rest.
  f_equal. f_equal.
  pose proof (scan_last_occurrence ID pre post id_line Hline Hpost) as Hlast.
  simpl in Hlast. rewrite Hid in Hlast. injection Hlast as Hpayload.
  unfold scan_lines. rewrite foldl_app. simpl.
  destruct (scan_before_first_id pre Hpre) as (H1 & H2 & H3).
  unfold scan_lines in H1, H2, H3.
  set (st0 := foldl scan_line scan_init pre) in *.
  assert (Hst : scan_line st0 id_line
                = mkScan (Some (doc_id doc)) (s_tags st0) (s_doc_type st0)
                         [] false).
  { unfold scan_line. by rewrite Hline, H2, H3, Hpayload. }
  rewrite Hst, scan_after_id; [done| |done].
  simpl. by destruct (doc_id doc).
Qed.

Lemma content_is_the_plain_lines_after_the_id_witness :
  content annotated_document
  = strip (join newline_string
             (filter (fun l => is_marker_line l = false)
                ["**Tags:** fundamental, category, structure";
                 "**Type:** definition"; ""; "Content goes here..."; "";
                 "**Related:** def-functor-001, def-morphism-001"])).
Proof.
  apply (content_is_the_plain_lines_after_the_id "corpus.md"
           (default "" (split section_sep annotated_file.2 !! 1%nat))
           annotated_document [""] _ "**ID:** def-category-001").
  - reflexivity.
  - reflexivity.
  - reflexivity.
  - repeat constructor.
  - repeat constructor.
Defined.

(** *** Tags *)

Lemma prefix_char c a s :
  String.prefix (String c "") (String a s) = bool_decide (c = a).
Proof.
  simpl. destruct (ascii_dec c a); case_bool_decide; try done.
  by destruct s.
Qed.

Lemma split_go_char_free c s :
  let '(p, ps) := split_go (String c "") 0 s in
  Forall (fun t => contains (String c "") t = false) (p :: ps).
Proof.
  induction s as [|a s IH]; [by repeat constructor|].
  cbn [split_go String.length Nat.sub].
  destruct (split_go (String c "") 0 s) as [p ps].
  apply Forall_cons in IH as [Hp Hps].
  rewrite prefix_char. case_bool_decide as E.
  - by repeat constructor.
  - constructor; [|done]. cbn [contains].
    rewrite prefix_char, Hp. by case_bool_decide.
Qed.

Lemma split_char_free c s :
  Forall (fun t => contains (String c "") t = false) (split (String c "") s).
Proof.
  unfold split. pose proof (split_go_char_free c s) as H.
  by destruct (split_go (String c "") 0 s).
Qed.

Lemma strip_keeps_free m s :
  contains m s = false -> contains m (strip s) = false.
Proof.
  intros H. destruct (contains m (strip s)) eqn:E; [|done].
  apply contains_strip in E. congruence.
Qed.

Lemma split_tags_well_formed p :
  split_tags p <> []
  /\ Forall (fun t => stripped t /\ contains "," t = false) (split_tags p).
Proof.
  unfold split_tags. split.
  - unfold split. by destruct (split_go "," 0 p).
  - apply Forall_fmap. eapply Forall_impl; [apply split_char_free|].
    intros t Ht. simpl. split; [apply strip_stripped|by apply strip_keeps_free].
Qed.

(** X4.  The tags of a parsed document have no white space at either end
    and contain no comma.  A section with a Tags line has at least one
    tag: a Tags line with nothing behind the marker gives one tag, the
    empty string, not an empty list of tags. *)
Theorem tags_are_trimmed_pieces
    (file_name section : string) (doc : CorpusDocument) :
  parse_section file_name section = Some doc ->
  Forall (fun t => stripped t /\ contains "," t = false) (tags doc)
  /\ (forall pre line post,
        tail (split newline_string section) = pre ++ line :: post ->
        startswith Tags_marker line = true ->
        Forall (fun l => startswith Tags_marker l = false) post ->
        tags doc <> []
        /\ (payload Tags_marker line = "" -> tags doc = [""])).
Proof.
  intros (first & rest & Hsplit & _ & _ & _ & -> & _)%parse_section_fields.
  split.
  - apply (scan_invariant
             (fun st => Forall (fun t => stripped t /\ contains "," t = false)
                               (s_tags st))); [constructor|].
    intros st line IH. unfold scan_line.
    repeat case_match; simpl; try apply IH.
    apply split_tags_well_formed.
  - intros pre line post Htail Hline Hpost.
    rewrite Hsplit in Htail. simpl in Htail. subst rest.
    pose proof (scan_last_occurrence Tags pre post line Hline Hpost) as Hlast.
    simpl in Hlast. rewrite Hlast. split.
    + apply split_tags_well_formed.
    + by intros ->.
Qed.

Lemma tags_are_trimmed_pieces_witness :
  Forall (fun t => stripped t /\ contains "," t = false)
         (tags annotated_document).
Proof.
  apply (tags_are_trimmed_pieces "corpus.md"
           (default "" (split section_sep annotated_file.2 !! 1%nat))
           annotated_document).
  reflexivity.
Defined.

(** *** The cluster count, in general *)

(** X5.  For every number of vectors the IVF index is set up with a
    cluster count between 0 and 100 such that ten times the count does not
    exceed the number of vectors; the count is a tenth of the number of
    vectors, rounded down, below 1000 vectors and stays at 100 from 1000
    vectors on.  All the vectors are added to the index. *)
Theorem ivf_cluster_count_bounds (vector_count embedding_dim : Z) :
  (0 <= vector_count)%Z ->
  exists nlist,
    build_faiss_index (vector_count, embedding_dim) "IVF"
    = Some (mkIndex (IndexIVFFlat embedding_dim nlist) vector_count)
    /\ (0 <= nlist <= 100)%Z
    /\ (10 * nlist <= vector_count)%Z
    /\ (vector_count < 1000 -> nlist = vector_count / 10)%Z
    /\ (1000 <= vector_count -> nlist = 100)%Z.
Proof.
  intros Hn. exists (nlist_of vector_count). split; [reflexivity|].
  unfold nlist_of.
  pose proof (Z.div_pos vector_count 10 Hn ltac:(lia)).
  pose proof (Z.mul_div_le vector_count 10 ltac:(lia)).
  assert (vector_count < 1000 -> vector_count / 10 < 100)%Z
    by (intros; apply Z.div_lt_upper_bound; lia).
  assert (1000 <= vector_count -> 100 <= vector_count / 10)%Z
    by (intros; apply Z.div_le_lower_bound; lia).
  repeat split; lia.
Qed.

Lemma ivf_cluster_count_bounds_witness :
  exists nlist,
    build_faiss_index (250, 384)%Z "IVF"
    = Some (mkIndex (IndexIVFFlat 384 nlist) 250)
    /\ (0 <= nlist <= 100)%Z.
Proof.
  destruct (ivf_cluster_count_bounds 250 384) as (n & H1 & H2 & _); [lia|].
  by exists n.
Defined.

(** *** Tokens of the keyword index *)

Lemma rev_app_chars P a b :
  all_chars P (String.rev_app a b) = all_chars P a && all_chars P b.
Proof.
  revert b. induction a as [|c a IH]; intros b; simpl; [done|].
  rewrite IH. simpl. by destruct (P c), (all_chars P a).
Qed.

Lemma rev_chars P a : all_chars P (String.rev a) = all_chars P a.
Proof. unfold String.rev. rewrite rev_app_chars. simpl. apply andb_true_r. Qed.

Lemma rev_app_nonempty a b : b <> "" -> String.rev_app a b <> "".
Proof.
  revert b. induction a as [|c a IH]; intros b Hb; simpl; [done|].
  by apply IH.
Qed.

Lemma rev_nonempty c a : String.rev (String c a) <> "".
Proof. unfold String.rev. simpl. by apply rev_app_nonempty. Qed.

(** Every word is a non-empty run of characters, none of them white
    space, and keeps any property all the characters of the text have. *)
Lemma words_go_spec (P : ascii -> bool) s : forall cur,
  all_chars P cur = true -> all_chars P s = true ->
  all_chars (fun c => negb (is_space c)) cur = true ->
  Forall (fun w => w <> ""
                   /\ all_chars (fun c => negb (is_space c)) w = true
                   /\ all_chars P w = true)
         (words_go cur s).
Proof.
  induction s as [|c s IH]; intros cur Hcur Hs Hsp; simpl.
  - destruct cur as [|a cur]; [constructor|].
    constructor; [|constructor].
    split; [apply rev_nonempty|]. by rewrite !rev_chars.
  - simpl in Hs. apply andb_true_iff in Hs as [Hc Hs].
    destruct (is_space c) eqn:E.
    + destruct cur as [|a cur]; [by apply IH|].
      constructor; [|by apply IH].
      split; [apply rev_nonempty|]. by rewrite !rev_chars.
    + apply IH; simpl; [by rewrite Hc|done|by rewrite E].
Qed.

Lemma lower_char_idemp c : lower_char (lower_char c) = lower_char c.
Proof. by destruct c as [[] [] [] [] [] [] [] []]. Qed.

Lemma lower_chars s :
  all_chars (fun c => bool_decide (lower_char c = c)) (lower s) = true.
Proof.
  induction s as [|c s IH]; [done|]. simpl.
  rewrite IH, bool_decide_eq_true_2; [done|apply lower_char_idemp].
Qed.

Lemma lower_fixed w :
  all_chars (fun c => bool_decide (lower_char c = c)) w = true -> lower w = w.
Proof.
  induction w as [|c w IH]; [done|]. simpl.
  intros [Hc Hw]%andb_true_iff. apply bool_decide_eq_true in Hc.
  by rewrite Hc, IH.
Qed.

(** X6.  The keyword index is built over one list of tokens per metadata
    entry, in the order of the metadata.  Every token is a non-empty
    string without white space, and lowering it changes nothing: no token
    carries an upper-case letter. *)
Theorem keyword_tokens_are_lowered_words
    (metadata : list CorpusDocument) :
  length (build_bm25_index metadata) = length metadata
  /\ forall tokens token,
       tokens ∈ build_bm25_index metadata -> token ∈ tokens ->
       token <> ""
       /\ all_chars (fun c => negb (is_space c)) token = true
       /\ lower token = token.
Proof.
  unfold build_bm25_index. split; [by rewrite length_fmap|].
  intros tokens token (doc & -> & _)%list_elem_of_fmap Htoken.
  unfold words in Htoken.
  pose proof (words_go_spec (fun c => bool_decide (lower_char c = c))
                (lower (title doc +:+ " " +:+ join " " (tags doc)
                        +:+ " " +:+ content doc)) ""
                eq_refl (lower_chars _) eq_refl) as Hspec.
  eapply Forall_forall in Hspec as (H1 & H2 & H3); [|exact Htoken].
  split; [done|]. split; [done|]. by apply lower_fixed.
Qed.

Lemma keyword_tokens_are_lowered_words_witness :
  "first" <> ""
  /\ all_chars (fun c => negb (is_space c)) "first" = true
  /\ lower "first" = "first".
Proof.
  assert (H1 : ["first"; "one"; "first"; "body"]
               ∈ build_bm25_index [first_seen])
    by (vm_compute; apply list_elem_of_here).
  exact (proj2 (keyword_tokens_are_lowered_words [first_seen])
           _ "first" H1 (list_elem_of_here _ _)).
Defined.

(** *** Counts by type *)

Lemma foldl_count_lookup (metadata : list CorpusDocument) t :
  forall m : gmap (option string) nat,
    foldl (fun by_type doc =>
             <[doc_type doc := S (default 0%nat (by_type !! doc_type doc))]>
               by_type) m metadata !! t
    = if decide (filter (fun d => doc_type d = t) metadata = [])
      then m !! t
      else Some (default 0 (m !! t)
                 + length (filter (fun d => doc_type d = t) metadata))%nat.
Proof.
  induction metadata as [|d ds IH]; intros m; simpl; [done|].
  rewrite IH. clear IH.
  destruct (decide (doc_type d = t)) as [<-|Hne].
  - rewrite filter_cons_True by done.
    rewrite lookup_insert_eq. simpl.
    destruct (decide (d :: filter (fun d0 => doc_type d0 = doc_type d) ds = []))
      as [?|_]; [done|].
    case_decide as E.
    + rewrite E. simpl. f_equal. lia.
    + simpl. f_equal. lia.
  - rewrite filter_cons_False by done.
    by rewrite lookup_insert_ne.
Qed.

Lemma map_total_insert (m : gmap (option string) nat) t n :
  map_total (<[t := n]> m)
  = (n + map_total m - default 0 (m !! t))%nat.
Proof.
  unfold map_total.
  assert (Hcomm : forall (m' : gmap (option string) nat) j1 j2 z1 z2 y,
            j1 <> j2 -> m' !! j1 = Some z1 -> m' !! j2 = Some z2 ->
            (z1 + (z2 + y) = z2 + (z1 + y))%nat) by (intros; lia).
  destruct (m !! t) as [v|] eqn:E; simpl.
  - rewrite <- insert_delete_eq.
    rewrite map_fold_insert_L; [|by eauto|apply lookup_delete_eq].
    rewrite <- (insert_delete_id m t v E) at 2.
    rewrite map_fold_insert_L; [|by eauto|apply lookup_delete_eq].
    lia.
  - rewrite map_fold_insert_L; [lia|by eauto|done].
Qed.

Lemma documents_by_type_snoc metadata d :
  documents_by_type (metadata ++ [d])
  = <[doc_type d :=
        S (default 0%nat (documents_by_type metadata !! doc_type d))]>
      (documents_by_type metadata).
Proof. unfold documents_by_type. by rewrite foldl_app. Qed.

Lemma filter_nil_iff {A} (P : A -> Prop) `{!forall a, Decision (P a)}
    (l : list A) :
  filter P l = [] <-> Forall (fun a => ~ P a) l.
Proof.
  induction l as [|a l IH]; [by split; [constructor|]|].
  rewrite filter_cons. case_decide as Ha.
  - split; [done|]. by intros [? _]%Forall_cons.
  - rewrite IH. split; [by constructor|by intros [_ ?]%Forall_cons].
Qed.

(** X7.  In the statistics of the embeddings the count kept for a type is
    the number of metadata entries of that type; a type without entries
    has no count; and the counts add up to the number of documents. *)
Theorem counts_by_type_are_exact
    (shape : Z * Z) (metadata : list CorpusDocument) :
  let stats := save_embeddings_stats shape metadata in
  (forall t,
     default 0%nat (by_type stats !! t)
     = length (filter (fun d => doc_type d = t) metadata))
  /\ (forall t,
        by_type stats !! t = None
        <-> Forall (fun d => doc_type d <> t) metadata)
  /\ map_total (by_type stats) = num_documents stats.
Proof.
  simpl. split; [|split].
  - intros t. unfold documents_by_type. rewrite foldl_count_lookup.
    case_decide as E; [by rewrite E|]. by rewrite lookup_empty.
  - intros t. unfold documents_by_type. rewrite foldl_count_lookup.
    rewrite <- filter_nil_iff. case_decide as E; [by rewrite lookup_empty|].
    split; [done|]. by intros.
  - induction metadata as [|d ds IH] using rev_ind; [done|].
    rewrite documents_by_type_snoc, map_total_insert, IH, length_app.
    simpl. lia.
Qed.

(** *** Edges of a document *)

Lemma extract_relationships_edges node_id content source_file e :
  e ∈ extract_relationships node_id content source_file ->
  etype e <> requires /\ etype e <> uses
  /\ (if decide (etype e = defines) then dst e else src e) = node_id.
Proof.
  unfold extract_relationships. intros [H|H]%elem_of_app.
  - destruct (search_related content); [|by apply elem_of_nil in H].
    apply list_elem_of_fmap in H as (r & -> & _). simpl.
    done.
  - destruct (contains "violation-" node_id);
      [|destruct (contains "pattern-" node_id);
        [|destruct (contains "test-" node_id)]].
    + apply elem_of_app in H as [H|H];
        apply list_elem_of_fmap in H as (r & -> & _); simpl;
        done.
    + apply elem_of_app in H as [H|H];
        apply list_elem_of_fmap in H as (r & -> & _); simpl;
        done.
    + apply list_elem_of_fmap in H as (r & -> & _); simpl.
      done.
    + by apply elem_of_nil in H.
Qed.

Lemma count_Z_zero v l : v ∉ l -> count_Z v l = 0%nat.
Proof.
  intros Hv. unfold count_Z. induction l as [|y l IH]; [done|].
  apply not_elem_of_cons in Hv as [Hne Hv].
  rewrite filter_cons_False by done. by apply IH.
Qed.

Lemma build_graph_unfold b g :
  build_graph b = Some g ->
  let ids := merge_sort String.le (elements (dom (nodes b))) in
  let ns := omap (fun node_id => nodes b !! node_id) ids in
  let resolved := omap (resolve_edge (index_map ids)) (edges b) in
  mapM (fun node => n_type node ≫= NODE_TYPES) ns = Some (node_type g)
  /\ x g = n_embedding <$> ns
  /\ edge_index g = fst <$> resolved
  /\ edge_type g = snd <$> resolved
  /\ node_ids g = ids
  /\ node_to_idx g = index_map ids.
Proof.
  unfold build_graph. intros H.
  destruct (mapM _ _) as [node_types|] eqn:E; [|done].
  cbn [mbind option_bind] in H.
  destruct (np_array _) as [rows|] eqn:Hrows; [|done].
  cbn [mbind option_bind] in H. injection H as <-. cbn [x node_type
    edge_index edge_type node_ids node_to_idx].
  repeat split. unfold np_array in Hrows.
  destruct (n_embedding <$> _) as [|row rest]; [by injection Hrows|].
  case_decide; [by injection Hrows|done].
Qed.

(** [np_array] returns the rows as they are, when they all have one
    length. *)
Lemma np_array_is_Some (rows : list (list Q)) :
  is_Some (np_array rows)
  <-> forall r1 r2, r1 ∈ rows -> r2 ∈ rows -> length r1 = length r2.
Proof.
  unfold np_array. destruct rows as [|row rest]; [split; [|by eexists]|].
  - by intros _ r1 r2 ?%elem_of_nil.
  - case_decide as H; split.
    + intros _ r1 r2 H1 H2.
      rewrite Forall_forall in H. by rewrite (H _ H1), (H _ H2).
    + by eexists.
    + by intros [? ?].
    + intros Hall. destruct H. apply Forall_forall. intros r Hr.
      apply Hall; [done|apply list_elem_of_here].
Qed.

Lemma build_graph_rows b g r1 r2 :
  build_graph b = Some g -> r1 ∈ x g -> r2 ∈ x g -> length r1 = length r2.
Proof.
  unfold build_graph. intros H.
  destruct (mapM _ _) as [node_types|]; [|done].
  cbn [mbind option_bind] in H.
  destruct (np_array _) as [rows|] eqn:Hrows; [|done].
  cbn [mbind option_bind] in H. injection H as <-. cbn [x].
  assert (Hsome : is_Some (np_array
            (n_embedding <$> omap (fun node_id => nodes b !! node_id)
               (merge_sort String.le (elements (dom (nodes b)))))))
    by (by eexists).
  rewrite np_array_is_Some in Hsome.
  assert (rows = n_embedding <$> omap (fun node_id => nodes b !! node_id)
               (merge_sort String.le (elements (dom (nodes b))))) as ->.
  { unfold np_array in Hrows.
    destruct (n_embedding <$> _) as [|row rest]; [by injection Hrows|].
    case_decide; [by injection Hrows|done]. }
  apply Hsome.
Qed.

Lemma resolved_edge_types idx es :
  Forall (fun r => exists e, e ∈ es /\ r.2 = EDGE_TYPES (etype e))
         (omap (resolve_edge idx) es).
Proof.
  apply Forall_forall. intros r (e & He & Hr)%list_elem_of_omap.
  exists e. split; [done|]. unfold resolve_edge in Hr.
  repeat case_match; by simplify_eq.
Qed.

(** X8.  Whatever the corpus, the builder creates edges of six types
    only: no edge of type requires or uses is ever built, and the saved
    statistics count 0 edges for both.  Every edge has the document it was
    extracted from at one end: at its destination if it is a defines edge,
    at its source otherwise. *)
Theorem builder_never_makes_requires_or_uses
    (embeddings : list (list Q)) (metadata : list CorpusDocument)
    (b : KnowledgeGraphBuilder) :
  parse_corpus builder_init embeddings metadata = Some b ->
  Forall (fun e =>
            etype e <> requires /\ etype e <> uses
            /\ exists doc,
                 doc ∈ metadata
                 /\ (if decide (etype e = defines) then dst e else src e)
                    = doc_id doc)
         (edges b)
  /\ forall artifacts,
       build_and_save b = Some artifacts ->
       (requires, 0%nat) ∈ edges_by_type (a_stats artifacts)
       /\ (uses, 0%nat) ∈ edges_by_type (a_stats artifacts).
Proof.
  intros [lookup ->]%parse_corpus_unfold.
  assert (Hedges : Forall (fun e =>
            etype e <> requires /\ etype e <> uses
            /\ exists doc,
                 doc ∈ metadata
                 /\ (if decide (etype e = defines) then dst e else src e)
                    = doc_id doc)
         (edges (foldl (add_document lookup) builder_init metadata))).
  { rewrite add_documents_edges. simpl.
    apply Forall_forall. intros e (doc & He & Hdoc)%list_elem_of_bind.
    apply extract_relationships_edges in He as (H1 & H2 & Hend).
    split; [done|]. split; [done|]. by exists doc. }
  split; [done|].
  intros artifacts Hsave. unfold build_and_save in Hsave.
  apply bind_Some in Hsave as (g & Hg & Hsave).
  apply build_graph_unfold in Hg as (_ & _ & _ & Het & _ & _).
  unfold save_graph_tensor in Hsave.
  apply bind_Some in Hsave as (row & _ & [= <-]). simpl.
  assert (Hno : forall t, (t = requires \/ t = uses) ->
                  count_Z (EDGE_TYPES t) (edge_type g) = 0%nat).
  { intros t Ht. apply count_Z_zero. rewrite Het.
    intros (r & Hr & Hin)%list_elem_of_fmap.
    destruct (proj1 (Forall_forall _ _) (resolved_edge_types _ _) _ Hin)
      as (e & He & Hcode).
    eapply Forall_forall in Hedges as (H1 & H2 & _); [|exact He].
    rewrite Hcode in Hr.
    destruct Ht as [-> | ->], (etype e); simplify_eq/=; done. }
  split.
  - rewrite <- (Hno requires) by auto. in_list.
  - rewrite <- (Hno uses) by auto. in_list.
Qed.

Lemma builder_never_makes_requires_or_uses_witness :
  Forall (fun e => etype e <> requires /\ etype e <> uses) (edges small_builder).
Proof.
  destruct (builder_never_makes_requires_or_uses
              small_embeddings small_metadata small_builder eq_refl)
    as [H _].
  eapply Forall_impl; [exact H|]. by intros e (H1 & H2 & _).
Defined.

(** *** Loading the corpus into the builder *)

Lemma embedding_lookup_spec embeddings : forall metadata acc,
  embedding_lookup embeddings metadata acc
  = if decide (length metadata <= length embeddings)%nat
    then Some (foldl (fun m de => <[doc_id de.1 := de.2]> m) acc
                 (zip metadata embeddings))
    else None.
Proof.
  induction embeddings as [|e es IH]; intros [|d ds] acc; simpl; try done.
  rewrite IH. repeat case_decide; try done; lia.
Qed.

Lemma foldl_insert_last {D A} (key : D -> string)
    (pre post : list (D * A)) d v :
  forall acc : gmap string A,
    Forall (fun kv => key kv.1 <> key d) post ->
    foldl (fun m kv => <[key kv.1 := kv.2]> m) acc (pre ++ (d, v) :: post)
      !! key d
    = Some v.
Proof.
  intros acc Hpost. rewrite foldl_app. simpl.
  generalize (foldl (fun m kv => <[key kv.1 := kv.2]> m) acc pre). intros m.
  assert (G : forall m : gmap string A,
            m !! key d = Some v ->
            foldl (fun m kv => <[key kv.1 := kv.2]> m) m post !! key d
            = Some v).
  { induction Hpost as [|kv post Hkv _ IH]; intros m' Hm; simpl; [done|].
    apply IH. by rewrite lookup_insert_ne. }
  apply G, lookup_insert_eq.
Qed.

Lemma add_documents_node lookup pre d post (b : KnowledgeGraphBuilder) :
  Forall (fun d' => doc_id d' <> doc_id d) post ->
  nodes (foldl (add_document lookup) b (pre ++ d :: post)) !! doc_id d
  = Some (mkNode (doc_id d) (doc_type d) (tags d)
            (default [] (lookup !! doc_id d))).
Proof.
  intros Hpost. rewrite foldl_app. simpl.
  rewrite add_documents_other by done.
  unfold add_document at 1; simpl. by rewrite lookup_insert_eq.
Qed.

Lemma add_documents_dom lookup docs : forall b : KnowledgeGraphBuilder,
  dom (nodes (foldl (add_document lookup) b docs))
  = dom (nodes b) ∪ list_to_set (doc_id <$> docs).
Proof.
  induction docs as [|d ds IH]; intros b.
  - simpl. by rewrite (right_id_L ∅ (∪)).
  - cbn [foldl]. rewrite IH, fmap_cons, list_to_set_cons.
    unfold add_document at 1; simpl. rewrite dom_insert_L.
    by rewrite (comm_L (∪) {[doc_id d]} (dom (nodes b))), (assoc_L (∪)).
Qed.

(** X9.  [parse_corpus] needs one row of embeddings per metadata entry:
    it succeeds exactly when there are at least as many rows as entries.
    Afterwards the ids of the nodes are the ids the builder had together
    with the ids of the metadata, and the node of an id carries the type,
    the tags and the row of embeddings of the last entry with that
    id. *)
Theorem parse_corpus_loads_the_last_entry_of_each_id
    (b : KnowledgeGraphBuilder) (embeddings : list (list Q))
    (metadata : list CorpusDocument) :
  (is_Some (parse_corpus b embeddings metadata)
   <-> (length metadata <= length embeddings)%nat)
  /\ forall b',
       parse_corpus b embeddings metadata = Some b' ->
       dom (nodes b') = dom (nodes b) ∪ list_to_set (doc_id <$> metadata)
       /\ forall pre d post row,
            metadata = pre ++ d :: post ->
            Forall (fun d' => doc_id d' <> doc_id d) post ->
            embeddings !! length pre = Some row ->
            nodes b' !! doc_id d
            = Some (mkNode (doc_id d) (doc_type d) (tags d) row).
Proof.
  unfold parse_corpus. rewrite embedding_lookup_spec. split.
  - case_decide as Hlen; simpl.
    + split; [done|]. by eexists.
    + split; [by intros [? ?]|]. intros. lia.
  - case_decide as Hlen; [|done]. simpl. intros b' [= <-].
    split; [apply add_documents_dom|].
    intros pre d post row -> Hpost Hrow.
    rewrite add_documents_node by done. do 2 f_equal.
    assert (Hemb : embeddings
                   = take (length pre) embeddings
                     ++ row :: drop (S (length pre)) embeddings)
      by (symmetry; by apply take_drop_middle).
    rewrite Hemb at 1.
    assert (Htake : length (take (length pre) embeddings) = length pre).
    { rewrite length_take. apply lookup_lt_Some in Hrow. lia. }
    rewrite zip_with_app by done. simpl.
    rewrite (foldl_insert_last doc_id
               (zip pre (take (length pre) embeddings))
               (zip post (drop (S (length pre)) embeddings))
               d row); [done|].
    apply Forall_forall. intros [d' e'] Hin. simpl.
    apply elem_of_zip_l in Hin.
    by eapply Forall_forall in Hpost.
Qed.

Lemma parse_corpus_loads_the_last_entry_of_each_id_witness :
  nodes small_builder !! "law-assoc-001"
  = Some (mkNode "law-assoc-001" (Some "law") [] [0; 1]%Q).
Proof.
  apply (proj2 (proj2 (parse_corpus_loads_the_last_entry_of_each_id
                         builder_init small_embeddings small_metadata)
                  small_builder eq_refl)
           [violation_doc] law_doc [fix_doc] [0; 1]%Q).
  - reflexivity.
  - repeat constructor; discriminate.
  - reflexivity.
Defined.

(** *** The graph object *)

Section GraphOf.
Context (b : KnowledgeGraphBuilder).

Let ids := merge_sort String.le (elements (dom (nodes b))).
Let ns := omap (fun node_id => nodes b !! node_id) ids.

Lemma ids_elem id : id ∈ ids <-> is_Some (nodes b !! id).
Proof.
  unfold ids. by rewrite merge_sort_Permutation, elem_of_elements, elem_of_dom.
Qed.

Lemma ids_NoDup : NoDup ids.
Proof. unfold ids. rewrite merge_sort_Permutation. apply NoDup_elements. Qed.

Lemma ids_length : length ids = size (nodes b).
Proof.
  unfold ids. rewrite merge_sort_Permutation.
  by rewrite <- size_dom.
Qed.

Lemma ids_nodes : Forall2 (fun id node => nodes b !! id = Some node) ids ns.
Proof.
  unfold ns.
  assert (H : Forall (fun id => is_Some (nodes b !! id)) ids)
    by (apply Forall_forall; intros id; apply ids_elem).
  induction H as [|id l [node Hnode] _ IH]; csimpl; [constructor|].
  rewrite Hnode. csimpl. by constructor.
Qed.

Lemma ns_elem node : node ∈ ns <-> exists id, nodes b !! id = Some node.
Proof.
  unfold ns. rewrite list_elem_of_omap. split.
  - intros (id & _ & H). by exists id.
  - intros (id & H). exists id. split; [|done]. apply ids_elem. by eexists.
Qed.

Lemma ns_nil : ns = [] <-> nodes b = ∅.
Proof.
  pose proof (Forall2_length _ _ _ ids_nodes) as Hlen.
  rewrite ids_length in Hlen. split.
  - intros H. rewrite H in Hlen. by apply map_size_empty_inv.
  - intros H. rewrite H, map_size_empty in Hlen.
    by destruct ns.
Qed.

Lemma index_map_lookup i k :
  index_map ids !! k = Some i <-> ids !! i = Some k.
Proof.
  unfold index_map.
  assert (Hfst : (reverse (imap (fun idx node_id => (node_id, idx)) ids)).*1
                 = reverse ids).
  { rewrite fmap_reverse, fmap_imap.
    rewrite (imap_ext _ (const id)) by done.
    by rewrite imap_const, list_fmap_id. }
  rewrite <- elem_of_list_to_map
    by (rewrite Hfst, reverse_Permutation; apply ids_NoDup).
  rewrite elem_of_reverse, elem_of_lookup_imap. split.
  - by intros (j & y & [= -> ->] & H).
  - intros H. by exists i, k.
Qed.

Lemma index_map_is_Some id :
  is_Some (index_map ids !! id) <-> is_Some (nodes b !! id).
Proof.
  rewrite <- ids_elem, list_elem_of_lookup. split.
  - intros [i H]. exists i. by apply index_map_lookup.
  - intros [i H]. exists i. by apply index_map_lookup.
Qed.

(** The edges that are kept, with the positions of their ends. *)
Lemma resolved_edges es :
  Forall2 (fun e r =>
             ids !! r.1.1 = Some (src e) /\ ids !! r.1.2 = Some (dst e)
             /\ r.2 = EDGE_TYPES (etype e))
          (filter (resolvable (nodes b)) es)
          (omap (resolve_edge (index_map ids)) es).
Proof.
  induction es as [|e es IH]; [constructor|]. csimpl.
  unfold resolve_edge at 1.
  destruct (index_map ids !! src e) as [i|] eqn:Ei.
  - destruct (index_map ids !! dst e) as [j|] eqn:Ej.
    + rewrite filter_cons_True.
      * csimpl. constructor; [|done]. simpl.
        by rewrite <- !index_map_lookup.
      * split; apply index_map_is_Some; by eexists.
    + rewrite filter_cons_False; [done|].
      intros [_ H%index_map_is_Some]. rewrite Ej in H. by destruct H.
  - rewrite filter_cons_False; [done|].
    intros [H%index_map_is_Some _]. rewrite Ei in H. by destruct H.
Qed.

End GraphOf.

Lemma NODE_TYPES_Some name code :
  NODE_TYPES name = Some code ->
  name ∈ NODE_TYPE_NAMES /\ (0 <= code <= 6)%Z.
Proof.
  unfold NODE_TYPES, NODE_TYPE_NAMES.
  repeat case_decide; intros [= <-]; subst; (split; [in_list|lia]).
Qed.

Lemma NODE_TYPES_known name :
  name ∈ NODE_TYPE_NAMES -> is_Some (NODE_TYPES name).
Proof.
  unfold NODE_TYPE_NAMES. intros H.
  repeat (apply elem_of_cons in H as [->|H]; [by eexists|]).
  by apply elem_of_nil in H.
Qed.

Lemma node_type_known (node : Node) :
  is_Some (n_type node ≫= NODE_TYPES)
  <-> exists name, n_type node = Some name /\ name ∈ NODE_TYPE_NAMES.
Proof.
  split.
  - intros [code (name & Hname & Hcode)%bind_Some].
    exists name. split; [done|]. by apply NODE_TYPES_Some in Hcode as [? _].
  - intros (name & -> & Hname). simpl. by apply NODE_TYPES_known.
Qed.

(** X10.  [build_graph] succeeds exactly when every node has one of the
    seven node types and all the embeddings have one length: a node
    without a type, or with another type, makes it fail, and so do two
    embeddings of different length (as two calls of [parse_corpus] with
    embeddings of different dimension leave them).  Building and saving
    succeeds exactly when, in addition, there is at least one node. *)
Theorem build_graph_needs_known_node_types (b : KnowledgeGraphBuilder) :
  let buildable :=
    (forall id node,
       nodes b !! id = Some node ->
       exists name, n_type node = Some name /\ name ∈ NODE_TYPE_NAMES)
    /\ (forall id1 id2 node1 node2,
          nodes b !! id1 = Some node1 -> nodes b !! id2 = Some node2 ->
          length (n_embedding node1) = length (n_embedding node2)) in
  (is_Some (build_graph b) <-> buildable)
  /\ (is_Some (build_and_save b) <-> nodes b <> ∅ /\ buildable).
Proof.
  intros buildable.
  set (ns := omap (fun node_id => nodes b !! node_id)
               (merge_sort String.le (elements (dom (nodes b))))).
  assert (Htypes :
    is_Some (mapM (fun node => n_type node ≫= NODE_TYPES) ns)
    <-> forall id node,
          nodes b !! id = Some node ->
          exists name, n_type node = Some name /\ name ∈ NODE_TYPE_NAMES).
  { rewrite mapM_is_Some, Forall_forall. split.
    - intros H id node Hnode. apply node_type_known, H, ns_elem.
      by exists id.
    - intros H node [id Hnode]%ns_elem. apply node_type_known.
      by eapply H. }
  assert (Hrows :
    is_Some (np_array (n_embedding <$> ns))
    <-> forall id1 id2 node1 node2,
          nodes b !! id1 = Some node1 -> nodes b !! id2 = Some node2 ->
          length (n_embedding node1) = length (n_embedding node2)).
  { rewrite np_array_is_Some. split.
    - intros H id1 id2 node1 node2 H1 H2.
      apply H; apply list_elem_of_fmap; eexists; (split; [done|]);
        apply ns_elem; by eexists.
    - intros H r1 r2 (node1 & -> & [id1 H1]%ns_elem)%list_elem_of_fmap
                     (node2 & -> & [id2 H2]%ns_elem)%list_elem_of_fmap.
      by eapply H. }
  assert (Hgraph : is_Some (build_graph b) <-> buildable).
  { unfold buildable. rewrite <- Htypes, <- Hrows. unfold build_graph.
    fold ns. split.
    - intros [g (node_types & Hm & (rows & Hr & _)%bind_Some)%bind_Some].
      split; by eexists.
    - intros [[node_types ->] [rows ->]]. by eexists. }
  split; [exact Hgraph|].
  unfold build_and_save. split.
  - intros [a (g & Hg & Hsave)%bind_Some].
    split; [|apply Hgraph; by eexists].
    intros Hempty. apply ns_nil in Hempty.
    apply build_graph_unfold in Hg as (_ & Hx & _).
    unfold save_graph_tensor in Hsave.
    rewrite Hx, Hempty in Hsave. done.
  - intros [Hne [g Hg]%Hgraph]. rewrite Hg. simpl.
    pose proof (build_graph_unfold _ _ Hg) as (_ & Hx & _).
    unfold save_graph_tensor. rewrite Hx.
    destruct (omap _ _) as [|node l] eqn:E.
    + by apply ns_nil in E.
    + by eexists.
Qed.

Lemma build_graph_needs_known_node_types_witness :
  nodes small_builder <> ∅
  /\ build_graph ragged_builder = None.
Proof.
  split.
  - apply (proj1 (proj2 (build_graph_needs_known_node_types small_builder))).
    vm_compute. by eexists.
  - destruct (build_graph ragged_builder) as [g|] eqn:E; [|done].
    assert (Hsome : is_Some (build_graph ragged_builder)) by (by eexists).
    apply (proj1 (build_graph_needs_known_node_types ragged_builder))
      in Hsome as [_ Hrows].
    assert (H1 : nodes ragged_builder !! "law-assoc-001"
                 = Some (mkNode "law-assoc-001" (Some "law") [] [0; 1]%Q))
      by (vm_compute; reflexivity).
    assert (H2 : nodes ragged_builder !! "law-wide-002"
                 = Some (mkNode "law-wide-002" (Some "law") [] [1; 0; 0]%Q))
      by (vm_compute; reflexivity).
    by specialize (Hrows _ _ _ _ H1 H2).
Defined.

(** X11.  In the graph object the node ids stand in ascending order
    without repetition and are exactly the ids of the builder's nodes; the
    rows of features and the type codes are as many as the nodes; the
    index map sends an id to a position exactly when the list of ids has
    the id at that position; and at the position of an id stand the
    embedding and the type code of the node of that id. *)
Theorem graph_rows_follow_the_sorted_ids
    (b : KnowledgeGraphBuilder) (g : Data) :
  build_graph b = Some g ->
  StronglySorted String.le (node_ids g)
  /\ NoDup (node_ids g)
  /\ (forall id, id ∈ node_ids g <-> is_Some (nodes b !! id))
  /\ length (node_ids g) = size (nodes b)
  /\ length (x g) = size (nodes b)
  /\ length (node_type g) = size (nodes b)
  /\ (forall i id, node_to_idx g !! id = Some i <-> node_ids g !! i = Some id)
  /\ (forall i id,
        node_ids g !! i = Some id ->
        exists node code,
          nodes b !! id = Some node
          /\ x g !! i = Some (n_embedding node)
          /\ n_type node ≫= NODE_TYPES = Some code
          /\ node_type g !! i = Some code).
Proof.
  intros (Htypes & -> & _ & _ & -> & ->)%build_graph_unfold.
  pose proof (ids_nodes b) as Hnodes.
  pose proof (Forall2_length _ _ _ Hnodes) as Hlen.
  apply mapM_Some in Htypes.
  pose proof (Forall2_length _ _ _ Htypes) as Hlen'.
  split; [apply StronglySorted_merge_sort; apply _|].
  split; [apply ids_NoDup|]. split; [apply ids_elem|].
  split; [apply ids_length|].
  split; [by rewrite length_fmap, <- Hlen, ids_length|].
  split; [by rewrite <- Hlen', <- Hlen, ids_length|].
  split; [intros i id; apply index_map_lookup|].
  intros i id Hi.
  destruct (Forall2_lookup_l _ _ _ _ _ Hnodes Hi) as (node & Hn & Hnode).
  destruct (Forall2_lookup_l _ _ _ _ _ Htypes Hn) as (code & Hc & Hcode).
  exists node, code. split; [done|].
  split; [by rewrite list_lookup_fmap, Hn|]. done.
Qed.

Lemma graph_rows_follow_the_sorted_ids_witness :
  exists g,
    build_graph small_builder = Some g
    /\ node_ids g = ["fix-swap-001"; "law-assoc-001"; "violation-swap-001"]
    /\ StronglySorted String.le (node_ids g).
Proof.
  eexists. split; [vm_compute; reflexivity|]. split; [reflexivity|].
  apply (graph_rows_follow_the_sorted_ids small_builder). reflexivity.
Defined.

Lemma build_graph_edges
    (b : KnowledgeGraphBuilder) (g : Data) :
  build_graph b = Some g ->
  Forall2 (fun e column =>
             node_ids g !! column.1 = Some (src e)
             /\ node_ids g !! column.2 = Some (dst e))
          (filter (resolvable (nodes b)) (edges b)) (edge_index g)
  /\ edge_type g
     = (fun e => EDGE_TYPES (etype e))
         <$> filter (resolvable (nodes b)) (edges b)
  /\ Forall (fun column =>
               (column.1 < length (node_ids g))%nat
               /\ (column.2 < length (node_ids g))%nat)
            (edge_index g).
Proof.
  intros (_ & _ & -> & -> & -> & _)%build_graph_unfold.
  pose proof (resolved_edges b (edges b)) as Hres.
  assert (H1 : Forall2 (fun e column =>
             merge_sort String.le (elements (dom (nodes b))) !! column.1
             = Some (src e)
             /\ merge_sort String.le (elements (dom (nodes b))) !! column.2
                = Some (dst e))
          (filter (resolvable (nodes b)) (edges b))
          (omap (resolve_edge
                   (index_map
                      (merge_sort String.le (elements (dom (nodes b))))))
             (edges b)).*1).
  { apply Forall2_fmap_r. eapply Forall2_impl; [exact Hres|].
    by intros e r (? & ? & _). }
  split; [exact H1|]. split.
  - revert Hres. generalize (filter (resolvable (nodes b)) (edges b)).
    generalize (omap (resolve_edge
                        (index_map
                           (merge_sort String.le (elements (dom (nodes b))))))
                  (edges b)).
    intros rs es Hres.
    induction Hres as [|e r es rs (_ & _ & Hr) _ IH]; [done|].
    csimpl. by rewrite Hr, IH.
  - revert H1. generalize (filter (resolvable (nodes b)) (edges b)).
    intros es H1. induction H1 as [|e c es cs [Hs Hd] _ IH]; constructor.
    + split; by eapply lookup_lt_Some.
    + exact IH.
Qed.

(** X12.  The edges of the graph object are the builder's edges whose two
    ends are node ids, in the builder's order and as often as they occur
    there: each column holds the positions of the source and of the
    destination in the list of node ids, and the edge types are the codes
    of their types.  So every column points at nodes of the graph. *)
Theorem graph_edges_are_the_resolvable_edges
    (b : KnowledgeGraphBuilder) (g : Data) :
  build_graph b = Some g ->
  Forall2 (fun e column =>
             node_ids g !! column.1 = Some (src e)
             /\ node_ids g !! column.2 = Some (dst e))
          (filter (resolvable (nodes b)) (edges b)) (edge_index g)
  /\ edge_type g
     = (fun e => EDGE_TYPES (etype e))
         <$> filter (resolvable (nodes b)) (edges b)
  /\ Forall (fun column =>
               (column.1 < length (node_ids g))%nat
               /\ (column.2 < length (node_ids g))%nat)
            (edge_index g).
Proof. apply build_graph_edges. Qed.

Lemma graph_edges_are_the_resolvable_edges_witness :
  exists g,
    build_graph small_builder = Some g
    /\ edge_index g = [(2, 0); (2, 1)]%nat
    /\ Forall (fun column =>
                 (column.1 < length (node_ids g))%nat
                 /\ (column.2 < length (node_ids g))%nat)
              (edge_index g).
Proof.
  eexists. split; [vm_compute; reflexivity|]. split; [reflexivity|].
  apply (graph_edges_are_the_resolvable_edges small_builder). reflexivity.
Defined.

(** *** The saved statistics *)

Lemma count_Z_cons v c l :
  count_Z v (c :: l)
  = if decide (c = v) then S (count_Z v l) else count_Z v l.
Proof. unfold count_Z. rewrite filter_cons. by case_decide. Qed.

Lemma node_counts_add_up (l : list Z) :
  Forall (fun c => 0 <= c <= 6)%Z l ->
  total ((fun name =>
            (name, from_option (fun v => count_Z v l) 0%nat (NODE_TYPES name)))
           <$> NODE_TYPE_NAMES)
  = length l.
Proof.
  intros H.
  change (count_Z 0 l
          + (count_Z 1 l
             + (count_Z 2 l
                + (count_Z 3 l
                   + (count_Z 4 l + (count_Z 5 l + (count_Z 6 l + 0))))))
          = length l)%nat.
  induction H as [|c l Hc _ IH]; [done|].
  rewrite !count_Z_cons. simpl length. rewrite <- IH.
  repeat case_decide; lia.
Qed.

Lemma edge_counts_add_up (l : list Z) :
  Forall (fun c => 0 <= c <= 7)%Z l ->
  total ((fun t => (t, count_Z (EDGE_TYPES t) l)) <$> EDGE_TYPE_NAMES)
  = length l.
Proof.
  intros H.
  change (count_Z 0 l
          + (count_Z 1 l
             + (count_Z 2 l
                + (count_Z 3 l
                   + (count_Z 4 l
                      + (count_Z 5 l
                         + (count_Z 6 l + (count_Z 7 l + 0)))))))
          = length l)%nat.
  induction H as [|c l Hc _ IH]; [done|].
  rewrite !count_Z_cons. simpl length. rewrite <- IH.
  repeat case_decide; lia.
Qed.

(** X13.  The saved statistics agree with the builder and add up: the
    number of nodes is the number of the builder's nodes; the number of
    edges is the number of the builder's edges with both ends among the
    nodes, never more than the builder holds; the counts of nodes by type
    add up to the number of nodes, and the counts of edges by type to the
    number of edges. *)
Theorem saved_statistics_add_up
    (b : KnowledgeGraphBuilder) (artifacts : Artifacts) :
  build_and_save b = Some artifacts ->
  let stats := a_stats artifacts in
  build_graph b = Some (a_graph artifacts)
  /\ num_nodes stats = size (nodes b)
  /\ num_edges stats = length (filter (resolvable (nodes b)) (edges b))
  /\ (num_edges stats <= length (edges b))%nat
  /\ total (nodes_by_type stats) = num_nodes stats
  /\ total (edges_by_type stats) = num_edges stats.
Proof.
  unfold build_and_save. intros (g & Hg & Hsave)%bind_Some.
  unfold save_graph_tensor in Hsave.
  apply bind_Some in Hsave as (row & _ & [= <-]).
  cbn [a_stats a_graph num_nodes num_edges nodes_by_type edges_by_type].
  split; [done|].
  destruct (build_graph_edges b g Hg) as (Hcols & Htypes & _).
  pose proof (build_graph_unfold _ _ Hg) as (Hm & Hx & _ & _ & _ & _).
  pose proof (Forall2_length _ _ _ (ids_nodes b)) as Hlen.
  split; [by rewrite Hx, length_fmap, <- Hlen, ids_length|].
  split; [symmetry; by eapply Forall2_length|].
  split.
  - rewrite <- (Forall2_length _ _ _ Hcols). apply length_filter.
  - split.
    + transitivity (length (node_type g)).
      * apply node_counts_add_up.
        apply mapM_Some in Hm. apply Forall_forall. intros c Hc.
        apply list_elem_of_lookup in Hc as [i Hi].
        destruct (Forall2_lookup_r _ _ _ _ _ Hm Hi) as (node & _ & Hnode).
        apply bind_Some in Hnode as (name & _ & Hcode).
        by apply NODE_TYPES_Some in Hcode as [_ ?].
      * apply mapM_Some, Forall2_length in Hm.
        by rewrite <- Hm, Hx, length_fmap.
    + transitivity (length (edge_type g)).
      * apply edge_counts_add_up.
        rewrite Htypes. apply Forall_fmap, Forall_forall. intros e _. simpl.
        destruct (etype e); simpl; lia.
      * rewrite Htypes, length_fmap. by eapply Forall2_length.
Qed.

Lemma saved_statistics_add_up_witness :
  exists artifacts,
    build_and_save small_builder = Some artifacts
    /\ num_nodes (a_stats artifacts) = 3%nat
    /\ num_edges (a_stats artifacts) = 2%nat
    /\ total (edges_by_type (a_stats artifacts))
       = num_edges (a_stats artifacts).
Proof.
  eexists. split; [vm_compute; reflexivity|].
  split; [reflexivity|]. split; [reflexivity|].
  apply (saved_statistics_add_up small_builder). reflexivity.
Defined.

(** *** Semantic search, slot by slot *)

(** The position [l[i]] reads for an integer [i]. *)
Lemma py_index_spec {A} (l : list A) (i : Z) (a : A) :
  py_index l i = Some a
  <-> (- Z.of_nat (length l) <= i < Z.of_nat (length l))%Z
      /\ l !! Z.to_nat (i `mod` Z.of_nat (length l)) = Some a.
Proof.
  unfold py_index.
  destruct (Z.leb_spec 0 i) as [Hi|Hi].
  - split.
    + intros H. pose proof (lookup_lt_Some _ _ _ H) as Hlt.
      split; [lia|]. rewrite Z.mod_small by lia. done.
    + intros [Hr H]. by rewrite Z.mod_small in H by lia.
  - destruct (Z.leb_spec (- Z.of_nat (length l)) i) as [Hlo|Hlo].
    + assert (Hmod : (i `mod` Z.of_nat (length l)
                      = Z.of_nat (length l) + i)%Z).
      { symmetry. apply (Z.mod_unique _ _ (-1)); lia. }
      rewrite Hmod. split; [intros H; split; [lia|done]|by intros [_ H]].
    + split; [done|]. intros [? _]. lia.
Qed.

Lemma py_index_in_range {A} (l : list A) (i : Z) :
  is_Some (py_index l i)
  <-> (- Z.of_nat (length l) <= i < Z.of_nat (length l))%Z.
Proof.
  split.
  - intros [a Ha]. by apply py_index_spec in Ha as [? _].
  - intros Hr.
    assert (Hlt : (Z.to_nat (i `mod` Z.of_nat (length l)) < length l)%nat).
    { pose proof (Z.mod_pos_bound i (Z.of_nat (length l))). lia. }
    apply lookup_lt_is_Some in Hlt as [a Ha].
    exists a. by apply py_index_spec.
Qed.

(** X14.  When the index answers with as many labels as distances, the
    semantic search succeeds exactly when every label lies between minus
    the number of metadata entries and that number (excluded); it then
    returns one result per slot of the answer, in the order of the slots,
    whatever was asked for: the result of a slot has the distance of the
    slot as score and the metadata entry at the position of the label,
    counted from the end for a negative label (so the label -1 gives the
    last entry). *)
Theorem semantic_results_follow_the_slots
    (metadata : list CorpusDocument) (faiss_search : nat -> list Z * list Q)
    (top_k : nat) :
  let indices := (faiss_search top_k).1 in
  let distances := (faiss_search top_k).2 in
  let n := Z.of_nat (length metadata) in
  length indices = length distances ->
  (is_Some (query_semantic metadata faiss_search top_k)
   <-> Forall (fun idx => - n <= idx < n)%Z indices)
  /\ forall results,
       query_semantic metadata faiss_search top_k = Some results ->
       length results = length indices
       /\ forall i idx dist,
            indices !! i = Some idx -> distances !! i = Some dist ->
            exists doc,
              results !! i = Some (mkResult doc dist semantic None None)
              /\ metadata !! Z.to_nat (idx `mod` n) = Some doc.
Proof.
  intros indices distances n Hlen. subst indices distances.
  unfold query_semantic.
  destruct (faiss_search top_k) as [indices distances]. simpl in *.
  split.
  - rewrite mapM_is_Some, !Forall_forall. split.
    + intros H idx Hidx.
      apply list_elem_of_lookup in Hidx as [i Hi].
      destruct (lookup_lt_is_Some_2 distances i) as [dist Hd];
        [rewrite <- Hlen; by eapply lookup_lt_Some|].
      assert (Hin : (idx, dist) ∈ zip indices distances).
      { apply list_elem_of_lookup. exists i.
        by rewrite lookup_zip_with, Hi, Hd. }
      specialize (H _ Hin). simpl in H.
      destruct (py_index metadata idx) as [doc|] eqn:E;
        [|by destruct H].
      apply py_index_in_range. by eexists.
    + intros H [idx dist] Hin. simpl.
      apply elem_of_zip_l in Hin. apply H, py_index_in_range in Hin as [doc ->].
      by eexists.
  - intros results Hres. apply mapM_Some in Hres.
    split.
    { rewrite <- (Forall2_length _ _ _ Hres), length_zip_with. lia. }
    intros i idx dist Hi Hd.
    assert (Hz : zip indices distances !! i = Some (idx, dist))
      by (by rewrite lookup_zip_with, Hi, Hd).
    destruct (Forall2_lookup_l _ _ _ _ _ Hres Hz) as (r & Hr & Hdoc).
    simpl in Hdoc. apply bind_Some in Hdoc as (doc & Hdoc & [= <-]).
    exists doc. split; [done|]. by apply py_index_spec in Hdoc as [_ ?].
Qed.

Lemma semantic_results_follow_the_slots_witness :
  exists results,
    query_semantic [doc_a; doc_b] (flat_search [0; 1]%Q) 3 = Some results
    /\ length results = 3%nat.
Proof.
  eexists. split; [reflexivity|].
  exact (proj1 (proj2 (semantic_results_follow_the_slots
                         [doc_a; doc_b] (flat_search [0; 1]%Q) 3 eq_refl)
                  _ eq_refl)).
Defined.

(** *** Keyword search *)

Lemma insert_sorted_asc (key : nat -> Q) a l :
  StronglySorted (fun i j => (key i <= key j)%Q) l ->
  StronglySorted (fun i j => (key i <= key j)%Q)
    (insert_sorted (fun j i => Qltb (key j) (key i)) a l).
Proof.
  intros Hl. induction Hl as [|b l Hl IH Hb]; simpl.
  - repeat constructor.
  - destruct (Qltb (key b) (key a)) eqn:E.
    + constructor; [done|].
      rewrite insert_sorted_Permutation. constructor; [|done].
      by apply Qlt_le_weak, Qltb_true.
    + apply Qltb_false in E. constructor; [by constructor|].
      constructor; [done|].
      eapply Forall_impl; [exact Hb|]. intros y Hy. simpl in Hy.
      by eapply Qle_trans.
Qed.

Lemma argsort_sorted scores :
  StronglySorted
    (fun i j => (default 0 (scores !! i) <= default 0 (scores !! j))%Q)
    (argsort scores).
Proof.
  unfold argsort, stable_sort.
  induction (seq 0 (length scores)) as [|a l IH]; simpl; [constructor|].
  by apply (insert_sorted_asc (fun i => default 0%Q (scores !! i))).
Qed.

Lemma last_k_suffix {A} (k : nat) (l : list A) :
  exists pre, l = pre ++ last_k k l.
Proof.
  destruct k as [|k]; simpl.
  - by exists [].
  - exists (take (length l - S k) l). by rewrite take_drop.
Qed.

Lemma last_k_length {A} (k : nat) (l : list A) :
  length (last_k k l)
  = if decide (k = 0)%nat then length l else Nat.min k (length l).
Proof.
  destruct k as [|k]; [done|].
  unfold last_k. rewrite length_drop, decide_False by done. lia.
Qed.

Lemma StronglySorted_reverse {A} (R : relation A) l :
  StronglySorted R l -> StronglySorted (flip R) (reverse l).
Proof.
  intros Hs. induction Hs as [|a l Hl IH Ha]; [constructor|].
  rewrite reverse_cons. apply StronglySorted_app_2.
  - intros y z Hy ->%list_elem_of_singleton. unfold flip.
    rewrite elem_of_reverse in Hy.
    by apply (proj1 (Forall_forall _ _) Ha).
  - exact IH.
  - repeat constructor.
Qed.

Lemma StronglySorted_Forall2 {A B} (R : relation A) (R' : relation B)
    (rel : A -> B -> Prop) (l : list A) (k : list B) :
  (forall a a' b b', rel a b -> rel a' b' -> R a a' -> R' b b') ->
  Forall2 rel l k -> StronglySorted R l -> StronglySorted R' k.
Proof.
  intros Hrel H. induction H as [|a b l k Hab H IH]; intros Hs;
    [constructor|].
  apply StronglySorted_cons in Hs as [Ha Hs].
  constructor; [by apply IH|].
  clear IH Hs. induction H as [|a' b' l k Hab' _ IH]; [constructor|].
  apply Forall_cons in Ha as [Ha Hl].
  constructor; [by eapply Hrel|by apply IH].
Qed.

(** X15.  When there is one keyword score per metadata entry, the keyword
    search succeeds and returns the entries at the positions of the
    highest scores, the highest first: min(k, N) results for k > 0, and
    all N for k = 0.  No position is returned twice, each result carries
    the entry and the score of its position, and no score that was left
    out is greater than a score that was returned. *)
Theorem keyword_search_returns_the_best_scores
    (metadata : list CorpusDocument) (bm25_scores : list Q) (top_k : nat) :
  length metadata = length bm25_scores ->
  exists positions results,
    query_keyword metadata bm25_scores top_k = Some results
    /\ length results
       = (if decide (top_k = 0)%nat then length metadata
          else Nat.min top_k (length metadata))
    /\ NoDup positions
    /\ Forall2 (fun idx r =>
                  metadata !! idx = Some (r_doc r)
                  /\ bm25_scores !! idx = Some (r_score r)
                  /\ r_search_type r = keyword)
               positions results
    /\ StronglySorted (fun r1 r2 => (r_score r2 <= r_score r1)%Q) results
    /\ forall idx score r,
         bm25_scores !! idx = Some score -> idx ∉ positions ->
         r ∈ results -> (score <= r_score r)%Q.
Proof.
  intros Hlen. unfold query_keyword.
  set (key := fun i => default 0%Q (bm25_scores !! i)).
  pose proof (argsort_sorted bm25_scores) as Hsorted.
  pose proof (argsort_Permutation bm25_scores) as Hperm.
  destruct (last_k_suffix top_k (argsort bm25_scores)) as [pre Hpre].
  set (kept := last_k top_k (argsort bm25_scores)) in *.
  assert (Hin : forall idx, idx ∈ kept -> (idx < length bm25_scores)%nat).
  { intros idx Hidx.
    assert (H : idx ∈ argsort bm25_scores)
      by (rewrite Hpre; apply elem_of_app; by right).
    rewrite Hperm in H. apply elem_of_seq in H. lia. }
  assert (Hsome : is_Some (mapM (fun idx =>
                    doc ← metadata !! idx;
                    score ← bm25_scores !! idx;
                    Some (mkResult doc score keyword None None))
                  (reverse kept))).
  { apply mapM_is_Some, Forall_forall. intros idx Hidx. rewrite elem_of_reverse in Hidx.
    apply Hin in Hidx.
    destruct (lookup_lt_is_Some_2 metadata idx) as [doc Hdoc]; [lia|].
    destruct (lookup_lt_is_Some_2 bm25_scores idx) as [score Hscore]; [lia|].
    unfold compose. rewrite Hdoc. simpl. rewrite Hscore. by eexists. }
  destruct Hsome as [results Hres].
  exists (reverse kept), results. split; [done|].
  apply mapM_Some in Hres.
  assert (Hrel : Forall2 (fun idx r =>
                  metadata !! idx = Some (r_doc r)
                  /\ bm25_scores !! idx = Some (r_score r)
                  /\ r_search_type r = keyword) (reverse kept) results).
  { eapply Forall2_impl; [exact Hres|]. intros idx r Hr. simpl in Hr.
    apply bind_Some in Hr as (doc & Hdoc & Hr).
    apply bind_Some in Hr as (score & Hscore & [= <-]). by simpl. }
  split.
  { rewrite <- (Forall2_length _ _ _ Hres), length_reverse.
    unfold kept. rewrite last_k_length.
    rewrite (Permutation_length Hperm), length_seq. by rewrite Hlen. }
  split.
  { rewrite reverse_Permutation.
    apply (sublist_NoDup kept (pre ++ kept)); [|by apply sublist_inserts_l].
    rewrite <- Hpre, Hperm. apply NoDup_seq. }
  split; [done|]. split.
  - rewrite Hpre in Hsorted. apply StronglySorted_app_1_r in Hsorted.
    apply StronglySorted_reverse in Hsorted.
    eapply StronglySorted_Forall2; [|exact Hrel|exact Hsorted].
    intros i j r1 r2 (_ & H1 & _) (_ & H2 & _). unfold flip.
    by rewrite H1, H2.
  - intros idx score r Hscore Hnot Hr.
    apply list_elem_of_lookup in Hr as [i Hi].
    destruct (Forall2_lookup_r _ _ _ _ _ Hrel Hi) as (p & Hp & _ & H2 & _).
    assert (Hidx : idx ∈ pre).
    { assert (H : idx ∈ argsort bm25_scores).
      { rewrite Hperm. apply elem_of_seq.
        apply lookup_lt_Some in Hscore. lia. }
      rewrite Hpre in H. apply elem_of_app in H as [H|H]; [done|].
      destruct Hnot. by rewrite elem_of_reverse. }
    assert (Hp' : p ∈ kept)
      by (rewrite <- elem_of_reverse; apply list_elem_of_lookup; by exists i).
    rewrite Hpre in Hsorted.
    pose proof (StronglySorted_app_1_elem_of _ _ _ _ _ Hsorted Hidx Hp') as H.
    simpl in H. by rewrite Hscore, H2 in H.
Qed.

Lemma keyword_search_returns_the_best_scores_witness :
  exists (positions : list nat) results,
    query_keyword small_metadata [2; 5; 3]%Q 0 = Some results
    /\ length results = 3%nat
    /\ NoDup positions.
Proof.
  destruct (keyword_search_returns_the_best_scores
              small_metadata [2; 5; 3]%Q 0 eq_refl)
    as (positions & results & H1 & H2 & H3 & _).
  by exists positions, results.
Defined.

(** *** Hybrid search: the shape of the result *)

Lemma query_hybrid_unfold
    (metadata : list CorpusDocument) (faiss_search : nat -> list Z * list Q)
    (bm25_scores : list Q) (set_iter : gset string -> list string)
    (top_k : nat) (alpha : Q) (results : list Result) :
  query_hybrid metadata faiss_search bm25_scores set_iter top_k alpha
  = Some results ->
  exists semantic_results keyword_results semantic_norm keyword_norm,
    query_semantic metadata faiss_search (length metadata)
    = Some semantic_results
    /\ query_keyword metadata bm25_scores (length metadata)
       = Some keyword_results
    /\ normalize (scores_of semantic_results) = Some semantic_norm
    /\ normalize (scores_of keyword_results) = Some keyword_norm
    /\ results
       = omap (fun id =>
                 doc ← find_doc metadata id;
                 Some (mkResult doc
                         (combined alpha semantic_norm keyword_norm id) hybrid
                         (Some (default 0%Q (semantic_norm !! id)))
                         (Some (default 0%Q (keyword_norm !! id)))))
              (take top_k
                 (sorted_desc (combined alpha semantic_norm keyword_norm)
                    (set_iter (dom semantic_norm ∪ dom keyword_norm)))).
Proof.
  unfold query_hybrid. intros H.
  destruct (query_semantic _ _ _) as [semantic_results|]; [|done].
  destruct (query_keyword _ _ _) as [keyword_results|]; [|done].
  simpl in H.
  destruct (normalize (scores_of semantic_results))
    as [semantic_norm|] eqn:Es; [|done].
  destruct (normalize (scores_of keyword_results))
    as [keyword_norm|] eqn:Ek; [|done].
  simpl in H. injection H as <-.
  by exists semantic_results, keyword_results, semantic_norm, keyword_norm.
Qed.

(** *** Hybrid search: the scores *)

Lemma normalize_value_range scores normalized k v :
  normalize scores = Some normalized -> normalized !! k = Some v ->
  (0 <= v)%Q /\ (v <= 1)%Q.
Proof.
  unfold normalize. intros Hn Hv.
  destruct (py_min _) as [lo|] eqn:Hlo; [|done].
  destruct (py_max _) as [hi|] eqn:Hhi; [|done]. simpl in Hn.
  apply py_min_spec in Hlo as [_ Hlo]. apply py_max_spec in Hhi as [_ Hhi].
  destruct (Qeq_bool hi lo) eqn:E; injection Hn as <-;
    apply lookup_fmap_Some in Hv as (v0 & <- & Hk).
  - by split.
  - apply Qeq_bool_neq in E. apply values_elem in Hk.
    apply scaled_in_unit_interval; auto.
Qed.

Lemma normalize_default_range scores normalized k :
  normalize scores = Some normalized ->
  (0 <= default 0 (normalized !! k))%Q /\ (default 0 (normalized !! k) <= 1)%Q.
Proof.
  intros Hn. destruct (normalized !! k) as [v|] eqn:E; simpl.
  - by eapply normalize_value_range.
  - by split.
Qed.

Lemma weighted_mean_in_unit_interval (alpha s w : Q) :
  (0 <= alpha)%Q -> (alpha <= 1)%Q ->
  (0 <= s)%Q -> (s <= 1)%Q -> (0 <= w)%Q -> (w <= 1)%Q ->
  (0 <= alpha * s + (1 - alpha) * w)%Q
  /\ (alpha * s + (1 - alpha) * w <= 1)%Q.
Proof.
  intros Ha0 Ha1 Hs0 Hs1 Hw0 Hw1.
  assert (Hb : (0 <= 1 - alpha)%Q)
    by (apply Qle_minus_iff in Ha1; exact Ha1).
  split.
  - rewrite <- (Qplus_0_l 0). apply Qplus_le_compat;
      by apply Qmult_le_0_compat.
  - apply Qle_minus_iff.
    assert (E : (1 + - (alpha * s + (1 - alpha) * w)
                 == alpha * (1 - s) + (1 - alpha) * (1 - w))%Q) by ring.
    rewrite E. rewrite <- (Qplus_0_l 0). apply Qplus_le_compat;
      apply Qmult_le_0_compat; try done.
    + apply Qle_minus_iff in Hs1. exact Hs1.
    + apply Qle_minus_iff in Hw1. exact Hw1.
Qed.

Lemma scores_of_dom results :
  dom (scores_of results) = list_to_set (ranking results).
Proof.
  unfold scores_of, ranking.
  induction results as [|r rs IH] using rev_ind; [done|].
  rewrite foldl_app, fmap_app, list_to_set_app_L. simpl.
  rewrite dom_insert_L, IH, (right_id_L ∅ (∪)).
  apply (comm_L (∪)).
Qed.

(** X17.  Every result of a hybrid query is marked as hybrid and carries
    the two normalized scores it was computed from: both lie between 0 and
    1, the score is alpha times the semantic one plus (1 - alpha) times
    the keyword one, and for alpha between 0 and 1 it lies between 0 and 1
    too.  A document one of the searches did not return is not left out:
    its score for that search is 0. *)
Theorem hybrid_scores_are_weighted_means
    (metadata : list CorpusDocument) (faiss_search : nat -> list Z * list Q)
    (bm25_scores : list Q) (set_iter : gset string -> list string)
    (top_k : nat) (alpha : Q) (results : list Result) :
  query_hybrid metadata faiss_search bm25_scores set_iter top_k alpha
  = Some results ->
  exists semantic_results keyword_results,
    query_semantic metadata faiss_search (length metadata)
    = Some semantic_results
    /\ query_keyword metadata bm25_scores (length metadata)
       = Some keyword_results
    /\ Forall (fun r =>
         r_search_type r = hybrid
         /\ exists s w,
              r_semantic_score r = Some s /\ r_keyword_score r = Some w
              /\ (0 <= s)%Q /\ (s <= 1)%Q /\ (0 <= w)%Q /\ (w <= 1)%Q
              /\ r_score r = (alpha * s + (1 - alpha) * w)%Q
              /\ ((0 <= alpha)%Q -> (alpha <= 1)%Q ->
                  (0 <= r_score r)%Q /\ (r_score r <= 1)%Q)
              /\ (doc_id (r_doc r) ∉ ranking semantic_results -> s = 0%Q)
              /\ (doc_id (r_doc r) ∉ ranking keyword_results -> w = 0%Q))
         results.
Proof.
  intros (semantic_results & keyword_results & semantic_norm & keyword_norm
          & Hs & Hk & Hsn & Hkn & ->)%query_hybrid_unfold.
  exists semantic_results, keyword_results. split; [done|]. split; [done|].
  apply Forall_forall. intros r (id & _ & Hr)%list_elem_of_omap.
  apply bind_Some in Hr as (doc & Hdoc & [= <-]). simpl.
  apply find_doc_id in Hdoc. subst id.
  split; [done|].
  exists (default 0%Q (semantic_norm !! doc_id doc)),
         (default 0%Q (keyword_norm !! doc_id doc)).
  destruct (normalize_default_range _ _ (doc_id doc) Hsn) as [Hs0 Hs1].
  destruct (normalize_default_range _ _ (doc_id doc) Hkn) as [Hw0 Hw1].
  do 6 (split; [done|]). split; [done|]. split.
  - intros Ha0 Ha1. unfold combined.
    by apply weighted_mean_in_unit_interval.
  - split.
    + intros Hnot.
      assert (Hnone : semantic_norm !! doc_id doc = None).
      { apply not_elem_of_dom. rewrite (normalize_dom _ _ Hsn), scores_of_dom.
        by rewrite elem_of_list_to_set. }
      by rewrite Hnone.
    + intros Hnot.
      assert (Hnone : keyword_norm !! doc_id doc = None).
      { apply not_elem_of_dom. rewrite (normalize_dom _ _ Hkn), scores_of_dom.
        by rewrite elem_of_list_to_set. }
      by rewrite Hnone.
Qed.

Lemma hybrid_scores_are_weighted_means_witness :
  exists results,
    tie_query ascending_iter = Some results
    /\ Forall (fun r => r_search_type r = hybrid) results.
Proof.
  eexists. split; [vm_compute; reflexivity|].
  destruct (hybrid_scores_are_weighted_means
              [doc_a; doc_b] (flat_search [1; 1]%Q) [2; 2]%Q ascending_iter 2
              (1 # 2)%Q _ eq_refl)
    as (sr & kr & _ & _ & H).
  eapply Forall_impl; [exact H|]. by intros r [? _].
Defined.

(** *** Hybrid search: the result list *)

Lemma StronglySorted_omap {A B} (R : relation A) (R' : relation B)
    (f : A -> option B) (l : list A) :
  (forall a a' b b', f a = Some b -> f a' = Some b' -> R a a' -> R' b b') ->
  StronglySorted R l -> StronglySorted R' (omap f l).
Proof.
  intros Hf Hs. induction Hs as [|a l Hl IH Ha]; [constructor|].
  csimpl. destruct (f a) as [b|] eqn:E; [|exact IH].
  constructor; [exact IH|].
  apply Forall_forall. intros b' (a' & Ha' & Hb')%list_elem_of_omap.
  eapply Hf; [exact E|exact Hb'|].
  by apply (proj1 (Forall_forall _ _) Ha).
Qed.

Lemma StronglySorted_take {A} (R : relation A) (k : nat) (l : list A) :
  StronglySorted R l -> StronglySorted R (take k l).
Proof.
  intros Hs. rewrite <- (take_drop k l) in Hs.
  by apply StronglySorted_app_1_l in Hs.
Qed.

Lemma find_doc_first metadata id doc :
  find_doc metadata id = Some doc ->
  exists i, metadata !! i = Some doc
            /\ forall j d, (j < i)%nat -> metadata !! j = Some d ->
                           doc_id d <> id.
Proof.
  unfold find_doc. intros ([i d] & H & ->)%fmap_Some.
  apply list_find_Some in H as (Hi & _ & Hfirst).
  exists i. split; [done|]. intros j d' Hj Hd'. by eapply Hfirst.
Qed.

Lemma py_prefix_take {A} (k : Z) (l : list A) :
  IntTopK.py_prefix k l
  = take (if (0 <=? k)%Z then Z.to_nat k
          else (length l - Z.to_nat (- k))%nat) l.
Proof. unfold IntTopK.py_prefix. by destruct (0 <=? k)%Z. Qed.

(** For a [top_k] that is not negative the two definitions of
    [query_hybrid] agree. *)
Lemma query_hybrid_of_nat
    (metadata : list CorpusDocument) (faiss_search : nat -> list Z * list Q)
    (bm25_scores : list Q) (set_iter : gset string -> list string)
    (top_k : nat) (alpha : Q) :
  IntTopK.query_hybrid metadata faiss_search bm25_scores set_iter
    (Z.of_nat top_k) alpha
  = query_hybrid metadata faiss_search bm25_scores set_iter top_k alpha.
Proof.
  unfold IntTopK.query_hybrid, query_hybrid, IntTopK.py_prefix.
  rewrite (proj2 (Z.leb_le 0 (Z.of_nat top_k))) by lia.
  by rewrite Nat2Z.id.
Qed.

Lemma int_query_hybrid_unfold
    (metadata : list CorpusDocument) (faiss_search : nat -> list Z * list Q)
    (bm25_scores : list Q) (set_iter : gset string -> list string)
    (top_k : Z) (alpha : Q) (results : list Result) :
  IntTopK.query_hybrid metadata faiss_search bm25_scores set_iter top_k alpha
  = Some results ->
  exists semantic_results keyword_results semantic_norm keyword_norm,
    query_semantic metadata faiss_search (length metadata)
    = Some semantic_results
    /\ query_keyword metadata bm25_scores (length metadata)
       = Some keyword_results
    /\ normalize (scores_of semantic_results) = Some semantic_norm
    /\ normalize (scores_of keyword_results) = Some keyword_norm
    /\ results
       = omap (fun id =>
                 doc ← find_doc metadata id;
                 Some (mkResult doc
                         (combined alpha semantic_norm keyword_norm id) hybrid
                         (Some (default 0%Q (semantic_norm !! id)))
                         (Some (default 0%Q (keyword_norm !! id)))))
              (IntTopK.py_prefix top_k
                 (sorted_desc (combined alpha semantic_norm keyword_norm)
                    (set_iter (dom semantic_norm ∪ dom keyword_norm)))).
Proof.
  unfold IntTopK.query_hybrid. intros H.
  destruct (query_semantic _ _ _) as [semantic_results|]; [|done].
  destruct (query_keyword _ _ _) as [keyword_results|]; [|done].
  simpl in H.
  destruct (normalize (scores_of semantic_results))
    as [semantic_norm|] eqn:Es; [|done].
  destruct (normalize (scores_of keyword_results))
    as [keyword_norm|] eqn:Ek; [|done].
  simpl in H. injection H as <-.
  by exists semantic_results, keyword_results, semantic_norm, keyword_norm.
Qed.

(** X18.  Whatever integer top_k is, the results of a hybrid query stand
    in descending order of combined score, no id is returned twice (a
    Python set yields each of its elements once), and the document
    returned for an id is the first metadata entry that has this id: a
    later entry with the same id is never returned by a hybrid query.  For
    a top_k that is not negative there are at most top_k results. *)
Theorem hybrid_results_are_ranked_first_entries
    (metadata : list CorpusDocument) (faiss_search : nat -> list Z * list Q)
    (bm25_scores : list Q) (set_iter : gset string -> list string)
    (top_k : Z) (alpha : Q) (results : list Result) :
  (forall ids, set_iter ids ≡ₚ elements ids) ->
  IntTopK.query_hybrid metadata faiss_search bm25_scores set_iter top_k alpha
  = Some results ->
  ((0 <= top_k)%Z -> (Z.of_nat (length results) <= top_k)%Z)
  /\ NoDup (ranking results)
  /\ StronglySorted (fun r1 r2 => (r_score r2 <= r_score r1)%Q) results
  /\ Forall (fun r =>
       exists i, metadata !! i = Some (r_doc r)
                 /\ forall j d, (j < i)%nat -> metadata !! j = Some d ->
                                doc_id d <> doc_id (r_doc r))
       results.
Proof.
  intros Hiter
    (semantic_results & keyword_results & semantic_norm & keyword_norm
     & _ & _ & _ & _ & ->)%int_query_hybrid_unfold.
  set (score := combined alpha semantic_norm keyword_norm).
  set (ids := set_iter (dom semantic_norm ∪ dom keyword_norm)).
  set (f := fun id => doc ← find_doc metadata id;
              Some (mkResult doc (score id) hybrid
                      (Some (default 0%Q (semantic_norm !! id)))
                      (Some (default 0%Q (keyword_norm !! id))))).
  assert (Hf : forall id r, f id = Some r -> doc_id (r_doc r) = id).
  { intros id r (doc & Hdoc & [= <-])%bind_Some. simpl.
    by apply find_doc_id in Hdoc. }
  rewrite py_prefix_take.
  set (n := if (0 <=? top_k)%Z then Z.to_nat top_k
            else (length (sorted_desc score ids) - Z.to_nat (- top_k))%nat).
  split; [|split; [|split]].
  - intros Hk. unfold n. rewrite (proj2 (Z.leb_le 0 top_k)) by done.
    pose proof (length_omap_le f (take (Z.to_nat top_k)
                                    (sorted_desc score ids))) as Hle.
    rewrite length_take in Hle. lia.
  - apply (sublist_NoDup _ (take n (sorted_desc score ids)));
      [|apply (results_ranking_sublist _ f), Hf].
    apply (sublist_NoDup _ (sorted_desc score ids)); [|apply sublist_take].
    unfold sorted_desc. rewrite stable_sort_Permutation. unfold ids.
    rewrite Hiter. apply NoDup_elements.
  - apply (StronglySorted_omap
             (fun x y => (score y <= score x)%Q) _ f).
    + by intros a a' b b' (d & _ & [= <-])%bind_Some
                          (d' & _ & [= <-])%bind_Some.
    + apply StronglySorted_take, sorted_desc_sorted.
  - apply Forall_forall. intros r (id & _ & Hr)%list_elem_of_omap.
    apply bind_Some in Hr as (doc & Hdoc & [= <-]). simpl.
    pose proof (find_doc_id _ _ _ Hdoc) as ->.
    by apply find_doc_first.
Qed.

Lemma hybrid_results_are_ranked_first_entries_witness :
  exists results,
    IntTopK.query_hybrid [doc_a; doc_b] (flat_search [1; 1]%Q) [2; 2]%Q
      descending_iter 2 (1 # 2)%Q = Some results
    /\ (Z.of_nat (length results) <= 2)%Z /\ NoDup (ranking results).
Proof.
  eexists. split; [vm_compute; reflexivity|].
  match goal with
  | |- (Z.of_nat (length ?results) <= _)%Z /\ _ =>
      assert (H : IntTopK.query_hybrid [doc_a; doc_b] (flat_search [1; 1]%Q)
                    [2; 2]%Q descending_iter 2 (1 # 2)%Q = Some results)
        by (vm_compute; reflexivity)
  end.
  destruct (hybrid_results_are_ranked_first_entries
              _ _ _ _ _ _ _ descending_iter_enumerates H)
    as (H1 & H2 & _).
  split; [apply H1; lia|exact H2].
Defined.

(** *** Hybrid search: how many results *)

Lemma omap_lookup_seq {A} (l : list A) :
  omap (l !!.) (seq 0 (length l)) = l.
Proof.
  induction l as [|a l IH] using rev_ind; [done|].
  rewrite length_app, Nat.add_1_r, seq_S, omap_app. simpl.
  rewrite lookup_app_r, Nat.sub_diag by lia. simpl.
  f_equal. rewrite <- IH at 2.
  apply list_omap_ext, Forall2_same_length_lookup. split; [done|].
  intros i x y Hx Hy. assert (x = y) as <- by congruence.
  apply lookup_seq in Hx as [-> Hlt]. simpl.
  by rewrite lookup_app_l.
Qed.

Lemma last_k_all {A} (l : list A) : last_k (length l) l = l.
Proof.
  unfold last_k. destruct (length l) eqn:E; [done|].
  by rewrite Nat.sub_diag.
Qed.

(** Asked for as many results as there are entries, the keyword search
    returns every entry once. *)
Lemma query_keyword_all metadata bm25_scores results :
  length metadata = length bm25_scores ->
  query_keyword metadata bm25_scores (length metadata) = Some results ->
  r_doc <$> results ≡ₚ metadata.
Proof.
  intros Hlen. unfold query_keyword.
  assert (Hall : last_k (length metadata) (argsort bm25_scores)
                 = argsort bm25_scores).
  { rewrite <- (last_k_all (argsort bm25_scores)) at 2.
    by rewrite (Permutation_length (argsort_Permutation _)), length_seq, Hlen. }
  rewrite Hall. intros H%mapM_Some.
  assert (Hdocs : r_doc <$> results
                  = omap (metadata !!.) (reverse (argsort bm25_scores))).
  { induction H as [|idx r l k Hr _ IH]; [done|]. csimpl.
    apply bind_Some in Hr as (doc & Hdoc & Hr).
    apply bind_Some in Hr as (score & _ & [= <-]).
    rewrite Hdoc. simpl. by rewrite IH. }
  rewrite Hdocs, reverse_Permutation, argsort_Permutation, <- Hlen.
  by rewrite omap_lookup_seq.
Qed.

Lemma query_semantic_docs metadata faiss_search top_k results r :
  query_semantic metadata faiss_search top_k = Some results ->
  r ∈ results -> r_doc r ∈ metadata.
Proof.
  unfold query_semantic. destruct (faiss_search top_k) as [indices distances].
  intros H%mapM_Some Hr. apply list_elem_of_lookup in Hr as [i Hi].
  destruct (Forall2_lookup_r _ _ _ _ _ H Hi) as ([idx dist] & _ & Hd).
  apply bind_Some in Hd as (doc & Hdoc & [= <-]). simpl.
  apply py_index_spec in Hdoc as [_ Hdoc].
  by eapply list_elem_of_lookup_2.
Qed.

Lemma find_doc_is_Some metadata doc :
  doc ∈ metadata -> is_Some (find_doc metadata (doc_id doc)).
Proof.
  intros Hdoc. unfold find_doc. apply fmap_is_Some.
  by eapply list_find_elem_of.
Qed.

Lemma length_omap_total {A B} (f : A -> option B) (l : list A) :
  Forall (fun a => is_Some (f a)) l -> length (omap f l) = length l.
Proof.
  induction 1 as [|a l [b Hb] _ IH]; [done|]. csimpl.
  by rewrite Hb, <- IH.
Qed.

(** X19.  When there is one keyword score per metadata entry, a hybrid
    query ranks every id of the metadata, whether or not the semantic
    search returned it.  With D distinct ids in the metadata it returns
    min(top_k, D) results for a top_k that is not negative, and
    max(D + top_k, 0) results for a negative top_k, which drops the
    -top_k lowest ranked ids.  For top_k of at least D every id of the
    metadata is returned exactly once. *)
Theorem hybrid_search_ranks_every_id
    (metadata : list CorpusDocument) (faiss_search : nat -> list Z * list Q)
    (bm25_scores : list Q) (set_iter : gset string -> list string)
    (top_k : Z) (alpha : Q) (results : list Result) :
  (forall ids, set_iter ids ≡ₚ elements ids) ->
  length metadata = length bm25_scores ->
  IntTopK.query_hybrid metadata faiss_search bm25_scores set_iter top_k alpha
  = Some results ->
  let all_ids : gset string := list_to_set (doc_id <$> metadata) in
  let D := Z.of_nat (size all_ids) in
  Z.of_nat (length results)
  = (if (0 <=? top_k)%Z then Z.min top_k D else Z.max (D + top_k) 0)
  /\ ((D <= top_k)%Z -> ranking results ≡ₚ elements all_ids).
Proof.
  intros Hiter Hlen
    (semantic_results & keyword_results & semantic_norm & keyword_norm
     & Hs & Hk & Hsn & Hkn & ->)%int_query_hybrid_unfold all_ids D.
  assert (Hdom : dom semantic_norm ∪ dom keyword_norm = all_ids).
  { rewrite (normalize_dom _ _ Hsn), (normalize_dom _ _ Hkn), !scores_of_dom.
    assert (Hkw : list_to_set (ranking keyword_results) = all_ids).
    { unfold all_ids, ranking. apply set_eq. intros id.
      rewrite !elem_of_list_to_set.
      rewrite <- (query_keyword_all _ _ _ Hlen Hk), <- list_fmap_compose.
      done. }
    rewrite Hkw. apply subseteq_union_1_L. intros id.
    unfold all_ids, ranking. rewrite !elem_of_list_to_set.
    intros (r & -> & Hr)%list_elem_of_fmap.
    apply list_elem_of_fmap. exists (r_doc r). split; [done|].
    by eapply query_semantic_docs. }
  rewrite Hdom.
  set (score := combined alpha semantic_norm keyword_norm).
  set (f := fun id => doc ← find_doc metadata id;
              Some (mkResult doc (score id) hybrid
                      (Some (default 0%Q (semantic_norm !! id)))
                      (Some (default 0%Q (keyword_norm !! id))))).
  assert (Hsorted : sorted_desc score (set_iter all_ids) ≡ₚ elements all_ids).
  { unfold sorted_desc. by rewrite stable_sort_Permutation, Hiter. }
  assert (Hsize : length (sorted_desc score (set_iter all_ids))
                  = size all_ids)
    by (by rewrite (Permutation_length Hsorted)).
  assert (Htotal : forall l, Forall (fun id => id ∈ all_ids) l ->
            length (omap f l) = length l
            /\ (fun r => doc_id (r_doc r)) <$> omap f l = l).
  { intros l Hl. induction Hl as [|id l Hid _ [IH1 IH2]]; [done|].
    unfold all_ids in Hid. rewrite elem_of_list_to_set in Hid.
    apply list_elem_of_fmap in Hid as (doc & -> & Hdoc).
    destruct (find_doc_is_Some _ _ Hdoc) as [doc' Hdoc'].
    assert (Hfd : exists r, f (doc_id doc) = Some r
                            /\ doc_id (r_doc r) = doc_id doc).
    { eexists. unfold f. rewrite Hdoc'. split; [done|]. simpl.
      by apply find_doc_id in Hdoc'. }
    destruct Hfd as (r & Hfd & Hid).
    csimpl. rewrite Hfd. csimpl. by rewrite IH1, IH2, Hid. }
  rewrite py_prefix_take.
  set (n := if (0 <=? top_k)%Z then Z.to_nat top_k
            else (length (sorted_desc score (set_iter all_ids))
                  - Z.to_nat (- top_k))%nat).
  assert (Hin : Forall (fun id => id ∈ all_ids)
                  (take n (sorted_desc score (set_iter all_ids)))).
  { apply Forall_forall. intros id Hid%elem_of_take.
    destruct Hid as (i & Hid & _). apply list_elem_of_lookup_2 in Hid.
    rewrite Hsorted in Hid. by apply elem_of_elements in Hid. }
  destruct (Htotal _ Hin) as [H1 H2]. split.
  - rewrite H1, length_take, Hsize. unfold n, D. rewrite Hsize.
    destruct (Z.leb_spec 0 top_k); lia.
  - intros Hk'. unfold ranking. rewrite H2, take_ge; [done|].
    rewrite Hsize. unfold n, D in *.
    destruct (Z.leb_spec 0 top_k); lia.
Qed.

Lemma hybrid_search_ranks_every_id_witness :
  exists results,
    IntTopK.query_hybrid small_metadata (flat_search [4; 1; 9]%Q)
      [2; 5; 3]%Q ascending_iter (-1) (1 # 2)%Q = Some results
    /\ length results = 2%nat.
Proof.
  eexists. split; [vm_compute; reflexivity|].
  assert (Hiter : forall ids, ascending_iter ids ≡ₚ elements ids)
    by (intros ids; apply merge_sort_Permutation).
  match goal with
  | |- length ?results = _ =>
      assert (H : IntTopK.query_hybrid small_metadata
                    (flat_search [4; 1; 9]%Q) [2; 5; 3]%Q ascending_iter
                    (-1) (1 # 2)%Q = Some results)
        by (vm_compute; reflexivity)
  end.
  destruct (hybrid_search_ranks_every_id
              small_metadata (flat_search [4; 1; 9]%Q) [2; 5; 3]%Q
              ascending_iter (-1) (1 # 2)%Q _ Hiter eq_refl H)
    as [Hn _].
  apply Nat2Z.inj. rewrite Hn. vm_compute. reflexivity.
Defined.

(** *** The edges read from a document *)

Lemma take_while_prefix (P : ascii -> bool) s :
  exists post, s = take_while P s +:+ post.
Proof.
  induction s as [|c s [post IH]]; [by exists ""|]. simpl.
  destruct (P c); [|by exists (String c s)].
  exists post. by rewrite app_cons, <- IH.
Qed.

Lemma take_while_all (P : ascii -> bool) s :
  all_chars P (take_while P s) = true.
Proof.
  induction s as [|c s IH]; [done|]. simpl.
  destruct (P c) eqn:E; [|done]. simpl. by rewrite E.
Qed.

Lemma drop_chars_app p r : drop_chars (String.length p) (p +:+ r) = r.
Proof. induction p as [|a p IH]; [by destruct r|]. exact IH. Qed.

Lemma contains_app_l m pre s :
  contains m s = true -> contains m (pre +:+ s) = true.
Proof.
  intros H. induction pre as [|c pre IH]; [done|].
  rewrite app_cons. by apply contains_cons.
Qed.

Lemma contains_take_while (P : ascii -> bool) m s :
  contains m (take_while P s) = true -> contains m s = true.
Proof.
  intros (pre & post & H)%contains_spec. apply contains_spec.
  destruct (take_while_prefix P s) as [rest Hrest].
  exists pre, (post +:+ rest). rewrite Hrest at 1. rewrite H.
  by rewrite !string_app_assoc.
Qed.

Lemma contains_refl s : contains s s = true.
Proof.
  apply contains_spec. exists "", "". rewrite app_empty_l.
  induction s as [|c s IH]; [done|]. by rewrite app_cons, <- IH.
Qed.

Lemma contains_trans a b c :
  contains a b = true -> contains b c = true -> contains a c = true.
Proof.
  intros (p1 & q1 & ->)%contains_spec (p2 & q2 & ->)%contains_spec.
  apply contains_spec. exists (p2 +:+ p1), (q1 +:+ q2).
  by rewrite !string_app_assoc.
Qed.

Lemma related_tail_spec s g :
  related_tail s = Some g ->
  g <> "" /\ all_chars not_newline g = true /\ contains g s = true.
Proof.
  assert (Hhere : forall c s',
            not_newline c = true ->
            take_while not_newline (String c s') <> ""
            /\ all_chars not_newline (take_while not_newline (String c s'))
               = true
            /\ contains (take_while not_newline (String c s'))
                 (String c s') = true).
  { intros c s' Hc. split; [by simpl; rewrite Hc|].
    split; [apply take_while_all|].
    apply (contains_take_while not_newline), contains_refl. }
  revert g. induction s as [|c s IH]; intros g; [done|].
  cbn [related_tail]. destruct (is_space c) eqn:Hsp.
  - destruct (related_tail s) as [g'|].
    + intros [= <-]. destruct (IH _ eq_refl) as (H1 & H2 & H3).
      split; [done|]. split; [done|]. by apply contains_cons.
    + destruct (not_newline c) eqn:Hc; [|done].
      intros [= <-]. by apply Hhere.
  - intros [= <-]. apply Hhere. unfold not_newline, is_newline.
    unfold is_space in Hsp.
    destruct (N.eqb_spec (N_of_ascii c) 10) as [E|E]; [|done].
    by rewrite E in Hsp.
Qed.

Lemma drop_chars_contains m n s :
  contains m (drop_chars n s) = true -> contains m s = true.
Proof.
  revert s. induction n as [|n IH]; intros s H; [by destruct s|].
  destruct s as [|c s]; [done|]. by apply contains_cons, IH.
Qed.

Lemma search_related_spec s g :
  search_related s = Some g ->
  g <> "" /\ all_chars not_newline g = true /\ contains g s = true.
Proof.
  revert g. induction s as [|c s IH]; intros g; [done|].
  cbn [search_related].
  assert (Hrec : search_related s = Some g ->
            g <> "" /\ all_chars not_newline g = true
            /\ contains g (String c s) = true).
  { intros H. destruct (IH _ H) as (H1 & H2 & H3).
    split; [done|]. split; [done|]. by apply contains_cons. }
  destruct (startswith Related_marker (String c s)); [|exact Hrec].
  destruct (related_tail _) as [g'|] eqn:E; [|exact Hrec].
  intros [= <-]. destruct (related_tail_spec _ _ E) as (H1 & H2 & H3).
  split; [done|]. split; [done|]. by eapply drop_chars_contains.
Qed.

Lemma all_chars_not_newline g :
  all_chars not_newline g = true -> contains newline_string g = false.
Proof.
  induction g as [|c g IH]; [done|]. cbn [all_chars].
  intros [Hc Hg]%andb_true_iff. cbn [contains]. rewrite (IH Hg).
  unfold newline_string. rewrite prefix_char, orb_false_r.
  case_bool_decide as E; [|done]. subst c. by vm_compute in Hc.
Qed.

(** The pieces of a split at a one-character separator, joined with the
    separator, are the string again. *)
Lemma split_go_join c s :
  let '(p, ps) := split_go (String c "") 0 s in
  join (String c "") (p :: ps) = s.
Proof.
  unfold join. induction s as [|a s IH]; [done|].
  cbn [split_go String.length Nat.sub].
  destruct (split_go (String c "") 0 s) as [p ps].
  rewrite prefix_char. case_bool_decide as E.
  - subst a. by rewrite <- IH.
  - destruct ps as [|q ps]; by rewrite <- IH.
Qed.

Lemma join_split c s : join (String c "") (split (String c "") s) = s.
Proof.
  unfold split. pose proof (split_go_join c s) as H.
  by destruct (split_go (String c "") 0 s).
Qed.

Lemma contains_join_elem sep r l :
  r ∈ l -> contains r (join sep l) = true.
Proof.
  unfold join. induction l as [|a l IH]; [by intros ?%elem_of_nil|].
  intros [->|Hr]%elem_of_cons.
  - destruct l as [|b l]; cbn [String.concat]; [apply contains_refl|].
    apply contains_prefix, startswith_app.
  - destruct l as [|b l]; [by apply elem_of_nil in Hr|]. cbn [String.concat].
    apply contains_app_l, contains_app_l, IH, Hr.
Qed.

Lemma split_piece_contained c r s :
  r ∈ split (String c "") s -> contains r s = true.
Proof.
  intros H. rewrite <- (join_split c s). by apply contains_join_elem.
Qed.

Lemma contains_of_strip s : contains (strip s) s = true.
Proof. apply contains_strip, contains_refl. Qed.

Lemma filter_app_etype t (es1 es2 : list Edge) :
  filter (fun e => etype e = t) (es1 ++ es2)
  = filter (fun e => etype e = t) es1 ++ filter (fun e => etype e = t) es2.
Proof. apply filter_app. Qed.

Lemma extract_relationships_related node_id content source_file :
  filter (fun e => etype e = relates_to)
    (extract_relationships node_id content source_file)
  = match search_related content with
    | Some related_str =>
        (fun r => mkEdge node_id (strip r) relates_to)
          <$> split "," related_str
    | None => []
    end.
Proof.
  unfold extract_relationships. rewrite filter_app_etype.
  assert (Hrest : forall es : list Edge,
            Forall (fun e => etype e <> relates_to) es ->
            filter (fun e => etype e = relates_to) es = []).
  { induction 1 as [|e es He _ IH]; [done|].
    by rewrite filter_cons_False. }
  rewrite (Hrest (if contains "violation-" node_id then _ else _)).
  - rewrite (right_id_L [] (++)).
    destruct (search_related content); [|done].
    by apply filter_etype_same.
  - repeat case_match; rewrite ?Forall_app, ?Forall_fmap;
      repeat split; try (apply Forall_forall; intros ? _; by simpl);
      constructor.
Qed.

(** X21.  When the content holds the Related marker followed, after
    optional white space, by text, the text up to the end of its line is
    taken from the first such place.  It is not empty and holds no line
    break; the document gets exactly one relates_to edge for each of its
    comma-separated pieces (one more than it has commas), in their order,
    from the document to the piece without its surrounding white space.
    No target holds a comma or starts or ends with white space; an empty
    piece gives an edge to the empty id. *)
Theorem related_text_gives_one_edge_per_piece
    (node_id content source_file related_str : string) :
  search_related content = Some related_str ->
  let related :=
    filter (fun e => etype e = relates_to)
      (extract_relationships node_id content source_file) in
  related_str <> ""
  /\ contains newline_string related_str = false
  /\ contains related_str content = true
  /\ join "," (split "," related_str) = related_str
  /\ related = (fun r => mkEdge node_id (strip r) relates_to)
                 <$> split "," related_str
  /\ (0 < length related)%nat
  /\ Forall (fun e => src e = node_id
                      /\ stripped (dst e)
                      /\ contains "," (dst e) = false
                      /\ contains (dst e) content = true) related.
Proof.
  intros Hs related. destruct (search_related_spec _ _ Hs) as (H1 & H2 & H3).
  assert (Hrel : related = (fun r => mkEdge node_id (strip r) relates_to)
                             <$> split "," related_str).
  { unfold related. by rewrite extract_relationships_related, Hs. }
  split; [done|]. split; [by apply all_chars_not_newline|].
  split; [done|]. split; [apply join_split|]. split; [done|]. split.
  - rewrite Hrel, length_fmap. unfold split.
    destruct (split_go "," 0 related_str). simpl. lia.
  - rewrite Hrel. apply Forall_fmap, Forall_forall. intros r Hr. simpl.
    split; [done|]. split; [apply strip_stripped|]. split.
    + apply strip_keeps_free.
      by apply (proj1 (Forall_forall _ _) (split_char_free "," related_str)).
    + eapply contains_trans; [apply contains_of_strip|].
      eapply contains_trans; [|exact H3].
      by eapply split_piece_contained.
Qed.

Lemma related_text_gives_one_edge_per_piece_witness :
  filter (fun e => etype e = relates_to)
    (extract_relationships "law-assoc-001" inline_related "corpus.md")
  = [mkEdge "law-assoc-001" "def-functor-001" relates_to;
     mkEdge "law-assoc-001" "" relates_to].
Proof.
  destruct (related_text_gives_one_edge_per_piece
              "law-assoc-001" inline_related "corpus.md"
              "def-functor-001 , " eq_refl)
    as (_ & _ & _ & _ & H & _).
  exact H.
Defined.

Lemma findall_go_contains p s : forall n m,
  m ∈ findall_go p n s -> contains m s = true.
Proof.
  induction s as [|c s IH]; intros n m; cbn [findall_go].
  - by intros ?%elem_of_nil.
  - assert (Hrec : forall k, m ∈ findall_go p k s ->
                             contains m (String c s) = true)
      by (intros k H; eapply contains_cons, IH, H).
    destruct n as [|n]; [|apply Hrec].
    destruct (startswith p (String c s)) eqn:Hp; [|apply Hrec].
    destruct (take_while is_slug_char
                (drop_chars (String.length p) (String c s)))
      as [|a run] eqn:Hrun; [apply Hrec|].
    intros [->|H]%elem_of_cons; [|by eapply Hrec].
    apply startswith_inv in Hp as [r Hr]. rewrite Hr in Hrun |- *.
    rewrite drop_chars_app in Hrun.
    destruct (take_while_prefix is_slug_char r) as [post Hpost].
    rewrite Hrun in Hpost. rewrite Hpost at 1.
    rewrite <- string_app_assoc. apply contains_prefix, startswith_app.
Qed.

(** X22.  The builder never makes up an id: every edge read from a
    document joins the id of the document and a piece of text that occurs
    literally in its content.  For a relates_to edge the text is a piece
    of the Related line; for every other edge it is a match of the type's
    pattern, so it is never empty. *)
Theorem edge_ends_occur_in_the_content
    (node_id content source_file : string) (e : Edge) :
  e ∈ extract_relationships node_id content source_file ->
  let near := if decide (etype e = defines) then dst e else src e in
  let far := if decide (etype e = defines) then src e else dst e in
  near = node_id
  /\ contains far content = true
  /\ (etype e <> relates_to -> far <> "").
Proof.
  assert (Hfar : forall p m, p <> "" -> m ∈ findall p content ->
            contains m content = true /\ m <> "").
  { intros p m Hp Hm. split; [by eapply findall_go_contains|].
    apply findall_go_sound in Hm as (run & -> & _ & _).
    by destruct p. }
  unfold extract_relationships. intros [H|H]%elem_of_app.
  - destruct (search_related content) as [g|] eqn:Hg;
      [|by apply elem_of_nil in H].
    apply list_elem_of_fmap in H as (r & -> & Hr). simpl.
    split; [done|]. split; [|done].
    destruct (search_related_spec _ _ Hg) as (_ & _ & H3).
    eapply contains_trans; [apply contains_of_strip|].
    eapply contains_trans; [|exact H3].
    by eapply split_piece_contained.
  - destruct (contains "violation-" node_id);
      [|destruct (contains "pattern-" node_id);
        [|destruct (contains "test-" node_id)]].
    + apply elem_of_app in H as [H|H];
        apply list_elem_of_fmap in H as (r & -> & Hr); simpl;
        apply Hfar in Hr as [? ?]; done.
    + apply elem_of_app in H as [H|H];
        apply list_elem_of_fmap in H as (r & -> & Hr); simpl;
        apply Hfar in Hr as [? ?]; done.
    + apply list_elem_of_fmap in H as (r & -> & Hr); simpl.
      apply Hfar in Hr as [? ?]; done.
    + by apply elem_of_nil in H.
Qed.

Lemma edge_ends_occur_in_the_content_witness :
  contains "fix-swap-001" (content violation_doc) = true
  /\ "fix-swap-001" <> "".
Proof.
  destruct (edge_ends_occur_in_the_content
              (doc_id violation_doc) (content violation_doc)
              (source_file violation_doc)
              (mkEdge "violation-swap-001" "fix-swap-001" fixes))
    as (_ & H1 & H2).
  { vm_compute. in_list. }
  split; [exact H1|]. by apply H2.
Defined.
